(** * MCQ extraction from OCR text: a shallow embedding of [parseMCQFromText]

    The program under study is the structural parser of the OCR extractor
    ([src/ocr-working.ts], class [OCRMCQExtractor], method [parseMCQFromText])
    and its near-duplicate variant.  The parser is driven by JavaScript
    regular expressions, so the development starts with a small backtracking
    matcher that follows the ECMAScript matching rules for the constructs the
    source uses, then the [String.prototype] methods built on it, and finally
    the parser itself, statement by statement. *)

From Stdlib Require Import String Ascii DecimalString.
From Stdlib Require Import List NArith Arith Lia Bool.
From Stdlib Require Import Sorting.Sorted Permutation.
Import ListNotations.

Set Implicit Arguments.

(** ** Strings

    A JavaScript string is a sequence of UTF-16 code units. *)

Definition cu := N.
Definition str := list cu.

Definition ch (a : ascii) : cu := N_of_ascii a.
Definition lit (s : string) : str := map N_of_ascii (list_ascii_of_string s).

Arguments ch a%_char.
Arguments lit s%_string.

Definition str_eqb (a b : str) : bool :=
  if list_eq_dec N.eq_dec a b then true else false.

(** ** Character classes *)

Local Open Scope N_scope.

Definition inRange (lo hi x : cu) : bool := (N.leb lo x && N.leb x hi)%bool.
Definition isChar (c : ascii) (x : cu) : bool := N.eqb (ch c) x.
Definition oneOf (s : string) (x : cu) : bool := existsb (N.eqb x) (lit s).
Arguments isChar c%_char x.
Arguments oneOf s%_string x.
Definition notIn (p : cu -> bool) (x : cu) : bool := negb (p x).
Definition anyChar (_ : cu) : bool := true.

Definition isDigit : cu -> bool := inRange 48 57.     (* \d *)
Definition isUpper : cu -> bool := inRange 65 90.
Definition isLower : cu -> bool := inRange 97 122.
Definition isAtoD : cu -> bool := inRange 65 68.     (* [A-D] *)
Definition isLetter (x : cu) : bool := (isLower x || isUpper x)%bool. (* [a-zA-Z] *)
Definition isWord (x : cu) : bool :=                                  (* \w *)
  (isLetter x || isDigit x || N.eqb x 95)%bool.

(** [\s], which is also the set [String.prototype.trim] strips: WhiteSpace
    (TAB, VT, FF, SP, NBSP, ZWNBSP and the Unicode space separators) together
    with LineTerminator (LF, CR, LS, PS). *)
Definition isSpace (x : cu) : bool :=
  (inRange 9 13 x || N.eqb x 32 || N.eqb x 160 || N.eqb x 5760
   || inRange 8192 8202 x || N.eqb x 8232 || N.eqb x 8233 || N.eqb x 8239
   || N.eqb x 8287 || N.eqb x 12288 || N.eqb x 65279)%bool.

Definition isNewline : cu -> bool := N.eqb 10.        (* \n *)

Definition upcase (x : cu) : cu := if isLower x then x - 32 else x.
Definition downcase (x : cu) : cu := if isUpper x then x + 32 else x.

Local Close Scope N_scope.

(** A class under the [i] flag (no [u] flag): [x] is accepted when some
    member of the class has the same canonical form.  Every class of the
    source lists ASCII characters only, and Canonicalize never maps a
    non-ASCII code unit to an ASCII one, so the candidates are [x] and its
    two ASCII case variants. *)
Definition ci (p : cu -> bool) (x : cu) : bool :=
  (p x || p (upcase x) || p (downcase x))%bool.

(** ** Regular expressions *)

Inductive regex : Type :=
| Eps                                   (* the empty pattern *)
| Chr (p : cu -> bool)                  (* one code unit of a class *)
| Seq (r1 r2 : regex)                   (* r1r2 *)
| Alt (r1 r2 : regex)                   (* r1|r2, left alternative first *)
| Star (greedy : bool) (r : regex)      (* r* and r*? *)
| Grp (r : regex)                       (* (r): capture group 1 *)
| Ahead (r : regex)                     (* (?=r) *)
| Bol                                   (* ^ *)
| Eol                                   (* $ *)
| Wordb.                                (* \b *)

Definition Plus (g : bool) (r : regex) : regex := Seq r (Star g r).
Definition Opt (r : regex) : regex := Alt r Eps.      (* r? *)

Fixpoint seqs (rs : list regex) : regex :=
  match rs with
  | [] => Eps
  | [r] => r
  | r :: rs' => Seq r (seqs rs')
  end.

Fixpoint alts (rs : list regex) : regex :=
  match rs with
  | [] => Eps
  | [r] => r
  | r :: rs' => Alt r (alts rs')
  end.

(** A literal word, matched exactly or under the [i] flag. *)
Definition word (s : str) : regex := seqs (map (fun c => Chr (N.eqb c)) s).
Definition wordI (s : str) : regex := seqs (map (fun c => Chr (ci (N.eqb c))) s).

(** ** The matcher

    A position keeps the code units already passed (nearest first), those
    still ahead, and the text of capture group 1 (no pattern of the source
    has more than one group, and none has a group under a quantifier). *)

Record pos : Type := Pos { passed : str; ahead : str; cap : option str }.

Definition consumed (x y : pos) : str :=
  firstn (length (ahead x) - length (ahead y)) (ahead x).

(** RepeatMatcher for [r*] and [r*?]: [step] matches one more [r].  An
    iteration that consumes nothing is rejected, so [n] iterations with
    [n] above the length of the text ahead are all there can be. *)
Fixpoint starLoop (g : bool) (step : (pos -> option pos) -> pos -> option pos)
         (k : pos -> option pos) (n : nat) (x : pos) {struct n} : option pos :=
  match n with
  | O => None
  | S n' =>
      let again y :=
        if length (ahead y) <? length (ahead x) then starLoop g step k n' y else None in
      if g then
        match step again x with
        | Some z => Some z
        | None => k x
        end
      else
        match k x with
        | Some z => Some z
        | None => step again x
        end
  end.

(** [m r k x]: match [r] at [x], then continue with [k]; backtracking is the
    [None] answer of the continuation. *)
Fixpoint m (r : regex) (k : pos -> option pos) (x : pos) {struct r} : option pos :=
  match r with
  | Eps => k x
  | Chr p =>
      match ahead x with
      | c :: t => if p c then k (Pos (c :: passed x) t (cap x)) else None
      | [] => None
      end
  | Seq r1 r2 => m r1 (m r2 k) x
  | Alt r1 r2 =>
      match m r1 k x with
      | Some y => Some y
      | None => m r2 k x
      end
  | Star g r1 => starLoop g (m r1) k (S (length (ahead x))) x
  | Grp r1 => m r1 (fun y => k (Pos (passed y) (ahead y) (Some (consumed x y)))) x
  | Ahead r1 =>
      match m r1 Some x with
      | Some y => k (Pos (passed x) (ahead x) (cap y))
      | None => None
      end
  | Bol => match passed x with [] => k x | _ :: _ => None end
  | Eol => match ahead x with [] => k x | _ :: _ => None end
  | Wordb =>
      let a := match passed x with c :: _ => isWord c | [] => false end in
      let b := match ahead x with c :: _ => isWord c | [] => false end in
      if xorb a b then k x else None
  end.

(** The result of [RegExp.prototype.exec]: where the match starts and ends. *)
Record found : Type := Found { from : pos; upto : pos }.

Definition index (f : found) : nat := length (passed (from f)).
Definition matched (f : found) : str := consumed (from f) (upto f).   (* match[0] *)
Definition group1 (f : found) : option str := cap (upto f).           (* match[1] *)

(** Leftmost match at or after the position [(l, s)]. *)
Fixpoint search (r : regex) (l s : str) {struct s} : option found :=
  match m r Some (Pos l s None) with
  | Some y => Some (Found (Pos l s None) y)
  | None =>
      match s with
      | [] => None
      | c :: t => search r (c :: l) t
      end
  end.

(** [s.match(r)] and [r.exec(s)] for a pattern without the [g] flag. *)
Definition exec (r : regex) (s : str) : option found := search r [] s.

(** [m?.[1]] read as a condition or under [||]: absent and empty are falsy. *)
Definition group1_or (d : str) (f : option found) : str :=
  match f with
  | Some f' => match group1 f' with Some (c :: t) => c :: t | _ => d end
  | None => d
  end.

(** ** String methods *)

Fixpoint dropWhile (p : cu -> bool) (s : str) : str :=
  match s with
  | c :: t => if p c then dropWhile p t else s
  | [] => []
  end.

Definition trimStart (s : str) : str := dropWhile isSpace s.
Definition trimEnd (s : str) : str := rev (dropWhile isSpace (rev s)).
Definition trim (s : str) : str := trimEnd (trimStart s).

(** [s.substring(a, b)]: both ends clamped to the length, swapped if needed. *)
Definition substring (a b : nat) (s : str) : str :=
  firstn (Nat.max a b - Nat.min a b) (skipn (Nat.min a b) s).

(** [s.substring(a)]. *)
Definition substringFrom (a : nat) (s : str) : str := skipn a s.

Fixpoint startsWith (p s : str) : bool :=
  match p, s with
  | [], _ => true
  | a :: p', b :: s' => (N.eqb a b && startsWith p' s')%bool
  | _ :: _, [] => false
  end.

Fixpoint includes (p s : str) : bool :=
  (startsWith p s || match s with [] => false | _ :: t => includes p t end)%bool.

(** [s.replace(p, rep)] with a string pattern: the first occurrence only. *)
Fixpoint replaceStr (p rep s : str) : str :=
  if startsWith p s then rep ++ skipn (length p) s
  else match s with
       | [] => []
       | c :: t => c :: replaceStr p rep t
       end.

(** [s.replace(r, rep)] for a pattern without the [g] flag. *)
Definition replaceFirst (r : regex) (rep s : str) : str :=
  match exec r s with
  | Some f => firstn (index f) s ++ rep ++ ahead (upto f)
  | None => s
  end.

(** [s.replace(r, rep)] for a pattern with the [g] flag.  After an empty
    match the scan moves on by one code unit. *)
Fixpoint replaceAllFrom (fuel : nat) (r : regex) (rep l s : str) : str :=
  match fuel with
  | O => s
  | S fuel' =>
      match search r l s with
      | None => s
      | Some f =>
          firstn (index f - length l) s ++ rep ++
          match matched f, ahead (upto f) with
          | [], [] => []
          | [], c :: t => c :: replaceAllFrom fuel' r rep (c :: passed (upto f)) t
          | _ :: _, rest => replaceAllFrom fuel' r rep (passed (upto f)) rest
          end
      end
  end.

Definition replaceAll (r : regex) (rep s : str) : str :=
  replaceAllFrom (S (length s)) r rep [] s.

(** [s.match(r)] for a pattern with the [g] flag: every match[0], in order
    ([null] is read through [|| []] at the only call site). *)
Fixpoint matchAllFrom (fuel : nat) (r : regex) (l s : str) : list str :=
  match fuel with
  | O => []
  | S fuel' =>
      match search r l s with
      | None => []
      | Some f =>
          matched f ::
          match matched f, ahead (upto f) with
          | [], [] => []
          | [], c :: t => matchAllFrom fuel' r (c :: passed (upto f)) t
          | _ :: _, rest => matchAllFrom fuel' r (passed (upto f)) rest
          end
      end
  end.

Definition matchAll (r : regex) (s : str) : list str :=
  matchAllFrom (S (length s)) r [] s.

(** [s.split(r)] for a pattern without groups: [piece] is the text since the
    last split point (nearest first); a match is tried at every position and
    an empty match at the split point itself is skipped. *)
Fixpoint splitFrom (fuel : nat) (r : regex) (l s piece : str) : list str :=
  match fuel with
  | O => [rev piece ++ s]
  | S fuel' =>
      match s with
      | [] => [rev piece]
      | c :: t =>
          match m r Some (Pos l s None) with
          | Some y =>
              match consumed (Pos l s None) y, piece with
              | [], [] => splitFrom fuel' r (c :: l) t (c :: piece)
              | _, _ => rev piece :: splitFrom fuel' r (passed y) (ahead y) []
              end
          | None => splitFrom fuel' r (c :: l) t (c :: piece)
          end
      end
  end.

Definition split (r : regex) (s : str) : list str :=
  match s with
  | [] => match m r Some (Pos [] [] None) with Some _ => [] | None => [[]] end
  | _ :: _ => splitFrom (2 * length s + 2) r [] s []
  end.

(** [a.sort(cmp)]: the sort is stable; [le x y] stands for [cmp(x, y) <= 0]. *)
Section Sort.
Variable A : Type.
Variable le : A -> A -> bool.

Fixpoint insert (x : A) (l : list A) : list A :=
  match l with
  | [] => [x]
  | y :: t => if le x y then x :: y :: t else y :: insert x t
  end.

Definition sortBy (l : list A) : list A := fold_right insert [] l.
End Sort.

(** [s.toUpperCase()] is applied to option ids only, which are the ASCII
    letters of [optionPatterns]; on ASCII text it is the map below. *)
Definition toUpperCase (s : str) : str := map upcase s.

(** [a.localeCompare(b) <= 0], used on option ids only: for the ids "A" to
    "D" the collation order is the order of the code units. *)
Fixpoint localeCompareLe (a b : str) : bool :=
  match a, b with
  | [], _ => true
  | _ :: _, [] => false
  | x :: a', y :: b' => (N.ltb x y || (N.eqb x y && localeCompareLe a' b'))%bool
  end.

Definition isEmpty (s : str) : bool := match s with [] => true | _ => false end.

(** ** Data model (interfaces [MCQOption] and [MCQQuestion]) *)

Record MCQOption : Type := { id : str; text : str }.

Record MCQQuestion : Type := {
  questionId : str;
  filename : str;
  question : str;
  options : list MCQOption;
  rawText : option str
}.

(** What the parser writes to the console, in order. *)
Inductive Diag : Type :=
| WarnLabeledOnly (found : nat)              (* Only found n labeled options ... *)
| WarnMissingIds (ids : list str)            (* Missing option IDs: ... *)
| LogUnlabeled (oid shown : str)             (* Found unlabeled option X: ... *)
| WarnQuestionTooShort (file body : str)     (* Warning: Question text too short ... *)
| WarnFewOptions (found : nat) (file : str)  (* Warning: Only found n options ... *)
| ErrorParsing (file : str).                 (* Error parsing MCQ from ... *)

(** ** Patterns of the source *)

Definition spaces : regex := Star true (Chr isSpace).          (* \s*  *)
Definition spaces1 : regex := Plus true (Chr isSpace).         (* \s+  *)
Definition letterAD : regex := Chr (ci isAtoD).       (* [A-D] under /i *)
Definition closer : regex := Chr (oneOf ").").                 (* [\)\.] *)
Definition sentenceEnd : cu -> bool := oneOf ".!?".            (* [.!?] *)

(** [\d{2,4}], greedy: four digits, then three, then two. *)
Definition digits2to4 : regex :=
  seqs [Chr isDigit; Chr isDigit; Opt (Seq (Chr isDigit) (Opt (Chr isDigit)))].

(** /(?:^|\s)([QE]\d{2,4})\b/i *)
Definition questionIdPattern : regex :=
  seqs [Alt Bol (Chr isSpace); Grp (Seq (Chr (ci (oneOf "QE"))) digits2to4); Wordb].

(** /(?:^|\s)([QE]\d{2,4})\b\.?\s*/i *)
Definition questionIdPrefixPattern : regex :=
  seqs [Alt Bol (Chr isSpace); Grp (Seq (Chr (ci (oneOf "QE"))) digits2to4); Wordb;
        Opt (Chr (isChar ".")); spaces].

Definition optionStartPatterns : list regex :=
  [ Ahead (seqs [spaces; Chr (isChar "("); letterAD; Chr (isChar ")")]);
    Ahead (seqs [spaces; letterAD; closer]);
    Ahead (seqs [spaces; wordI (lit "Upload"); spaces1; wordI (lit "the"); spaces1;
                 wordI (lit "data")]);
    Ahead (seqs [spaces; wordI (lit "Use"); spaces1; wordI (lit "a"); spaces1;
                 wordI (lit "subset")]);
    Ahead (seqs [spaces; wordI (lit "Send"); spaces1; wordI (lit "the")]);
    Ahead (seqs [spaces; wordI (lit "Create")]) ].

(** /(.*\?)/s *)
Definition questionMarkPattern : regex :=
  Grp (Seq (Star true (Chr anyChar)) (Chr (isChar "?"))).

(** /^[^a-zA-Z]*/ *)
Definition leadingNonLetters : regex := Seq Bol (Star true (Chr (notIn isLetter))).

Definition optionPatterns : list str := [lit "A"; lit "B"; lit "C"; lit "D"].

(** (?=\s*\([A-D]\)|$) and (?=\s*[A-D][\)\.]|$), under /i. *)
Definition nextParenLabel : regex :=
  Ahead (Alt (seqs [spaces; Chr (isChar "("); letterAD; Chr (isChar ")")]) Eol).
Definition nextLetterLabel : regex :=
  Ahead (Alt (seqs [spaces; letterAD; closer]) Eol).

(** The three label shapes built for one letter, all under /i:
    \(L\)\s*([^\(]*?)(?=\s*\([A-D]\)|$)
    \sL[\)\.]\s*([^A-D]*?)(?=\s*[A-D][\)\.]|$)
    L[\)\.]\s*([^\n]*?)(?=\s*[A-D][\)\.]|$) *)
Definition patterns (letter : str) : list regex :=
  [ seqs [Chr (isChar "("); wordI letter; Chr (isChar ")"); spaces;
          Grp (Star false (Chr (notIn (isChar "(")))); nextParenLabel];
    seqs [Chr isSpace; wordI letter; closer; spaces;
          Grp (Star false (Chr (notIn (ci isAtoD)))); nextLetterLabel];
    seqs [wordI letter; closer; spaces;
          Grp (Star false (Chr (notIn isNewline))); nextLetterLabel] ].

(** new RegExp(`\\(${option.id}\\)`, 'i') *)
Definition markerPattern (oid : str) : regex :=
  seqs [Chr (isChar "("); wordI oid; Chr (isChar ")")].

Definition actionVerbs : regex :=
  alts (map wordI [lit "Use"; lit "Send"; lit "Create"; lit "Build"; lit "Configure";
                   lit "Train"; lit "Deploy"; lit "Implement"]).

(** /[.!?]\s+/ *)
Definition chunkSeparator : regex := Seq (Chr sentenceEnd) spaces1.

(** /^(Use|Send|Create|Build|Configure|Train|Deploy|Implement)/i *)
Definition actionStartPattern : regex := Seq Bol (Grp actionVerbs).

(** /(?:^|\s)((?:Use|Send|Create|Build|Configure|Train|Deploy|Implement)[^.!?]*[.!?]?)/gi *)
Definition actionSentencePattern : regex :=
  seqs [Alt Bol (Chr isSpace);
        Grp (seqs [actionVerbs; Star true (Chr (notIn sentenceEnd));
                   Opt (Chr sentenceEnd)])].

(** ** The parser of [ocr-working.ts] *)

(** Lines 35-39: the clean-up of the OCR text. *)
Definition cleanUp (text : str) : str :=
  trim
    (replaceAll (Chr (isChar "|")) (lit "I")
       (replaceAll spaces1 (lit " ")
          (replaceAll (Plus true (Chr isNewline)) (lit " ") text))).

(** Lines 42-44. *)
Definition extractQuestionId (cleanText file : str) : str :=
  group1_or (lit "Q_" ++ replaceStr (lit ".png") [] file)
            (exec questionIdPattern cleanText).

(** Lines 51-55. *)
Definition textAfterQuestionId (cleanText : str) : str :=
  match exec questionIdPrefixPattern cleanText with
  | Some qIdMatch => substringFrom (index qIdMatch + length (matched qIdMatch)) cleanText
  | None => cleanText
  end.

(** Lines 68-74. *)
Definition questionEndIndex (after : str) : nat :=
  fold_left
    (fun endIndex pattern =>
       match exec pattern after with
       | Some f => if index f <? endIndex then index f else endIndex
       | None => endIndex
       end)
    optionStartPatterns (length after).

(** Lines 76-79: strategy 1, the text before the first option signal. *)
Definition beforeOptions (after : str) : str :=
  trim (substring 0 (questionEndIndex after) after).

Definition strategy1 (after : str) : str :=
  let b := beforeOptions after in
  if (negb (isEmpty b) && (50 <? length b))%bool then b else [].

(** Lines 82-87: strategy 2, the text ending with a question mark. *)
Definition strategy2 (after questionText : str) : str :=
  if isEmpty questionText then
    match group1_or [] (exec questionMarkPattern after) with
    | [] => questionText
    | g => trim g
    end
  else questionText.

(** Lines 90-95: strategy 3, the first 500 code units. *)
Definition strategy3 (after questionText : str) : str :=
  if isEmpty questionText then
    let fallbackText := trim (substring 0 500 after) in
    if 50 <? length fallbackText then fallbackText else questionText
  else questionText.

Definition chosenQuestionText (after : str) : str :=
  strategy3 after (strategy2 after (strategy1 after)).

(** Lines 98-101. *)
Definition tidyQuestion (questionText : str) : str :=
  trim (replaceAll spaces1 (lit " ") (replaceFirst leadingNonLetters [] questionText)).

Definition questionBody (cleanText : str) : str :=
  tidyQuestion (chosenQuestionText (textAfterQuestionId cleanText)).

(** Lines 119-125: the longest trimmed capture among the three shapes. *)
Definition keepLonger (cleanText optionText : str) (pattern : regex) : str :=
  match group1_or [] (exec pattern cleanText) with
  | [] => optionText
  | g => if length optionText <? length (trim g) then trim g else optionText
  end.

Definition optionText (cleanText letter : str) : str :=
  fold_left (keepLonger cleanText) (patterns letter) [].

(** Lines 128-131. *)
Definition tidyOption (t : str) : str :=
  trim (replaceFirst leadingNonLetters [] (replaceAll spaces1 (lit " ") t)).

(** Lines 127-139: what one letter pushes onto [options]. *)
Definition labeledOption (cleanText letter : str) : list MCQOption :=
  let t := optionText cleanText letter in
  if isEmpty t then []
  else
    let t' := tidyOption t in
    if 5 <? length t' then [{| id := letter; text := t' |}] else [].

(** Lines 112-140: the labeled pass. *)
Definition labeledOptions (cleanText : str) : list MCQOption :=
  flat_map (labeledOption cleanText) optionPatterns.

(** Lines 146-147. *)
Definition missingIds (opts : list MCQOption) : list str :=
  let foundIds := map (fun opt => toUpperCase (id opt)) opts in
  filter (fun i => negb (existsb (str_eqb i) foundIds)) optionPatterns.

Record marker : Type := { mid : str; mstart : nat; mend : nat }.

(** Lines 156-171. *)
Definition optionPositions (cleanText : str) (opts : list MCQOption) : list marker :=
  sortBy (fun a b => mstart a <=? mstart b)
    (flat_map
       (fun option =>
          match exec (markerPattern (id option)) cleanText with
          | Some f => [{| mid := id option; mstart := index f;
                          mend := index f + length (matched f) |}]
          | None => []
          end)
       opts).

(** Lines 197-199. *)
Definition looksLikeOption (cleanChunk : str) : bool :=
  (match exec actionStartPattern cleanChunk with Some _ => true | None => false end
   || includes (lit "Amazon") cleanChunk
   || includes (lit "API") cleanChunk)%bool.

(** Lines 193-203: the first chunk that looks like an option, if any. *)
Fixpoint firstOptionChunk (chunks : list str) : list str :=
  match chunks with
  | [] => []
  | chunk :: rest =>
      let cleanChunk := replaceAll spaces1 (lit " ") (trim chunk) in
      if looksLikeOption cleanChunk then [cleanChunk] else firstOptionChunk rest
  end.

(** Lines 178-204: the candidate found between two neighbouring markers. *)
Definition betweenMarkers (cleanText : str) (currentOption nextOption : marker) : list str :=
  let betweenText := trim (substring (mend currentOption) (mstart nextOption) cleanText) in
  if 50 <? length betweenText then
    firstOptionChunk
      (filter (fun chunk => 30 <? length (trim chunk)) (split chunkSeparator betweenText))
  else [].

(** Lines 177-205. *)
Fixpoint gapCandidates (cleanText : str) (positions : list marker) : list str :=
  match positions with
  | currentOption :: rest =>
      match rest with
      | nextOption :: _ =>
          betweenMarkers cleanText currentOption nextOption ++ gapCandidates cleanText rest
      | [] => []
      end
  | [] => []
  end.

Section Parser.

(** [String.prototype.toLowerCase], the runtime's Unicode mapping, is
    applied to arbitrary text in the duplicate test of line 216. *)
Variable toLowerCase : str -> str.

(** Lines 215-217. *)
Definition alreadyFound (opts : list MCQOption) (candidateTexts : list str)
           (cleanSentence : str) : bool :=
  existsb
    (fun t => str_eqb (substring 0 30 (toLowerCase t))
                      (substring 0 30 (toLowerCase cleanSentence)))
    (map text opts ++ candidateTexts).

(** Lines 211-222: one action-verb sentence. *)
Definition addSentence (opts : list MCQOption) (candidateTexts : list str)
           (sentence : str) : list str :=
  let cleanSentence := replaceAll spaces1 (lit " ") (trim sentence) in
  if (negb (alreadyFound opts candidateTexts cleanSentence)
      && (40 <? length cleanSentence))%bool
  then candidateTexts ++ [cleanSentence]
  else candidateTexts.

(** Lines 174-223: the candidate texts of both strategies. *)
Definition candidateTexts (cleanText : str) (opts : list MCQOption) : list str :=
  let fromGaps := gapCandidates cleanText (optionPositions cleanText opts) in
  if length fromGaps <? length (missingIds opts) then
    fold_left (addSentence opts) (matchAll actionSentencePattern cleanText) fromGaps
  else fromGaps.

(** Lines 226-235: candidates are given to the missing ids pairwise. *)
Definition inferredOptions (cleanText : str) (opts : list MCQOption) : list MCQOption :=
  map (fun p => {| id := fst p; text := snd p |})
      (combine (missingIds opts) (candidateTexts cleanText opts)).

(** Lines 143-240: the gap-inference pass and the final sort. *)
Definition completeOptions (cleanText : str) (opts : list MCQOption) : list MCQOption :=
  if length opts <? 4 then
    sortBy (fun a b => localeCompareLe (id a) (id b))
      (if 0 <? length (missingIds opts)
       then opts ++ inferredOptions cleanText opts
       else opts)
  else opts.

Definition optionDiagnostics (cleanText : str) (opts : list MCQOption) : list Diag :=
  if length opts <? 4 then
    WarnLabeledOnly (length opts) ::
    (if 0 <? length (missingIds opts)
     then WarnMissingIds (missingIds opts) ::
          map (fun o => LogUnlabeled (id o) (substring 0 50 (text o)))
              (inferredOptions cleanText opts)
     else [])
  else [].

(** Lines 243-249. *)
Definition validationDiagnostics (file questionText : str)
           (opts : list MCQOption) : list Diag :=
  (if (isEmpty questionText || (length questionText <? 20))%bool
   then [WarnQuestionTooShort file questionText] else []) ++
  (if length opts <? 2 then [WarnFewOptions (length opts) file] else []).

(** Lines 32-263.  No statement of the [try] block can throw (the patterns
    are fixed and well formed, every string method used is total), so the
    [catch] branch, which logs and returns [null], is never taken. *)
Definition parseMCQFromText (text file : str) : option MCQQuestion * list Diag :=
  let cleanText := cleanUp text in
  let questionText := questionBody cleanText in
  let labeled := labeledOptions cleanText in
  let opts := completeOptions cleanText labeled in
  (Some {| questionId := extractQuestionId cleanText file;
           filename := file;
           question := questionText;
           options := opts;
           rawText := Some text |},
   optionDiagnostics cleanText labeled ++ validationDiagnostics file questionText opts).

End Parser.

(** [toLowerCase] on ASCII text. *)
Definition asciiLower (s : str) : str := map downcase s.

(** ** The near-duplicate extractor

    The second extractor file repeats lines 32-44 (clean-up and question id)
    and the labeled pass of [ocr-working.ts] word for word; it differs in how
    the question text is found (its lines 48-76) and in the fallback for
    missing options (its lines 124-146). *)
Module Variant.

Definition questionWords : regex :=
  alts (map wordI [lit "Which"; lit "What"; lit "How"; lit "Why"; lit "When";
                   lit "Where"]).

Definition topicWords : regex :=
  alts (map wordI [lit "solution"; lit "requirements"; lit "meet"; lit "build";
                   lit "application"]).

(** /([^.]*(?:Which|What|How|Why|When|Where)[^?]*\?)/i
    /(.*?)(?=\s*A[\)\.])/s
    /([^.]*(?:solution|requirements|meet|build|application)[^.?]*[.?]?)/i *)
Definition questionPatterns : list regex :=
  [ Grp (seqs [Star true (Chr (notIn (isChar "."))); questionWords;
               Star true (Chr (notIn (isChar "?"))); Chr (isChar "?")]);
    Seq (Grp (Star false (Chr anyChar)))
        (Ahead (seqs [spaces; Chr (isChar "A"); closer]));
    Grp (seqs [Star true (Chr (notIn (isChar "."))); topicWords;
               Star true (Chr (notIn (oneOf ".?"))); Opt (Chr (oneOf ".?"))]) ].

(** Lines 58-64: the first pattern whose capture is longer than 50. *)
Fixpoint firstSubstantial (cleanText : str) (ps : list regex) : str :=
  match ps with
  | [] => []
  | pattern :: rest =>
      let g := group1_or [] (exec pattern cleanText) in
      if (negb (isEmpty g) && (50 <? length g))%bool then trim g
      else firstSubstantial cleanText rest
  end.

(** /\sA[\)\.]]/ and /\s[A-D][\)\.]]/: the class is followed by a literal
    closing bracket. *)
Definition splitAtA : regex :=
  seqs [Chr isSpace; Chr (isChar "A"); closer; Chr (isChar "]")].
Definition splitAtLetter : regex :=
  seqs [Chr isSpace; Chr isAtoD; closer; Chr (isChar "]")].

(** [x?.trim() || d] for the first element of a split. *)
Definition headTrimmedOr (d : str) (parts : list str) : str :=
  match parts with
  | [] => d
  | p :: _ => match trim p with [] => d | t => t end
  end.

(** Lines 67-76. *)
Definition beforeFirstOption (cleanText questionText : str) : str :=
  if isEmpty questionText then
    let parts := split splitAtA cleanText in
    if 1 <? length parts then headTrimmedOr [] parts
    else
      headTrimmedOr (substring 0 (Nat.min (length cleanText) 300) cleanText)
                    (split splitAtLetter cleanText)
  else questionText.

Definition questionBody (cleanText : str) : str :=
  tidyQuestion
    (beforeFirstOption cleanText (firstSubstantial cleanText questionPatterns)).

Definition optionBText : str :=
  lit "Use a subset of the survey responses to train an Amazon Comprehend custom entity recognition to identify Pll data in the survey responses".

(** Lines 127-142: only option B is looked for, by its known wording. *)
Definition inferredOptions (cleanText : str) (opts : list MCQOption) : list MCQOption :=
  let foundIds := map (fun opt => toUpperCase (id opt)) opts in
  if negb (existsb (str_eqb (lit "B")) foundIds) then
    match exec (wordI optionBText) cleanText with
    | Some _ => [{| id := lit "B"; text := optionBText |}]
    | None => []
    end
  else [].

(** Lines 124-146. *)
Definition completeOptions (cleanText : str) (opts : list MCQOption) : list MCQOption :=
  if length opts <? 4 then
    sortBy (fun a b => localeCompareLe (id a) (id b))
           (opts ++ inferredOptions cleanText opts)
  else opts.

Definition optionDiagnostics (cleanText : str) (opts : list MCQOption) : list Diag :=
  if length opts <? 4 then
    WarnLabeledOnly (length opts) ::
    map (fun o => LogUnlabeled (id o)
                    (lit "Use a subset of the survey responses to train an Amazon"))
        (inferredOptions cleanText opts)
  else [].

(** Lines 32-169. *)
Definition parseMCQFromText (text file : str) : option MCQQuestion * list Diag :=
  let cleanText := cleanUp text in
  let questionText := questionBody cleanText in
  let labeled := labeledOptions cleanText in
  let opts := completeOptions cleanText labeled in
  (Some {| questionId := extractQuestionId cleanText file;
           filename := file;
           question := questionText;
           options := opts;
           rawText := Some text |},
   optionDiagnostics cleanText labeled
     ++ validationDiagnostics file questionText opts).

End Variant.

(** ** The rest of the extractor class

    [extractTextFromImage], [processDirectory], the two formatters and
    [main] call the OCR engine, the file system, [path], the clock and
    [JSON.stringify].  None of these is part of the program: they are taken
    as an environment, and a clock reading is an argument of the function
    that takes it. *)

Inductive result (A : Type) : Type :=
| Ok (a : A)                     (* the call returns *)
| Thrown (error : str).          (* the call throws; the error as text *)

Arguments Ok {A} a.
Arguments Thrown {A} error.

Local Unset Elimination Schemes.

(** What is handed to [JSON.stringify]: objects keep the order of their keys. *)
Inductive json : Type :=
| JString (s : str)
| JNumber (n : nat)
| JBool (b : bool)
| JArray (items : list json)
| JObject (fields : list (str * json)).

Local Set Elimination Schemes.

Record Env : Type := {
  lowerCase : str -> str;                     (* String.prototype.toLowerCase *)
  extname : str -> str;                       (* path.extname *)
  join : str -> str -> str;                   (* path.join *)
  recognize : str -> result str;              (* tesseract.recognize, awaited *)
  readdirSync : str -> result (list str);     (* fs.readdirSync *)
  existsSync : str -> bool;                   (* fs.existsSync *)
  writeFileSync : str -> str -> result unit;  (* fs.writeFileSync *)
  stringify : json -> str                     (* JSON.stringify(_, null, 2) *)
}.

(** The console lines of [processDirectory] and [main]. *)
Inductive Console : Type :=
| LogNoPngFiles                              (* No PNG files found in the directory. *)
| LogProcessing (count : nat)                (* Processing n PNG files with OCR... *)
| LogExtracting (file : str)                 (* Extracting text from: file *)
| LogPreview (start : str)                   (* Raw OCR text preview: "..." *)
| LogParser (d : Diag)                       (* a line of parseMCQFromText *)
| LogExtracted (qid : str) (count : nat)     (* Extracted question: id (n options) *)
| LogOptionsFound (ids : str)                (* Options found: A, B *)
| LogFailed (file : str)                     (* Failed to parse MCQ structure from: file *)
| LogSample (start : str)                    (* Raw text sample: "..." *)
| ErrProcessing (file error : str)           (* Error processing file: error *)
| ErrNoDirectory (dir : str)                 (* Directory "dir" does not exist. *)
| LogStart (dir : str)                       (* Processing PNG files in: dir *)
| LogSaved (count : nat) (outputs : list str) (* Successfully extracted ... saved to ... *)
| LogNoQuestions                             (* No questions were successfully extracted. *)
| ErrMain (error : str).                     (* Error: error *)

(** [`${n}`] for a count. *)
Definition showNat (n : nat) : str := lit (NilZero.string_of_uint (Nat.to_uint n)).

(** [a.join(sep)]. *)
Fixpoint joinWith (sep : str) (l : list str) : str :=
  match l with
  | [] => []
  | x :: rest =>
      match rest with
      | [] => x
      | _ :: _ => x ++ sep ++ joinWith sep rest
      end
  end.

(** [x || d] on strings and [!!x] on an optional string. *)
Definition orDefault (d : str) (x : option str) : str :=
  match x with
  | Some (c :: t) => c :: t
  | _ => d
  end.

Definition truthy (x : option str) : bool :=
  match x with
  | Some (_ :: _) => true
  | _ => false
  end.

Definition nl : str := [10%N].
Definition rule80 : str := repeat (ch "=") 80.          (* '='.repeat(80) *)
Definition rule40 : str := repeat 9472%N 40.            (* the box-drawing dash, 40 times *)

Section Extractor.

Variable env : Env.

(** [this.parseMCQFromText]: [parseMCQFromText] in [ocr-working.ts], and
    [Variant.parseMCQFromText] in the other file, whose copy of the methods
    below is the same text. *)
Variable parse : str -> str -> option MCQQuestion * list Diag.

(** Lines 19-30. *)
Definition extractTextFromImage (imagePath : str) : result str :=
  match recognize env imagePath with
  | Ok text => Ok text
  | Thrown error => Thrown (lit "OCR failed for " ++ imagePath ++ lit ": " ++ error)
  end.

(** Line 287: [mcq && mcq.question && mcq.options.length > 0]. *)
Definition accepted (mcq : option MCQQuestion) : bool :=
  match mcq with
  | Some q => (negb (isEmpty (question q)) && (0 <? length (options q)))%bool
  | None => false
  end.

(** Lines 278-298: one turn of the loop; what it pushes and what it logs. *)
Definition processFile (directoryPath file : str) : list MCQQuestion * list Console :=
  let filePath := join env directoryPath file in
  match extractTextFromImage filePath with
  | Ok text =>
      let mcq := fst (parse text file) in
      let said := [LogExtracting file; LogPreview (substring 0 100 text)]
                    ++ map LogParser (snd (parse text file)) in
      match mcq with
      | Some q =>
          if accepted mcq then
            ([q], said ++ [LogExtracted (questionId q) (length (options q));
                           LogOptionsFound (joinWith (lit ", ") (map id (options q)))])
          else ([], said ++ [LogFailed file; LogSample (substring 0 200 text)])
      | None => ([], said ++ [LogFailed file; LogSample (substring 0 200 text)])
      end
  | Thrown error => ([], [LogExtracting file; ErrProcessing file error])
  end.

(** Lines 275-300: the loop over the PNG files. *)
Definition processFiles (directoryPath : str) (pngFiles : list str)
  : list MCQQuestion * list Console :=
  fold_left
    (fun state file =>
       (fst state ++ fst (processFile directoryPath file),
        snd state ++ snd (processFile directoryPath file)))
    pngFiles ([], []).

(** Line 267. *)
Definition isPng (file : str) : bool :=
  str_eqb (lowerCase env (extname env file)) (lit ".png").

(** Lines 265-301.  A listing that cannot be read throws out of the method. *)
Definition processDirectory (directoryPath : str)
  : result (list MCQQuestion) * list Console :=
  match readdirSync env directoryPath with
  | Thrown error => (Thrown error, [])
  | Ok files =>
      let pngFiles := filter isPng files in
      match pngFiles with
      | [] => (Ok [], [LogNoPngFiles])
      | _ :: _ =>
          let done := processFiles directoryPath pngFiles in
          (Ok (fst done), LogProcessing (length pngFiles) :: snd done)
      end
  end.

(** Lines 316-318: the lines of the options of one question. *)
Definition appendOption (output : str) (option : MCQOption) : str :=
  output ++ id option ++ lit ") " ++ text option ++ nl ++ nl.

(** Lines 309-321: the block of one question. *)
Definition appendQuestion (output : str) (entry : nat * MCQQuestion) : str :=
  let index := fst entry in
  let q := snd entry in
  let output := output ++ lit "QUESTION " ++ showNat (index + 1) ++ nl in
  let output := output ++ lit "ID: " ++ questionId q ++ nl in
  let output := output ++ lit "Source: " ++ filename q ++ nl in
  let output := output ++ rule40 ++ nl in
  let output := output ++ lit "Q: " ++ question q ++ nl ++ nl in
  let output := fold_left appendOption (options q) output in
  output ++ rule80 ++ nl ++ nl.

(** [a.forEach((x, index) => ...)] and [a.map((x, index) => ...)]: the
    elements with their indexes. *)
Definition indexed (A : Type) (l : list A) : list (nat * A) :=
  combine (seq 0 (length l)) l.

(** Lines 303-338; [now] is [new Date().toISOString()]. *)
Definition formatQuestionsForOutput (now : str) (questions : list MCQQuestion) : str :=
  let output := lit "Multiple Choice Questions Extracted from PNG Images (OCR)" ++ nl in
  let output := output ++ lit "Generated on: " ++ now ++ nl in
  let output := output ++ lit "Total Questions: " ++ showNat (length questions) ++ nl in
  let output := output ++ rule80 ++ nl ++ nl in
  let output := fold_left appendQuestion (indexed questions) output in
  let output := output ++ lit "SUMMARY" ++ nl in
  let output := output ++ rule80 ++ nl in
  let output := output ++ lit "Questions processed: " ++ showNat (length questions) ++ nl in
  let output := output ++ lit "Files processed: "
                  ++ joinWith (lit ", ") (map filename questions) ++ nl ++ nl in
  let output := output
                  ++ lit "This text file contains all extracted multiple choice questions using OCR."
                  ++ nl in
  let output := output
                  ++ lit "Upload this file to an AI chatbot for analysis and processing." ++ nl in
  let output := output ++ nl ++ lit "TECHNICAL NOTES:" ++ nl in
  let output := output ++ lit "- Extracted using Tesseract OCR v5.x" ++ nl in
  let output := output
                  ++ lit "- Text parsing includes error correction for common OCR artifacts"
                  ++ nl in
  let output := output
                  ++ lit "- Questions with insufficient text or options are filtered out" ++ nl in
  output.

(** Lines 349-362: the entry of one question. *)
Definition questionEntry (entry : nat * MCQQuestion) : json :=
  let index := fst entry in
  let q := snd entry in
  JObject
    [ (lit "questionNumber", JNumber (index + 1));
      (lit "questionId", JString (questionId q));
      (lit "sourceFile", JString (filename q));
      (lit "questionText", JString (question q));
      (lit "options",
       JArray (map (fun opt => JObject [(lit "id", JString (id opt));
                                        (lit "text", JString (text opt))])
                   (options q)));
      (lit "metadata",
       JObject [ (lit "hasRawText", JBool (truthy (rawText q)));
                 (lit "optionCount", JNumber (length (options q))) ]) ].

(** Lines 342-368: the document. *)
Definition outputDocument (now : str) (questions : list MCQQuestion) : json :=
  JObject
    [ (lit "metadata",
       JObject [ (lit "generatedOn", JString now);
                 (lit "totalQuestions", JNumber (length questions));
                 (lit "extractionMethod", JString (lit "OCR (Tesseract v5.x)"));
                 (lit "filesProcessed", JArray (map (fun q => JString (filename q)) questions)) ]);
      (lit "questions", JArray (map questionEntry (indexed questions)));
      (lit "technicalNotes",
       JArray [ JString (lit "Extracted using Tesseract OCR v5.x");
                JString (lit "Text parsing includes error correction for common OCR artifacts");
                JString (lit "Questions with insufficient text or options are filtered out") ]) ].

(** Lines 341-371. *)
Definition formatQuestionsAsJSON (now : str) (questions : list MCQQuestion) : str :=
  stringify env (outputDocument now questions).

(** /\.txt$/ *)
Definition txtSuffix : regex := seqs [Chr (isChar "."); word (lit "txt"); Eol].

(** Lines 405-412: the block of one file in the raw OCR report. *)
Definition appendRawText (output : str) (entry : nat * MCQQuestion) : str :=
  let index := fst entry in
  let q := snd entry in
  let output := output ++ lit "FILE " ++ showNat (index + 1) ++ lit ": " ++ filename q ++ nl in
  let output := output ++ rule40 ++ nl in
  let output := output ++ orDefault (lit "No raw text available") (rawText q) ++ nl ++ nl in
  output ++ rule80 ++ nl ++ nl.

(** Lines 400-412. *)
Definition rawOcrOutput (now : str) (questions : list MCQQuestion) : str :=
  let output := lit "Raw OCR Text Output" ++ nl in
  let output := output ++ lit "Generated on: " ++ now ++ nl in
  let output := output ++ lit "Total Files Processed: " ++ showNat (length questions) ++ nl in
  let output := output ++ rule80 ++ nl ++ nl in
  fold_left appendRawText (indexed questions) output.

(** What a run of [main] leaves behind: the exit status when [process.exit]
    is called, the files written in order, and the console. *)
Record Outcome : Type := {
  exitStatus : option nat;
  written : list (str * str);
  console : list Console
}.

(** Lines 373-430.  [argv] is [process.argv.slice(2)]; [now1], [now2] and
    [now3] are the clock readings of the three reports, in order.  An
    exception of a write is caught by the [catch] of line 426 like any
    other. *)
Definition main (now1 now2 now3 : str) (argv : list str) : Outcome :=
  let targetDirectory := orDefault (lit "./docs") (nth_error argv 0) in
  let outputFile := orDefault (lit "./extracted-questions-ocr.txt") (nth_error argv 1) in
  if negb (existsSync env targetDirectory) then
    {| exitStatus := Some 1; written := []; console := [ErrNoDirectory targetDirectory] |}
  else
    match processDirectory targetDirectory with
    | (Thrown error, said) =>
        {| exitStatus := Some 1; written := [];
           console := LogStart targetDirectory :: said ++ [ErrMain error] |}
    | (Ok questions, said) =>
        if 0 <? length questions then
          let formattedOutput := formatQuestionsForOutput now1 questions in
          match writeFileSync env outputFile formattedOutput with
          | Thrown error =>
              {| exitStatus := Some 1; written := [];
                 console := LogStart targetDirectory :: said ++ [ErrMain error] |}
          | Ok _ =>
              let jsonOutput := formatQuestionsAsJSON now2 questions in
              let jsonFile := replaceFirst txtSuffix (lit ".json") outputFile in
              match writeFileSync env jsonFile jsonOutput with
              | Thrown error =>
                  {| exitStatus := Some 1;
                     written := [(outputFile, formattedOutput)];
                     console := LogStart targetDirectory :: said ++ [ErrMain error] |}
              | Ok _ =>
                  let orgFile := replaceFirst txtSuffix (lit ".org.txt") outputFile in
                  let rawOutput := rawOcrOutput now3 questions in
                  match writeFileSync env orgFile rawOutput with
                  | Thrown error =>
                      {| exitStatus := Some 1;
                         written := [(outputFile, formattedOutput); (jsonFile, jsonOutput)];
                         console := LogStart targetDirectory :: said ++ [ErrMain error] |}
                  | Ok _ =>
                      {| exitStatus := None;
                         written := [(outputFile, formattedOutput); (jsonFile, jsonOutput);
                                     (orgFile, rawOutput)];
                         console := LogStart targetDirectory :: said
                                      ++ [LogSaved (length questions)
                                                   [outputFile; jsonFile; orgFile]] |}
                  end
              end
          end
        else
          {| exitStatus := None; written := [];
             console := LogStart targetDirectory :: said ++ [LogNoQuestions] |}
    end.

End Extractor.

(** [main] of the second extractor file (its lines 280-319): the same
    method calls, without the raw OCR report. *)
Module VariantProgram.

Definition main (env : Env) (parse : str -> str -> option MCQQuestion * list Diag)
           (now1 now2 : str) (argv : list str) : Outcome :=
  let targetDirectory := orDefault (lit "./docs") (nth_error argv 0) in
  let outputFile := orDefault (lit "./extracted-questions-ocr.txt") (nth_error argv 1) in
  if negb (existsSync env targetDirectory) then
    {| exitStatus := Some 1; written := []; console := [ErrNoDirectory targetDirectory] |}
  else
    match processDirectory env parse targetDirectory with
    | (Thrown error, said) =>
        {| exitStatus := Some 1; written := [];
           console := LogStart targetDirectory :: said ++ [ErrMain error] |}
    | (Ok questions, said) =>
        if 0 <? length questions then
          let formattedOutput := formatQuestionsForOutput now1 questions in
          match writeFileSync env outputFile formattedOutput with
          | Thrown error =>
              {| exitStatus := Some 1; written := [];
                 console := LogStart targetDirectory :: said ++ [ErrMain error] |}
          | Ok _ =>
              let jsonOutput := formatQuestionsAsJSON env now2 questions in
              let jsonFile := replaceFirst txtSuffix (lit ".json") outputFile in
              match writeFileSync env jsonFile jsonOutput with
              | Thrown error =>
                  {| exitStatus := Some 1;
                     written := [(outputFile, formattedOutput)];
                     console := LogStart targetDirectory :: said ++ [ErrMain error] |}
              | Ok _ =>
                  {| exitStatus := None;
                     written := [(outputFile, formattedOutput); (jsonFile, jsonOutput)];
                     console := LogStart targetDirectory :: said
                                  ++ [LogSaved (length questions) [outputFile; jsonFile]] |}
              end
          end
        else
          {| exitStatus := None; written := [];
             console := LogStart targetDirectory :: said ++ [LogNoQuestions] |}
    end.

End VariantProgram.

(** ** Direct descriptions of what the patterns compute

    These are the functions the proofs relate the matcher to; none of them
    is used by the parser. *)

Fixpoint takeWhile (p : cu -> bool) (s : str) : str :=
  match s with
  | c :: t => if p c then c :: takeWhile p t else []
  | [] => []
  end.

(** [c*] followed by [k]: the longest run first, then shorter ones. *)
Fixpoint greedyChr (p : cu -> bool) (k : pos -> option pos) (l s : str)
         (c : option str) : option pos :=
  match s with
  | a :: t =>
      if p a then
        match greedyChr p k (a :: l) t c with
        | Some z => Some z
        | None => k (Pos l s c)
        end
      else k (Pos l s c)
  | [] => k (Pos l [] c)
  end.

(** [c*?] followed by [k]: the shortest run first. *)
Fixpoint lazyChr (p : cu -> bool) (k : pos -> option pos) (l s : str)
         (c : option str) : option pos :=
  match k (Pos l s c) with
  | Some z => Some z
  | None =>
      match s with
      | a :: t => if p a then lazyChr p k (a :: l) t c else None
      | [] => None
      end
  end.

(** Every maximal run of [p] replaced by [rep]; the replacement is written
    when the run ends. *)
Fixpoint collapse (p : cu -> bool) (rep s : str) : str :=
  match s with
  | [] => []
  | c :: t =>
      if p c then
        match t with
        | d :: _ => if p d then collapse p rep t else rep ++ collapse p rep t
        | [] => rep
        end
      else c :: collapse p rep t
  end.

(** Every code unit of [p] replaced by [rep]. *)
Definition substitute (p : cu -> bool) (rep s : str) : str :=
  flat_map (fun c => if p c then rep else [c]) s.

(** The prefix that ends at the last code unit of [p]. *)
Fixpoint throughLast (p : cu -> bool) (s : str) : option str :=
  match s with
  | [] => None
  | a :: t =>
      match throughLast p t with
      | Some u => Some (a :: u)
      | None => if p a then Some [a] else None
      end
  end.

(** The prefix that ends at the first code unit of [p]: the shortest prefix
    ending with it. *)
Fixpoint throughFirst (p : cu -> bool) (s : str) : option str :=
  match s with
  | [] => None
  | a :: t =>
      if p a then Some [a]
      else match throughFirst p t with
           | Some u => Some (a :: u)
           | None => None
           end
  end.

(** The file name without a trailing ".png": the reading of the fallback
    id in the specification, to be compared with [replaceStr]. *)
Definition endsWith (p s : str) : bool := startsWith (rev p) (rev s).

Definition withoutPngSuffix (file : str) : str :=
  if endsWith (lit ".png") file then firstn (length file - 4) file else file.

(** A cleaned text: the only white space is the single space, never twice
    in a row and never at either end, and there is no vertical bar. *)
Fixpoint singleSpaced (afterSpace : bool) (s : str) : bool :=
  match s with
  | [] => true
  | c :: t =>
      if isSpace c then (N.eqb c 32 && negb afterSpace && singleSpaced true t)%bool
      else singleSpaced false t
  end.

Definition endsClean (s : str) : bool :=
  match rev s with
  | c :: _ => negb (isSpace c)
  | [] => true
  end.

Definition isClean (s : str) : bool :=
  (singleSpaced true s && forallb (notIn (isChar "|")) s && endsClean s)%bool.

(** A plain option text: more than five code units, a letter first, no
    parenthesis, full stop or vertical bar, single spaces only and none at
    the end. *)
Definition plainChar (c : cu) : bool := negb (oneOf "().|" c).

Definition plain (t : str) : bool :=
  ((5 <? length t)
   && match t with a :: _ => isLetter a | [] => false end
   && forallb plainChar t && singleSpaced true t && endsClean t)%bool.

(** The text "(A) t1 (B) t2 (C) t3 (D) t4". *)
Definition fourOptions (t1 t2 t3 t4 : str) : str :=
  lit "(A)" ++ (ch " " :: t1) ++ lit " (B)" ++ (ch " " :: t2)
    ++ lit " (C)" ++ (ch " " :: t3) ++ lit " (D)" ++ (ch " " :: t4).

(** The three label shapes of [patterns] for a one-letter id, written out. *)
Definition parenShape (x : cu) : regex :=
  Seq (Chr (isChar "(")) (Seq (Chr (ci (N.eqb x))) (Seq (Chr (isChar ")")) (Seq spaces
    (Seq (Grp (Star false (Chr (notIn (isChar "("))))) nextParenLabel)))).

Definition spaceShape (x : cu) : regex :=
  Seq (Chr isSpace) (Seq (Chr (ci (N.eqb x))) (Seq closer (Seq spaces
    (Seq (Grp (Star false (Chr (notIn (ci isAtoD))))) nextLetterLabel)))).

Definition bareShape (x : cu) : regex :=
  Seq (Chr (ci (N.eqb x))) (Seq closer (Seq spaces
    (Seq (Grp (Star false (Chr (notIn isNewline)))) nextLetterLabel))).

(** What may follow a plain option text: nothing, or something that does
    not start with a closing mark; and the parenthesized label that follows
    it in [fourOptions]. *)
Definition restOK (rest : str) : Prop :=
  match rest with c0 :: _ => oneOf ")." c0 = false | [] => True end.

Definition restLabel (rest : str) : Prop :=
  rest = [] \/ exists y rest', rest = (32 :: 40 :: y :: 41 :: rest')%N /\ ci isAtoD y = true.

(** Ascending order of option ids. *)
Definition idLe (a b : MCQOption) : Prop := localeCompareLe (id a) (id b) = true.

(** [x] occurs in [s] as a run of consecutive code units. *)
Definition infix (x s : str) : Prop := exists u v, s = u ++ x ++ v.

(** [y] is reached from [x] by passing over code units of the text ahead. *)
Definition reaches (x y : pos) : Prop :=
  exists u, ahead x = u ++ ahead y /\ passed y = rev u ++ passed x.

(** The text a position is in, and its capture as a piece of that text. *)
Definition whole (x : pos) : str := rev (passed x) ++ ahead x.

Definition capInText (x : pos) : Prop :=
  forall c, cap x = Some c -> infix c (whole x).

(** Two runs of the matcher that end alike: both fail, or both succeed at
    positions related by [R]. *)
Definition agree (R : pos -> pos -> Prop) (a b : option pos) : Prop :=
  match a, b with
  | Some y, Some z => R y z
  | None, None => True
  | _, _ => False
  end.

(** What \.?\s* passes over. *)
Definition afterToken (rest : str) : str :=
  dropWhile isSpace
    (match rest with
     | c :: t => if isChar "." c then t else rest
     | [] => []
     end).

(** An id token of a text, as /(?:^|\s)([QE]\d{2,4})\b/i delimits it: at
    the start of the text or after a white-space character, a letter Q or E
    in either case, two to four digits, and then the end of the text or a
    character that is not a word character. *)
Definition idTokenAt (text0 before : str) (q : cu) (ds rest : str) : Prop :=
  text0 = before ++ (q :: ds) ++ rest
  /\ (before = [] \/ exists b s, before = b ++ [s] /\ isSpace s = true)
  /\ ci (oneOf "QE") q = true
  /\ forallb isDigit ds = true
  /\ 2 <= length ds <= 4
  /\ match rest with c :: _ => isWord c = false | [] => True end.

(** ** Reading the console and the JSON document

    Used to state properties of the batch and of the reports; none of them
    is part of the program. *)

Definition isExtracted (e : Console) : bool :=
  match e with LogExtracted _ _ => true | _ => false end.
Definition isFailed (e : Console) : bool :=
  match e with LogFailed _ => true | _ => false end.
Definition isError (e : Console) : bool :=
  match e with ErrProcessing _ _ => true | _ => false end.
Definition count (p : Console -> bool) (said : list Console) : nat :=
  length (filter p said).

(** [o[k]] on a document. *)
Fixpoint lookup (k : str) (fields : list (str * json)) : option json :=
  match fields with
  | [] => None
  | (k', v) :: rest => if str_eqb k k' then Some v else lookup k rest
  end.

Definition field (k : str) (j : json) : option json :=
  match j with
  | JObject fields => lookup k fields
  | _ => None
  end.

Definition field2 (k1 k2 : str) (j : json) : option json :=
  match field k1 j with
  | Some j' => field k2 j'
  | None => None
  end.

(** An environment for the examples: the directory "docs" lists two PNG
    files and a text file; the OCR reads a labeled question from the first
    PNG file and fails on the second. *)
Definition sampleText : str :=
  lit "Q12 Which service stores objects? (A) Amazon S3 bucket (B) Amazon EC2 host".

Definition sampleEnv : Env :=
  {| lowerCase := asciiLower;
     extname := fun file => skipn (length file - 4) file;
     join := fun directory file => directory ++ lit "/" ++ file;
     recognize := fun imagePath =>
       if str_eqb imagePath (lit "docs/q1.png") then Ok sampleText
       else Thrown (lit "cannot read image");
     readdirSync := fun directory =>
       if str_eqb directory (lit "docs")
       then Ok [lit "q1.png"; lit "notes.txt"; lit "q2.PNG"]
       else Thrown (lit "ENOENT");
     existsSync := fun directory => str_eqb directory (lit "docs");
     writeFileSync := fun _ _ => Ok tt;
     stringify := fun _ => lit "{}" |}.

Definition sampleQuestion : MCQQuestion :=
  {| questionId := lit "Q12";
     filename := lit "q1.png";
     question := lit "Which service stores objects?";
     options := [ {| id := lit "A"; text := lit "Amazon S3 bucket" |};
                  {| id := lit "B"; text := lit "Amazon EC2 host" |} ];
     rawText := Some sampleText |}.

(** What a file holds after a list of writes: [fs.writeFileSync] replaces a
    file that exists, so the last write to the path decides. *)
Fixpoint contentAfter (writes : list (str * str)) (file : str) : option str :=
  match writes with
  | [] => None
  | (path, content) :: rest =>
      match contentAfter rest file with
      | Some later => Some later
      | None => if str_eqb path file then Some content else None
      end
  end.



(** ** The matcher on simple patterns *)

Unset Implicit Arguments.

Lemma starLoop_greedyChr p k s :
  forall n l c, length s < n ->
    starLoop true (m (Chr p)) k n (Pos l s c) = greedyChr p k l s c.
Proof.
  induction s as [|a t IH]; intros n l c Hn; destruct n as [|n]; try (simpl in Hn; lia).
  - reflexivity.
  - simpl. destruct (p a); [|reflexivity].
    assert (E : (length t <? S (length t)) = true) by (apply Nat.ltb_lt; lia).
    rewrite E, IH by (simpl in Hn; lia). reflexivity.
Qed.

Lemma starLoop_lazyChr p k s :
  forall n l c, length s < n ->
    starLoop false (m (Chr p)) k n (Pos l s c) = lazyChr p k l s c.
Proof.
  induction s as [|a t IH]; intros n l c Hn; destruct n as [|n]; try (simpl in Hn; lia).
  - reflexivity.
  - simpl. destruct (k (Pos l (a :: t) c)); [reflexivity|].
    destruct (p a); [|reflexivity].
    assert (E : (length t <? S (length t)) = true) by (apply Nat.ltb_lt; lia).
    rewrite E, IH by (simpl in Hn; lia). reflexivity.
Qed.

Lemma m_Star g r k x :
  m (Star g r) k x = starLoop g (m r) k (S (length (ahead x))) x.
Proof. reflexivity. Qed.

Lemma m_star_greedy p k l s c :
  m (Star true (Chr p)) k (Pos l s c) = greedyChr p k l s c.
Proof. rewrite m_Star. apply starLoop_greedyChr. simpl. lia. Qed.

Lemma m_star_lazy p k l s c :
  m (Star false (Chr p)) k (Pos l s c) = lazyChr p k l s c.
Proof. rewrite m_Star. apply starLoop_lazyChr. simpl. lia. Qed.

Lemma greedyChr_Some p s :
  forall l c,
    greedyChr p Some l s c = Some (Pos (rev (takeWhile p s) ++ l) (dropWhile p s) c).
Proof.
  induction s as [|a t IH]; intros l c; simpl; [reflexivity|].
  destruct (p a); [|reflexivity].
  rewrite IH. simpl. now rewrite <- app_assoc.
Qed.

Lemma dropWhile_length p s : length (dropWhile p s) <= length s.
Proof.
  induction s as [|a t IH]; simpl; [lia|]. destruct (p a); simpl; lia.
Qed.

Lemma takeWhile_dropWhile p s : takeWhile p s ++ dropWhile p s = s.
Proof.
  induction s as [|a t IH]; simpl; [reflexivity|].
  destruct (p a); simpl; [now rewrite IH | reflexivity].
Qed.

(** Where a search lands: on a suffix of the text, and the pattern matches
    there. *)
Lemma search_found r s :
  forall l f, search r l s = Some f ->
    exists u v, s = u ++ v /\ from f = Pos (rev u ++ l) v None
                /\ m r Some (from f) = Some (upto f).
Proof.
  induction s as [|a t IH]; intros l f; simpl.
  - destruct (m r Some (Pos l [] None)) eqn:E; [|discriminate].
    intros [= <-]. exists [], []. simpl. auto.
  - destruct (m r Some (Pos l (a :: t) None)) eqn:E.
    + intros [= <-]. exists [], (a :: t). simpl. auto.
    + intros H. destruct (IH _ _ H) as (u & v & -> & Hf & Hm).
      exists (a :: u), v. simpl. rewrite <- app_assoc. auto.
Qed.

Lemma search_index r s l f : search r l s = Some f -> length l <= index f.
Proof.
  intros H. destruct (search_found _ _ _ _ H) as (u & v & _ & Hf & _).
  unfold index. rewrite Hf. simpl. rewrite length_app. lia.
Qed.

Arguments m : simpl never.

Lemma m_Seq r1 r2 k x : m (Seq r1 r2) k x = m r1 (m r2 k) x.
Proof. reflexivity. Qed.

Lemma m_Chr_cons p k l a t c :
  m (Chr p) k (Pos l (a :: t) c) = if p a then k (Pos (a :: l) t c) else None.
Proof. reflexivity. Qed.

Lemma m_Chr_nil p k l c : m (Chr p) k (Pos l [] c) = None.
Proof. reflexivity. Qed.

Lemma m_Alt r1 r2 k x :
  m (Alt r1 r2) k x = match m r1 k x with Some y => Some y | None => m r2 k x end.
Proof. reflexivity. Qed.

Lemma m_Grp r k x :
  m (Grp r) k x = m r (fun y => k (Pos (passed y) (ahead y) (Some (consumed x y)))) x.
Proof. reflexivity. Qed.

Lemma m_Ahead r k x :
  m (Ahead r) k x =
  match m r Some x with
  | Some y => k (Pos (passed x) (ahead x) (cap y))
  | None => None
  end.
Proof. reflexivity. Qed.

Lemma m_Bol_start k s c : m Bol k (Pos [] s c) = k (Pos [] s c).
Proof. reflexivity. Qed.

Lemma m_Eol_end k l c : m Eol k (Pos l [] c) = k (Pos l [] c).
Proof. reflexivity. Qed.

Lemma m_Eol_cons k l a t c : m Eol k (Pos l (a :: t) c) = None.
Proof. reflexivity. Qed.

Lemma search_hit r l s y :
  m r Some (Pos l s None) = Some y -> search r l s = Some (Found (Pos l s None) y).
Proof. intros H. destruct s; simpl; now rewrite H. Qed.

Lemma search_miss r l a t :
  m r Some (Pos l (a :: t) None) = None -> search r l (a :: t) = search r (a :: l) t.
Proof. intros H. simpl. now rewrite H. Qed.

Lemma search_miss_nil r l : m r Some (Pos l [] None) = None -> search r l [] = None.
Proof. intros H. simpl. now rewrite H. Qed.

(** A global replacement copies a code unit at which the pattern fails. *)
Lemma replaceAllFrom_skip r rep fuel l a t :
  m r Some (Pos l (a :: t) None) = None ->
  replaceAllFrom (S fuel) r rep l (a :: t) = a :: replaceAllFrom (S fuel) r rep (a :: l) t.
Proof.
  intros H. cbn [replaceAllFrom]. rewrite (search_miss _ _ _ _ H).
  destruct (search r (a :: l) t) as [f|] eqn:E; [|reflexivity].
  pose proof (search_index _ _ _ _ E) as Hi. simpl in Hi.
  replace (index f - length l) with (S (index f - S (length l))) by lia.
  reflexivity.
Qed.

Lemma consumed_cons l a t l' t' c c' :
  length t' <= length t ->
  exists w, consumed (Pos l (a :: t) c) (Pos l' t' c') = a :: w.
Proof.
  intros H. unfold consumed. cbn [ahead length].
  rewrite Nat.sub_succ_l by exact H. cbn [firstn]. eauto.
Qed.

Lemma m_plus_chr p l s :
  m (Plus true (Chr p)) Some (Pos l s None) =
  match s with
  | a :: t =>
      if p a then Some (Pos (rev (takeWhile p t) ++ a :: l) (dropWhile p t) None)
      else None
  | [] => None
  end.
Proof.
  unfold Plus. rewrite m_Seq. destruct s as [|a t]; [reflexivity|].
  rewrite m_Chr_cons. destruct (p a); [|reflexivity].
  now rewrite m_star_greedy, greedyChr_Some.
Qed.

Lemma collapse_cons2 p rep a b t :
  collapse p rep (a :: b :: t) =
  if p a then
    if p b then collapse p rep (b :: t) else rep ++ collapse p rep (b :: t)
  else a :: collapse p rep (b :: t).
Proof. reflexivity. Qed.

Lemma collapse_run p rep t :
  forall a, p a = true -> collapse p rep (a :: t) = rep ++ collapse p rep (dropWhile p t).
Proof.
  induction t as [|b t IH]; intros a Ha.
  - simpl. rewrite Ha. now rewrite app_nil_r.
  - rewrite collapse_cons2, Ha. cbn [dropWhile]. destruct (p b) eqn:Hb.
    + now apply IH.
    + reflexivity.
Qed.

Lemma collapse_keep p rep a t :
  p a = false -> collapse p rep (a :: t) = a :: collapse p rep t.
Proof. intros H. simpl. now rewrite H. Qed.

Lemma replaceAllFrom_plus p rep n :
  forall s, length s <= n -> forall fuel l, length s < fuel ->
    replaceAllFrom fuel (Plus true (Chr p)) rep l s = collapse p rep s.
Proof.
  induction n as [|n IH]; intros s Hs fuel l Hf; destruct fuel as [|fuel]; try lia.
  - destruct s; [|simpl in Hs; lia].
    cbn [replaceAllFrom]. rewrite search_miss_nil; [reflexivity|apply m_plus_chr].
  - destruct s as [|a t].
    + cbn [replaceAllFrom]. rewrite search_miss_nil; [reflexivity|apply m_plus_chr].
    + simpl in Hs, Hf. destruct (p a) eqn:Ha.
      * cbn [replaceAllFrom].
        rewrite (search_hit _ _ _ (Pos (rev (takeWhile p t) ++ a :: l) (dropWhile p t) None))
          by (rewrite m_plus_chr, Ha; reflexivity).
        pose proof (dropWhile_length p t) as Hd.
        unfold matched, index. cbn [from upto passed ahead].
        destruct (consumed_cons l a t (rev (takeWhile p t) ++ a :: l) (dropWhile p t)
                    None None Hd) as [w ->].
        rewrite Nat.sub_diag. cbn [firstn app].
        rewrite IH by lia. now rewrite collapse_run.
      * rewrite replaceAllFrom_skip by (rewrite m_plus_chr, Ha; reflexivity).
        rewrite IH by (simpl; lia). now rewrite collapse_keep.
Qed.

Lemma replaceAll_plus p rep s :
  replaceAll (Plus true (Chr p)) rep s = collapse p rep s.
Proof. unfold replaceAll. apply replaceAllFrom_plus with (n := length s); lia. Qed.

Lemma replaceAllFrom_chr p rep s :
  forall fuel l, length s < fuel ->
    replaceAllFrom fuel (Chr p) rep l s = substitute p rep s.
Proof.
  induction s as [|a t IH]; intros fuel l Hf; destruct fuel as [|fuel]; simpl in Hf; try lia.
  - reflexivity.
  - destruct (p a) eqn:Ha.
    + cbn [replaceAllFrom].
      rewrite (search_hit _ _ _ (Pos (a :: l) t None)) by (rewrite m_Chr_cons, Ha; reflexivity).
      unfold matched, index. cbn [from upto passed ahead].
      destruct (consumed_cons l a t (a :: l) t None None (le_n _)) as [w ->].
      rewrite Nat.sub_diag. cbn [firstn app].
      rewrite IH by lia. unfold substitute. simpl. now rewrite Ha.
    + rewrite replaceAllFrom_skip by (rewrite m_Chr_cons, Ha; reflexivity).
      rewrite IH by (simpl; lia). unfold substitute. simpl. now rewrite Ha.
Qed.

Lemma replaceAll_chr p rep s : replaceAll (Chr p) rep s = substitute p rep s.
Proof. unfold replaceAll. apply replaceAllFrom_chr. lia. Qed.

(** The anchored strip of /^[^a-zA-Z]*/ and its like. *)
Lemma replaceFirst_leading p s :
  replaceFirst (Seq Bol (Star true (Chr p))) [] s = dropWhile p s.
Proof.
  unfold replaceFirst, exec.
  rewrite (search_hit _ _ _ (Pos (rev (takeWhile p s) ++ []) (dropWhile p s) None)).
  - reflexivity.
  - now rewrite m_Seq, m_Bol_start, m_star_greedy, greedyChr_Some.
Qed.

(** ** The clean-up of the OCR text *)

Lemma cleanUp_direct text :
  cleanUp text =
  trim (substitute (isChar "|") (lit "I")
          (collapse isSpace (lit " ") (collapse isNewline (lit " ") text))).
Proof.
  unfold cleanUp, spaces1. now rewrite !replaceAll_plus, replaceAll_chr.
Qed.

Lemma collapse_spaced s :
  singleSpaced false (collapse isSpace (lit " ") s) = true
  /\ (match s with c :: _ => isSpace c = false | [] => True end ->
      singleSpaced true (collapse isSpace (lit " ") s) = true).
Proof.
  induction s as [|a t [IH1 IH2]]; [split; reflexivity|].
  destruct (isSpace a) eqn:Ha.
  - split; [|intros H; congruence].
    destruct t as [|d t']; [simpl; rewrite Ha; reflexivity|].
    rewrite collapse_cons2, Ha. destruct (isSpace d) eqn:Hd; [exact IH1|].
    change (lit " " ++ collapse isSpace (lit " ") (d :: t'))
      with (32%N :: collapse isSpace (lit " ") (d :: t')).
    cbn [singleSpaced]. change (isSpace 32%N) with true. cbn. apply IH2. reflexivity.
  - rewrite collapse_keep by exact Ha. cbn [singleSpaced]. rewrite Ha. auto.
Qed.

Lemma substitute_bar_spaced s :
  forall b, singleSpaced b s = true ->
    singleSpaced b (substitute (isChar "|") (lit "I") s) = true.
Proof.
  induction s as [|a t IH]; intros b H; [reflexivity|].
  unfold substitute. cbn [flat_map]. fold (substitute (isChar "|") (lit "I") t).
  destruct (isChar "|" a) eqn:Ha.
  - apply N.eqb_eq in Ha. subst a. cbn in H. cbn. now apply IH.
  - cbn [app singleSpaced] in *. destruct (isSpace a).
    + apply andb_true_iff in H as [H1 H2]. rewrite H1. cbn. now apply IH.
    + now apply IH.
Qed.

Lemma substitute_bar_free s :
  forallb (notIn (isChar "|")) (substitute (isChar "|") (lit "I") s) = true.
Proof.
  induction s as [|a t IH]; [reflexivity|].
  unfold substitute. cbn [flat_map]. fold (substitute (isChar "|") (lit "I") t).
  destruct (isChar "|" a) eqn:Ha.
  - cbn. exact IH.
  - cbn [app forallb]. unfold notIn at 1. now rewrite Ha.
Qed.

Lemma dropWhile_spaced s :
  forall b b', singleSpaced b s = true -> singleSpaced b' (dropWhile isSpace s) = true.
Proof.
  induction s as [|a t IH]; intros b b' H; [reflexivity|].
  cbn [dropWhile]. cbn [singleSpaced] in H. destruct (isSpace a) eqn:Ha.
  - apply andb_true_iff in H as [_ H]. now apply IH with (b := true).
  - cbn [singleSpaced]. now rewrite Ha.
Qed.

Lemma singleSpaced_prefix s w :
  forall b, singleSpaced b (s ++ w) = true -> singleSpaced b s = true.
Proof.
  induction s as [|a t IH]; intros b H; [reflexivity|].
  cbn [app singleSpaced] in *. destruct (isSpace a).
  - apply andb_true_iff in H as [H1 H2]. rewrite H1. now apply IH.
  - now apply IH.
Qed.

Lemma trimEnd_prefix s : s = trimEnd s ++ rev (takeWhile isSpace (rev s)).
Proof.
  unfold trimEnd. rewrite <- rev_app_distr, takeWhile_dropWhile. now rewrite rev_involutive.
Qed.

Lemma dropWhile_head p s c t : dropWhile p s = c :: t -> p c = false.
Proof.
  induction s as [|a s IH]; simpl; [discriminate|].
  destruct (p a) eqn:Ha; [exact IH|]. now intros [= <- _].
Qed.

Lemma trimEnd_endsClean s : endsClean (trimEnd s) = true.
Proof.
  unfold endsClean, trimEnd. rewrite rev_involutive.
  destruct (dropWhile isSpace (rev s)) eqn:E; [reflexivity|].
  now rewrite (dropWhile_head _ _ _ _ E).
Qed.

Lemma cleanUp_isClean text : isClean (cleanUp text) = true.
Proof.
  rewrite cleanUp_direct.
  set (u := substitute _ _ _).
  assert (Hs : singleSpaced false u = true)
    by (apply substitute_bar_spaced, collapse_spaced).
  assert (Hb : forallb (notIn (isChar "|")) u = true) by apply substitute_bar_free.
  unfold isClean, trim, trimStart.
  pose proof (dropWhile_spaced u false true Hs) as H1.
  assert (H2 : forallb (notIn (isChar "|")) (dropWhile isSpace u) = true).
  { rewrite <- (takeWhile_dropWhile isSpace u), forallb_app in Hb.
    now apply andb_true_iff in Hb. }
  set (v := dropWhile isSpace u) in *.
  rewrite (trimEnd_prefix v) in H1, H2.
  apply singleSpaced_prefix in H1. rewrite forallb_app in H2.
  apply andb_true_iff in H2 as [H2 _].
  now rewrite H1, H2, trimEnd_endsClean.
Qed.

Lemma collapse_none p rep s :
  forallb (notIn p) s = true -> collapse p rep s = s.
Proof.
  induction s as [|a t IH]; [reflexivity|]. cbn [forallb]. unfold notIn at 1.
  intros H. apply andb_true_iff in H as [Ha H]. apply negb_true_iff in Ha.
  now rewrite collapse_keep, IH.
Qed.

Lemma singleSpaced_no_newline s :
  forall b, singleSpaced b s = true -> forallb (notIn isNewline) s = true.
Proof.
  induction s as [|a t IH]; intros b H; [reflexivity|].
  cbn [singleSpaced forallb] in *. destruct (isSpace a) eqn:Ha.
  - apply andb_true_iff in H as [H1 H2]. apply andb_true_iff in H1 as [H1 _].
    apply N.eqb_eq in H1. subst a. rewrite (IH _ H2). reflexivity.
  - rewrite (IH _ H). unfold notIn, isNewline.
    destruct (N.eqb_spec 10 a) as [<-|]; [discriminate Ha|reflexivity].
Qed.

Lemma collapse_spaced_id s :
  forall b, singleSpaced b s = true -> collapse isSpace (lit " ") s = s.
Proof.
  induction s as [|a t IH]; intros b H; [reflexivity|].
  cbn [singleSpaced] in H. destruct (isSpace a) eqn:Ha.
  - apply andb_true_iff in H as [H1 H2]. apply andb_true_iff in H1 as [H1 _].
    apply N.eqb_eq in H1. subst a. destruct t as [|d t']; [reflexivity|].
    rewrite collapse_cons2, Ha. pose proof H2 as H3. cbn [singleSpaced] in H3.
    destruct (isSpace d); [rewrite andb_false_r in H3; discriminate|].
    now rewrite (IH _ H2).
  - now rewrite collapse_keep, (IH _ H).
Qed.

Lemma substitute_none p rep s :
  forallb (notIn p) s = true -> substitute p rep s = s.
Proof.
  induction s as [|a t IH]; [reflexivity|]. cbn [forallb]. unfold notIn at 1.
  intros H. apply andb_true_iff in H as [Ha H]. apply negb_true_iff in Ha.
  unfold substitute in *. cbn [flat_map]. now rewrite Ha, IH.
Qed.

Lemma trim_clean s :
  singleSpaced true s = true -> endsClean s = true -> trim s = s.
Proof.
  intros H1 H2. unfold trim, trimStart, trimEnd.
  assert (E : dropWhile isSpace s = s).
  { destruct s as [|a t]; [reflexivity|]. cbn [singleSpaced] in H1. cbn [dropWhile].
    destruct (isSpace a); [|reflexivity].
    rewrite andb_false_r in H1. discriminate. }
  rewrite E. unfold endsClean in H2.
  destruct (rev s) as [|c r] eqn:Er.
  - simpl. now rewrite <- (rev_involutive s), Er.
  - cbn [dropWhile]. apply negb_true_iff in H2. rewrite H2.
    now rewrite <- Er, rev_involutive.
Qed.

Lemma cleanUp_fixes_clean s : isClean s = true -> cleanUp s = s.
Proof.
  unfold isClean. intros H.
  apply andb_true_iff in H as [H H3]. apply andb_true_iff in H as [H1 H2].
  rewrite cleanUp_direct.
  rewrite (collapse_none _ _ _ (singleSpaced_no_newline _ _ H1)).
  rewrite (collapse_spaced_id _ _ H1), (substitute_none _ _ _ H2).
  now apply trim_clean.
Qed.

(** C5. The text normalizer collapses every newline run and every
    white-space run to one space, replaces every vertical bar by "I" and
    trims both ends; it is idempotent: cleaning an already cleaned text
    gives the same text. *)
Theorem cleanUp_idempotent (s : str) :
  cleanUp s =
    trim (substitute (isChar "|") (lit "I")
            (collapse isSpace (lit " ") (collapse isNewline (lit " ") s)))
  /\ cleanUp (cleanUp s) = cleanUp s.
Proof.
  split; [apply cleanUp_direct|]. apply cleanUp_fixes_clean, cleanUp_isClean.
Qed.

(** ** The question text *)

Lemma In_dropWhile p c s : In c s -> p c = false -> In c (dropWhile p s).
Proof.
  induction s as [|a t IH]; simpl; [tauto|].
  intros [->|H] Hc.
  - rewrite Hc. now left.
  - destruct (p a); [now apply IH | now right].
Qed.

Lemma trim_keeps c s : In c s -> isSpace c = false -> In c (trim s).
Proof.
  intros H Hc. unfold trim, trimEnd, trimStart.
  apply in_rev. rewrite rev_involutive. apply In_dropWhile; [|exact Hc].
  apply -> in_rev. now apply In_dropWhile.
Qed.

Lemma dropWhile_all p s : forallb p s = true -> dropWhile p s = [].
Proof.
  induction s as [|a t IH]; simpl; [reflexivity|].
  destruct (p a); [exact IH | discriminate].
Qed.

Lemma letter_not_space c : isLetter c = true -> isSpace c = false.
Proof.
  intros H. destruct (isSpace c) eqn:E; [exfalso|reflexivity].
  unfold isLetter, isLower, isUpper, isSpace, inRange in *.
  repeat rewrite ?orb_true_iff, ?andb_true_iff, ?N.leb_le, ?N.eqb_eq in H.
  repeat rewrite ?orb_true_iff, ?andb_true_iff, ?N.leb_le, ?N.eqb_eq in E.
  lia.
Qed.

Lemma tidyQuestion_direct t :
  tidyQuestion t = trim (collapse isSpace (lit " ") (dropWhile (notIn isLetter) t)).
Proof.
  unfold tidyQuestion, leadingNonLetters, spaces1.
  now rewrite replaceFirst_leading, replaceAll_plus.
Qed.

(** The tidied question text is empty exactly when the chosen text has no
    letter. *)
Lemma tidyQuestion_nonempty t :
  tidyQuestion t <> [] <-> existsb isLetter t = true.
Proof.
  rewrite tidyQuestion_direct. split.
  - intros H. destruct (existsb isLetter t) eqn:E; [reflexivity|exfalso; apply H].
    rewrite dropWhile_all; [reflexivity|].
    apply forallb_forall. intros c Hc. unfold notIn.
    destruct (isLetter c) eqn:Ec; [|reflexivity].
    assert (existsb isLetter t = true) by (apply existsb_exists; eauto). congruence.
  - intros H. apply existsb_exists in H as (c & Hc & Hl).
    pose proof (In_dropWhile (notIn isLetter) c t Hc) as Hd.
    unfold notIn at 1 in Hd. rewrite Hl in Hd. specialize (Hd eq_refl).
    destruct (dropWhile (notIn isLetter) t) as [|a t'] eqn:E; [destruct Hd|].
    apply dropWhile_head in E. unfold notIn in E. apply negb_false_iff in E.
    pose proof (letter_not_space _ E) as Ha.
    rewrite collapse_keep by exact Ha.
    intros Hn. pose proof (trim_keeps a (a :: collapse isSpace (lit " ") t')
                             (or_introl eq_refl) Ha) as Hin.
    rewrite Hn in Hin. destruct Hin.
Qed.

Lemma throughLast_split p s u :
  throughLast p s = Some u ->
  exists w c v, u = w ++ [c] /\ p c = true /\ s = u ++ v /\ forallb (notIn p) v = true.
Proof.
  revert u. induction s as [|a t IH]; intros u; simpl; [discriminate|].
  destruct (throughLast p t) as [u'|] eqn:E.
  - intros [= <-]. destruct (IH _ eq_refl) as (w & c & v & -> & Hc & Ht & Hv).
    exists (a :: w), c, v. simpl. rewrite Ht at 1. auto.
  - destruct (p a) eqn:Ha; [|discriminate]. intros [= <-].
    exists [], a, t. repeat split; auto.
    clear -E. induction t as [|b t IH]; [reflexivity|]. simpl in *.
    destruct (throughLast p t); [discriminate|].
    destruct (p b) eqn:Hb; [discriminate|]. unfold notIn at 1. rewrite Hb. now apply IH.
Qed.

Lemma throughLast_none p s : throughLast p s = None <-> existsb p s = false.
Proof.
  induction s as [|a t IH]; simpl; [tauto|].
  destruct (throughLast p t); destruct (p a); simpl; intuition congruence.
Qed.

Lemma throughLast_last p u c v :
  p c = true -> forallb (notIn p) v = true -> throughLast p (u ++ c :: v) = Some (u ++ [c]).
Proof.
  intros Hc Hv.
  assert (Hn : throughLast p v = None).
  { apply throughLast_none. clear -Hv. induction v as [|b v IH]; [reflexivity|].
    simpl in *. apply andb_true_iff in Hv as [Hb Hv]. unfold notIn in Hb.
    apply negb_true_iff in Hb. rewrite Hb. now apply IH. }
  induction u as [|a u IH]; simpl.
  - now rewrite Hn, Hc.
  - now rewrite IH.
Qed.

Lemma greedy_any_then p g s :
  forall l c,
    greedyChr anyChar (m (Chr p) (fun y => Some (g y))) l s c =
    match throughLast p s with
    | Some u => Some (g (Pos (rev u ++ l) (skipn (length u) s) c))
    | None => None
    end.
Proof.
  induction s as [|a t IH]; intros l c; [reflexivity|].
  cbn [greedyChr anyChar throughLast]. rewrite IH.
  destruct (throughLast p t) as [u|].
  - cbn [length skipn rev]. now rewrite <- app_assoc.
  - rewrite m_Chr_cons. destruct (p a); reflexivity.
Qed.

Lemma skipn_prefix (u v : str) : skipn (length u) (u ++ v) = v.
Proof. induction u; simpl; auto. Qed.

Lemma firstn_prefix (u v : str) : firstn (length u) (u ++ v) = u.
Proof. induction u; simpl; [reflexivity|now f_equal]. Qed.

Lemma consumed_prefix l l' u v c c' :
  consumed (Pos l (u ++ v) c) (Pos l' v c') = u.
Proof.
  unfold consumed. cbn [ahead]. rewrite length_app.
  replace (length u + length v - length v) with (length u) by lia.
  apply firstn_prefix.
Qed.

Lemma m_questionMark l s :
  m questionMarkPattern Some (Pos l s None) =
  match throughLast (isChar "?") s with
  | Some u => Some (Pos (rev u ++ l) (skipn (length u) s) (Some u))
  | None => None
  end.
Proof.
  unfold questionMarkPattern. rewrite m_Grp, m_Seq, m_star_greedy.
  rewrite (greedy_any_then (isChar "?")
             (fun y => Pos (passed y) (ahead y) (Some (consumed (Pos l s None) y)))).
  destruct (throughLast (isChar "?") s) as [u|] eqn:E; [|reflexivity].
  destruct (throughLast_split _ _ _ E) as (w & c & v & _ & _ & Hs & _).
  cbn [passed ahead]. subst s. now rewrite skipn_prefix, consumed_prefix.
Qed.

Lemma exec_questionMark s :
  group1_or [] (exec questionMarkPattern s) =
  match throughLast (isChar "?") s with Some u => u | None => [] end.
Proof.
  unfold exec. destruct (throughLast (isChar "?") s) as [u|] eqn:E.
  - rewrite (search_hit _ _ _ (Pos (rev u ++ []) (skipn (length u) s) (Some u)))
      by (now rewrite m_questionMark, E).
    destruct (throughLast_split _ _ _ E) as (w & c & v & -> & _).
    unfold group1_or, group1. cbn [upto cap]. now destruct w.
  - assert (H : forall l, search questionMarkPattern l s = None); [|now rewrite H].
    induction s as [|a t IH]; intros l.
    + apply search_miss_nil. now rewrite m_questionMark.
    + rewrite search_miss by (now rewrite m_questionMark, E).
      apply IH. simpl in E. destruct (throughLast (isChar "?") t); [discriminate|reflexivity].
Qed.

Lemma question_mark_not_space c : isChar "?" c = true -> isSpace c = false.
Proof. intros H. apply N.eqb_eq in H. now subst c. Qed.

Lemma strategy2_direct after :
  strategy2 after [] =
  match throughLast (isChar "?") after with Some u => trim u | None => [] end.
Proof.
  unfold strategy2. cbn [isEmpty]. rewrite exec_questionMark.
  destruct (throughLast (isChar "?") after) as [u|] eqn:E; [|reflexivity].
  destruct (throughLast_split _ _ _ E) as (w & c & v & -> & _). now destruct w.
Qed.

Lemma trim_through_nonempty p s u :
  (forall c, p c = true -> isSpace c = false) ->
  throughLast p s = Some u -> trim u <> [].
Proof.
  intros Hp E. destruct (throughLast_split _ _ _ E) as (w & c & v & -> & Hc & _).
  intros Hn. pose proof (trim_keeps c (w ++ [c])) as H.
  rewrite Hn in H. apply H; [apply in_or_app; right; now left | now apply Hp].
Qed.

Lemma chosenQuestionText_cases after :
  (50 < length (beforeOptions after) /\ chosenQuestionText after = beforeOptions after)
  \/ (length (beforeOptions after) <= 50 /\ strategy1 after = []
      /\ exists u, throughLast (isChar "?") after = Some u
                   /\ chosenQuestionText after = trim u)
  \/ (length (beforeOptions after) <= 50 /\ strategy1 after = []
      /\ throughLast (isChar "?") after = None
      /\ chosenQuestionText after =
         if 50 <? length (trim (substring 0 500 after))
         then trim (substring 0 500 after) else []).
Proof.
  unfold chosenQuestionText, strategy1.
  destruct (Nat.ltb_spec 50 (length (beforeOptions after))) as [H|H].
  - left. split; [exact H|].
    destruct (beforeOptions after) as [|c b] eqn:E; [simpl in H; lia|]. reflexivity.
  - right. rewrite andb_false_r, strategy2_direct.
    destruct (throughLast (isChar "?") after) as [u|] eqn:E.
    + left. repeat split; auto. exists u. split; [reflexivity|].
      pose proof (trim_through_nonempty _ _ _ question_mark_not_space E) as Hn.
      unfold strategy3. now destruct (trim u).
    + right. repeat split; auto.
Qed.

(** C3, as amended.  When the boundary strategy yields nothing usable and
    the remaining text contains a question mark, the chosen text is the
    trimmed prefix that ends at the LAST question mark (the pattern's [.*]
    is greedy): the longest such prefix, not the shortest. *)
Theorem question_mark_fallback_takes_last (after u v : str) :
  strategy1 after = [] ->
  after = u ++ ch "?" :: v ->
  forallb (notIn (isChar "?")) v = true ->
  chosenQuestionText after = trim (u ++ [ch "?"]).
Proof.
  intros H1 -> Hv.
  pose proof (throughLast_last (isChar "?") u (ch "?") v eq_refl Hv) as E.
  destruct (chosenQuestionText_cases (u ++ ch "?" :: v))
    as [[H _]|[(_ & _ & w & Hw & ->)|(_ & _ & Hn & _)]].
  - unfold strategy1 in H1. apply Nat.ltb_lt in H. rewrite H, andb_true_r in H1.
    destruct (beforeOptions (u ++ ch "?" :: v)); [discriminate H|discriminate H1].
  - congruence.
  - congruence.
Qed.

Lemma question_mark_fallback_takes_last_witness :
  strategy1 (lit "a? b? c") = []
  /\ lit "a? b? c" = lit "a? b" ++ ch "?" :: lit " c"
  /\ forallb (notIn (isChar "?")) (lit " c") = true
  /\ chosenQuestionText (lit "a? b? c") = trim (lit "a? b" ++ [ch "?"]).
Proof.
  split; [reflexivity|]. split; [reflexivity|]. split; [reflexivity|].
  apply (question_mark_fallback_takes_last (lit "a? b? c") (lit "a? b") (lit " c"));
    reflexivity.
Defined.

(** C3, as stated, fails: on "a? b? c" the boundary strategy yields nothing,
    the shortest prefix ending at the first question mark is "a?", and the
    fallback takes "a? b?". *)
Lemma question_mark_fallback_not_first :
  strategy1 (lit "a? b? c") = []
  /\ throughFirst (isChar "?") (lit "a? b? c") = Some (lit "a?")
  /\ chosenQuestionText (lit "a? b? c") = lit "a? b?"
  /\ Some (chosenQuestionText (lit "a? b? c")) <> throughFirst (isChar "?") (lit "a? b? c").
Proof. repeat split. vm_compute. discriminate. Qed.

Section QuestionBody.
Variable toLowerCase : str -> str.

(** C4, as amended.  The returned question body is non-empty exactly when
    the text chosen by the fallback chain contains an ASCII letter, and the
    chain chooses a non-empty text exactly when the boundary prefix has
    more than 50 characters after trimming, or the remaining text contains
    a question mark, or its first 500 characters have more than 50 after
    trimming.  Otherwise the body is left empty. *)
Theorem question_body_nonempty_iff (text file : str) :
  exists q,
    fst (parseMCQFromText toLowerCase text file) = Some q
    /\ (question q <> []
        <-> existsb isLetter
              (chosenQuestionText (textAfterQuestionId (cleanUp text))) = true)
    /\ (chosenQuestionText (textAfterQuestionId (cleanUp text)) <> []
        <-> (50 < length (beforeOptions (textAfterQuestionId (cleanUp text)))
             \/ existsb (isChar "?") (textAfterQuestionId (cleanUp text)) = true
             \/ 50 < length (trim (substring 0 500
                                     (textAfterQuestionId (cleanUp text)))))).
Proof.
  eexists. split; [reflexivity|]. cbn [question]. split.
  - apply tidyQuestion_nonempty.
  - set (after := textAfterQuestionId (cleanUp text)).
    destruct (chosenQuestionText_cases after)
      as [[H ->]|[(H & _ & u & Hu & ->)|(H & _ & Hn & ->)]].
    + split; [auto|]. intros _ E. rewrite E in H. simpl in H. lia.
    + split.
      * intros _. right. left.
        destruct (existsb (isChar "?") after) eqn:E; [reflexivity|].
        apply throughLast_none in E. congruence.
      * intros _. exact (trim_through_nonempty _ _ _ question_mark_not_space Hu).
    + apply throughLast_none in Hn.
      destruct (Nat.ltb_spec 50 (length (trim (substring 0 500 after)))) as [H3|H3].
      * split; [auto|]. intros _ E. rewrite E in H3. simpl in H3. lia.
      * split; [intros E; now elim E|]. intros [H4|[H4|H4]]; [lia|congruence|lia].
Qed.
End QuestionBody.

(** C4, as stated, fails: a short text without a question mark gets an
    empty body. *)
Lemma question_body_can_be_empty :
  option_map question (fst (parseMCQFromText asciiLower (lit "Short text") (lit "a.png")))
  = Some [].
Proof. reflexivity. Qed.

(** ** Sorting *)

Section SortFacts.
Variable A : Type.
Variable le : A -> A -> bool.
Hypothesis le_total : forall x y, le x y = false -> le y x = true.

Lemma insert_perm x l : Permutation (insert le x l) (x :: l).
Proof.
  induction l as [|y t IH]; simpl; [reflexivity|].
  destruct (le x y); [reflexivity|].
  rewrite IH. apply perm_swap.
Qed.

Lemma sortBy_perm l : Permutation (sortBy le l) l.
Proof.
  induction l as [|x t IH]; simpl; [reflexivity|].
  rewrite insert_perm. now constructor.
Qed.

Lemma insert_hd x y l :
  le y x = true -> HdRel (fun a b => le a b = true) y l ->
  HdRel (fun a b => le a b = true) y (insert le x l).
Proof.
  intros Hyx H. destruct l as [|z t]; simpl; [now constructor|].
  destruct (le x z); constructor; auto. now inversion H.
Qed.

Lemma insert_sorted x l :
  Sorted (fun a b => le a b = true) l -> Sorted (fun a b => le a b = true) (insert le x l).
Proof.
  induction 1 as [|y t Hs IH Hd]; simpl; [repeat constructor|].
  destruct (le x y) eqn:E.
  - repeat constructor; auto.
  - constructor; [exact IH|]. apply insert_hd; auto.
Qed.

Lemma sortBy_sorted l : Sorted (fun a b => le a b = true) (sortBy le l).
Proof.
  induction l as [|x t IH]; simpl; [constructor|]. now apply insert_sorted.
Qed.
End SortFacts.

Lemma localeCompareLe_total a :
  forall b, localeCompareLe a b = false -> localeCompareLe b a = true.
Proof.
  induction a as [|x a IH]; intros [|y b]; simpl; try discriminate; auto.
  intros H. apply orb_false_iff in H as [H1 H2].
  apply N.ltb_ge in H1. destruct (N.eqb_spec x y) as [->|Hn].
  - simpl in H2. rewrite N.eqb_refl, (IH _ H2). apply orb_true_r.
  - assert (Hlt : N.ltb y x = true) by (apply N.ltb_lt; lia).
    now rewrite Hlt.
Qed.

(** ** The labeled pass *)

Lemma tidyOption_nil : tidyOption [] = [].
Proof. reflexivity. Qed.

Lemma labeledOption_cases cleanText letter :
  (labeledOption cleanText letter = []
   /\ length (tidyOption (optionText cleanText letter)) <= 5)
  \/ (labeledOption cleanText letter =
        [{| id := letter; text := tidyOption (optionText cleanText letter) |}]
      /\ 5 < length (tidyOption (optionText cleanText letter))).
Proof.
  unfold labeledOption.
  destruct (optionText cleanText letter) as [|c t] eqn:E.
  - left. split; [reflexivity|]. rewrite tidyOption_nil. simpl. lia.
  - cbn [isEmpty]. destruct (Nat.ltb_spec 5 (length (tidyOption (c :: t)))); auto.
Qed.

Lemma labeledOptions_shape cleanText :
  NoDup (map id (labeledOptions cleanText))
  /\ incl (map id (labeledOptions cleanText)) optionPatterns
  /\ Sorted idLe (labeledOptions cleanText)
  /\ Forall (fun o => toUpperCase (id o) = id o) (labeledOptions cleanText).
Proof.
  unfold labeledOptions, optionPatterns. cbn [flat_map].
  destruct (labeledOption_cases cleanText (lit "A")) as [[-> _]|[-> _]];
  destruct (labeledOption_cases cleanText (lit "B")) as [[-> _]|[-> _]];
  destruct (labeledOption_cases cleanText (lit "C")) as [[-> _]|[-> _]];
  destruct (labeledOption_cases cleanText (lit "D")) as [[-> _]|[-> _]];
  cbn [app map id];
  (split; [repeat constructor; simpl; intuition discriminate|]);
  (split; [intros x Hx; simpl in Hx |- *; tauto|]);
  (split; [repeat constructor|repeat constructor]).
Qed.

Lemma missingIds_fresh opts i :
  Forall (fun o => toUpperCase (id o) = id o) opts ->
  In i (missingIds opts) -> In i optionPatterns /\ ~ In i (map id opts).
Proof.
  intros Hu Hi. unfold missingIds in Hi. apply filter_In in Hi as [Hi Hn].
  split; [exact Hi|]. intros Hin. apply negb_true_iff in Hn.
  assert (E : existsb (str_eqb i) (map (fun opt => toUpperCase (id opt)) opts) = true);
    [|congruence].
  apply in_map_iff in Hin as (o & <- & Ho).
  apply existsb_exists. exists (id o). split.
  - rewrite Forall_forall in Hu. rewrite <- (Hu _ Ho) at 1.
    apply in_map_iff. eauto.
  - unfold str_eqb. now destruct (list_eq_dec N.eq_dec (id o) (id o)).
Qed.

Lemma missingIds_NoDup opts : NoDup (missingIds opts).
Proof.
  unfold missingIds. apply NoDup_filter.
  repeat constructor; simpl; intuition discriminate.
Qed.

Lemma combine_fst (a b : list str) : map fst (combine a b) = firstn (length b) a.
Proof.
  revert b. induction a as [|x a IH]; intros [|y b]; simpl; auto. now rewrite IH.
Qed.

Lemma firstn_In (n : nat) (l : list str) x : In x (firstn n l) -> In x l.
Proof.
  revert l. induction n as [|n IH]; intros [|y l]; simpl; try tauto.
  intros [->|H]; auto.
Qed.

Lemma firstn_NoDup (n : nat) (l : list str) : NoDup l -> NoDup (firstn n l).
Proof.
  revert l. induction n as [|n IH]; intros [|y l] H; simpl; try constructor.
  - inversion H; subst. intros Hin. now apply firstn_In in Hin.
  - inversion H; subst. now apply IH.
Qed.

Lemma endsClean_last u a : endsClean (u ++ [a]) = true -> isSpace a = false.
Proof.
  unfold endsClean. rewrite rev_app_distr. simpl. apply negb_true_iff.
Qed.

Lemma endsClean_cons a (s : str) : s <> [] -> endsClean (a :: s) = endsClean s.
Proof.
  intros Hs. unfold endsClean. cbn [rev].
  destruct (rev s) eqn:E; [|reflexivity].
  apply (f_equal (@rev cu)) in E. rewrite rev_involutive in E. contradiction.
Qed.

Lemma endsClean_append (s t : str) : t <> [] -> endsClean (s ++ t) = endsClean t.
Proof.
  intros Ht. induction s as [|a s IH]; [reflexivity|].
  cbn [app]. rewrite endsClean_cons; [exact IH|]. destruct s; [exact Ht|discriminate].
Qed.

Lemma endsClean_dropWhile p s : endsClean s = true -> endsClean (dropWhile p s) = true.
Proof.
  induction s as [|a s IH]; intros H; [reflexivity|].
  cbn [dropWhile]. destruct (p a); [|exact H].
  destruct s as [|b s']; [reflexivity|]. apply IH.
  now rewrite endsClean_cons in H by discriminate.
Qed.

Lemma collapse_nonempty rep s :
  s <> [] -> endsClean s = true -> collapse isSpace rep s <> [].
Proof.
  induction s as [|a s IH]; intros Hn He; [contradiction|].
  destruct s as [|b s'].
  - apply (endsClean_last []) in He. now rewrite collapse_keep.
  - rewrite endsClean_cons in He by discriminate.
    specialize (IH ltac:(discriminate) He).
    rewrite collapse_cons2. destruct (isSpace a); [|discriminate].
    destruct (isSpace b); [exact IH|]. intros E. apply app_eq_nil in E as [_ E]. contradiction.
Qed.

Lemma collapse_endsClean rep s :
  endsClean s = true -> endsClean (collapse isSpace rep s) = true.
Proof.
  induction s as [|a s IH]; intros He; [reflexivity|].
  destruct s as [|b s'].
  - apply (endsClean_last []) in He. rewrite collapse_keep by exact He.
    unfold endsClean. simpl. now rewrite He.
  - rewrite endsClean_cons in He by discriminate.
    pose proof (collapse_nonempty rep (b :: s') ltac:(discriminate) He) as Hn.
    rewrite collapse_cons2. destruct (isSpace a).
    + destruct (isSpace b); [now apply IH|].
      rewrite endsClean_append by exact Hn. now apply IH.
    + rewrite endsClean_cons by exact Hn. now apply IH.
Qed.

(** On a trimmed text the last [trim] of the tidy-up changes nothing: what
    is left after collapsing the white space and stripping the leading
    non-letters starts with a letter and ends as the text ended. *)
Lemma tidyOption_direct t :
  endsClean t = true ->
  tidyOption t = dropWhile (notIn isLetter) (collapse isSpace (lit " ") t).
Proof.
  intros He. unfold tidyOption, spaces1, leadingNonLetters.
  rewrite replaceAll_plus, replaceFirst_leading.
  pose proof (endsClean_dropWhile (notIn isLetter) _ (collapse_endsClean (lit " ") t He)) as Hd.
  destruct (dropWhile (notIn isLetter) (collapse isSpace (lit " ") t)) as [|a s] eqn:E;
    [reflexivity|].
  apply dropWhile_head in E. unfold notIn in E. apply negb_false_iff in E.
  pose proof (letter_not_space a E) as Ha.
  unfold trim, trimStart. cbn [dropWhile]. rewrite Ha.
  unfold trimEnd. unfold endsClean in Hd.
  destruct (rev (a :: s)) as [|c r] eqn:Er.
  - apply (f_equal (@rev cu)) in Er. rewrite rev_involutive in Er. discriminate.
  - cbn [dropWhile]. apply negb_true_iff in Hd. rewrite Hd.
    now rewrite <- Er, rev_involutive.
Qed.

Lemma keepLonger_fold cleanText ps :
  forall acc,
    let capture pattern := trim (group1_or [] (exec pattern cleanText)) in
    let r := fold_left (keepLonger cleanText) ps acc in
    (r = acc \/ In r (map capture ps))
    /\ length acc <= length r
    /\ Forall (fun t => length t <= length r) (map capture ps).
Proof.
  induction ps as [|p ps IH]; intros acc; cbn zeta; cbn [fold_left map].
  - repeat split; auto.
  - destruct (IH (keepLonger cleanText acc p)) as (H1 & H2 & H3).
    assert (Hk : (keepLonger cleanText acc p = acc
                  \/ keepLonger cleanText acc p = trim (group1_or [] (exec p cleanText)))
                 /\ length acc <= length (keepLonger cleanText acc p)
                 /\ length (trim (group1_or [] (exec p cleanText)))
                    <= length (keepLonger cleanText acc p)).
    { unfold keepLonger. destruct (group1_or [] (exec p cleanText)) as [|c g].
      - simpl. repeat split; auto; lia.
      - destruct (Nat.ltb_spec (length acc) (length (trim (c :: g))));
          repeat split; auto; lia. }
    destruct Hk as (K1 & K2 & K3). repeat split.
    + destruct H1 as [->|H1]; [|right; now right].
      destruct K1 as [->| ->]; [now left | right; now left].
    + lia.
    + constructor; [lia | exact H3].
Qed.

Lemma In_labeledOption cleanText letter o :
  In o (labeledOption cleanText letter) ->
  o = {| id := letter; text := tidyOption (optionText cleanText letter) |}.
Proof.
  destruct (labeledOption_cases cleanText letter) as [[E _]|[E _]]; rewrite E.
  - intros [].
  - now intros [<-|[]].
Qed.

(** C2. For every letter of A, B, C, D and every text, the labeled pass
    keeps, among the trimmed captures of the three label shapes of the
    letter, one of greatest length; the options it returns hold an option
    for the letter exactly when what is left of the kept text, after the
    white space is collapsed and the leading non-letters are stripped, is
    longer than 5, and that option carries what is left as its text; the
    pass returns at most one option per letter, and options for these four
    letters only. *)
Theorem labeled_option_longest_over_five (cleanText letter : str) :
  In letter optionPatterns ->
  let capture pattern := trim (group1_or [] (exec pattern cleanText)) in
  let remaining :=
    dropWhile (notIn isLetter) (collapse isSpace (lit " ") (optionText cleanText letter)) in
  In (optionText cleanText letter) (map capture (patterns letter))
  /\ Forall (fun t => length t <= length (optionText cleanText letter))
            (map capture (patterns letter))
  /\ (labeledOption cleanText letter = [{| id := letter; text := remaining |}]
      <-> 5 < length remaining)
  /\ (labeledOption cleanText letter = [] <-> length remaining <= 5)
  /\ NoDup (map id (labeledOptions cleanText))
  /\ (In {| id := letter; text := remaining |} (labeledOptions cleanText)
      <-> 5 < length remaining)
  /\ (In letter (map id (labeledOptions cleanText)) <-> 5 < length remaining)
  /\ (forall o, In o (labeledOptions cleanText) -> id o = letter -> text o = remaining)
  /\ incl (map id (labeledOptions cleanText)) optionPatterns.
Proof.
  intros Hletter. cbn zeta.
  assert (Hin : In (optionText cleanText letter)
                   (map (fun pattern => trim (group1_or [] (exec pattern cleanText)))
                        (patterns letter))
                /\ Forall (fun t => length t <= length (optionText cleanText letter))
                     (map (fun pattern => trim (group1_or [] (exec pattern cleanText)))
                          (patterns letter))).
  { unfold optionText.
    destruct (keepLonger_fold cleanText (patterns letter) []) as (H1 & _ & H3).
    cbn zeta in H1, H3. split; [|exact H3].
    destruct H1 as [E|H1]; [|exact H1]. rewrite E in *.
    cbn [patterns map] in H3 |- *. apply Forall_inv in H3. left.
    destruct (trim _); [reflexivity | simpl in H3; lia]. }
  destruct Hin as [Hin Hall]. split; [exact Hin|]. split; [exact Hall|].
  assert (He : endsClean (optionText cleanText letter) = true).
  { apply in_map_iff in Hin as (p & <- & _). apply trimEnd_endsClean. }
  rewrite <- (tidyOption_direct _ He).
  set (remaining := tidyOption (optionText cleanText letter)).
  assert (Hfrom : forall o, In o (labeledOptions cleanText) -> id o = letter ->
                    o = {| id := letter; text := remaining |} /\ 5 < length remaining).
  { intros o Ho Hid. unfold labeledOptions in Ho.
    apply in_flat_map in Ho as (l & _ & Ho).
    pose proof (In_labeledOption _ _ _ Ho) as Eo.
    assert (l = letter) by (rewrite Eo in Hid; exact Hid). subst l.
    split; [exact Eo|].
    destruct (labeledOption_cases cleanText letter) as [[E _]|[_ H]];
      [rewrite E in Ho; destruct Ho|exact H]. }
  assert (Hto : 5 < length remaining ->
                In {| id := letter; text := remaining |} (labeledOptions cleanText)).
  { intros H. unfold labeledOptions. apply in_flat_map. exists letter.
    split; [exact Hletter|].
    destruct (labeledOption_cases cleanText letter) as [[_ H']|[E _]];
      [fold remaining in H'; lia|rewrite E; now left]. }
  destruct (labeledOptions_shape cleanText) as (Hnd & Hincl & _).
  destruct (labeledOption_cases cleanText letter) as [[E H]|[E H]]; rewrite E;
    fold remaining in H |- *.
  - split; [split; [discriminate | lia]|].
    split; [split; [intros _; exact H | reflexivity]|].
    split; [exact Hnd|].
    split; [split; [intros Ho; exact (proj2 (Hfrom _ Ho eq_refl)) | exact Hto]|].
    split; [split; [|intros; lia]|].
    + intros Hi. apply in_map_iff in Hi as (o & Hid & Ho).
      exact (proj2 (Hfrom _ Ho Hid)).
    + split; [|exact Hincl]. intros o Ho Hid.
      now rewrite (proj1 (Hfrom _ Ho Hid)).
  - split; [split; [intros _; exact H | reflexivity]|].
    split; [split; [discriminate | lia]|].
    split; [exact Hnd|].
    split; [split; [intros _; exact H | exact Hto]|].
    split; [split; [intros _; exact H|]|].
    + intros _. apply in_map_iff. exists {| id := letter; text := remaining |}.
      split; [reflexivity|exact (Hto H)].
    + split; [|exact Hincl]. intros o Ho Hid.
      now rewrite (proj1 (Hfrom _ Ho Hid)).
Qed.

Lemma labeled_option_longest_over_five_witness :
  In (lit "B") optionPatterns
  /\ In {| id := lit "B"; text := lit "Option two" |}
        (labeledOptions (lit "(A) bar (B) Option two"))
  /\ ~ In (lit "A") (map id (labeledOptions (lit "(A) bar (B) Option two"))).
Proof.
  split; [right; now left|].
  split.
  - destruct (labeled_option_longest_over_five (lit "(A) bar (B) Option two") (lit "B")
                (or_intror (or_introl eq_refl)))
      as (_ & _ & _ & _ & _ & H & _).
    apply (proj2 H). vm_compute. lia.
  - destruct (labeled_option_longest_over_five (lit "(A) bar (B) Option two") (lit "A")
                (or_introl eq_refl))
      as (_ & _ & _ & _ & _ & _ & H & _).
    intros Hi. apply (proj1 H) in Hi. vm_compute in Hi. lia.
Defined.

Section Options.
Variable toLowerCase : str -> str.

Lemma inferredOptions_ids cleanText opts :
  map id (inferredOptions toLowerCase cleanText opts) =
  firstn (length (candidateTexts toLowerCase cleanText opts)) (missingIds opts).
Proof.
  unfold inferredOptions. rewrite map_map. cbn [id]. apply combine_fst.
Qed.

(** What the gap-inference pass returns: the labeled options and the
    inferred ones, possibly in another order. *)
Lemma completeOptions_perm cleanText opts :
  completeOptions toLowerCase cleanText opts = opts
  \/ Permutation (completeOptions toLowerCase cleanText opts) opts
  \/ Permutation (completeOptions toLowerCase cleanText opts)
                 (opts ++ inferredOptions toLowerCase cleanText opts).
Proof.
  unfold completeOptions. destruct (length opts <? 4); [|now left].
  destruct (0 <? length (missingIds opts)).
  - right. right. apply sortBy_perm.
  - right. left. apply sortBy_perm.
Qed.

Lemma completeOptions_sorted cleanText opts :
  Sorted idLe opts -> Sorted idLe (completeOptions toLowerCase cleanText opts).
Proof.
  intros H. unfold completeOptions. destruct (length opts <? 4); [|exact H].
  apply (sortBy_sorted _ (fun a b => localeCompareLe (id a) (id b))).
  intros x y. apply localeCompareLe_total.
Qed.

Lemma all_ids_NoDup cleanText opts :
  NoDup (map id opts) ->
  Forall (fun o => toUpperCase (id o) = id o) opts ->
  NoDup (map id (opts ++ inferredOptions toLowerCase cleanText opts))
  /\ forall i, In i (map id (inferredOptions toLowerCase cleanText opts)) ->
               In i (missingIds opts).
Proof.
  intros Hn Hu. rewrite map_app, inferredOptions_ids. split.
  - apply NoDup_app; repeat split.
    + exact Hn.
    + apply firstn_NoDup, missingIds_NoDup.
    + intros i Hi Hm. apply firstn_In in Hm.
      now destruct (missingIds_fresh opts i Hu Hm).
  - intros i. apply firstn_In.
Qed.

Lemma parseMCQFromText_eq text file :
  parseMCQFromText toLowerCase text file =
  (Some {| questionId := extractQuestionId (cleanUp text) file;
           filename := file;
           question := questionBody (cleanUp text);
           options := completeOptions toLowerCase (cleanUp text)
                        (labeledOptions (cleanUp text));
           rawText := Some text |},
   optionDiagnostics toLowerCase (cleanUp text) (labeledOptions (cleanUp text))
     ++ validationDiagnostics file (questionBody (cleanUp text))
          (completeOptions toLowerCase (cleanUp text) (labeledOptions (cleanUp text)))).
Proof. reflexivity. Qed.

(** C7. The options of the returned question are at most four, carry
    pairwise different ids, and are in ascending order of id, whether or
    not the gap-inference pass ran. *)
Theorem options_at_most_four_distinct_sorted (text file : str) :
  exists q,
    fst (parseMCQFromText toLowerCase text file) = Some q
    /\ length (options q) <= 4
    /\ NoDup (map id (options q))
    /\ Sorted idLe (options q).
Proof.
  eexists. split; [reflexivity|]. cbn [options].
  set (c := cleanUp text).
  destruct (labeledOptions_shape c) as (Hn & Hi & Hs & Hu).
  destruct (all_ids_NoDup c _ Hn Hu) as (Hall & Hmiss).
  assert (Hnd : NoDup (map id (completeOptions toLowerCase c (labeledOptions c)))).
  { destruct (completeOptions_perm c (labeledOptions c)) as [-> | [P | P]].
    - exact Hn.
    - eapply Permutation_NoDup; [|exact Hn]. symmetry. now apply Permutation_map.
    - eapply Permutation_NoDup; [|exact Hall]. symmetry. now apply Permutation_map. }
  assert (Hin : incl (map id (completeOptions toLowerCase c (labeledOptions c)))
                     optionPatterns).
  { intros i Hx.
    destruct (completeOptions_perm c (labeledOptions c)) as [E | [P | P]].
    - rewrite E in Hx. now apply Hi.
    - apply Hi. eapply Permutation_in; [|exact Hx]. now apply Permutation_map.
    - assert (Hx' : In i (map id (labeledOptions c
                                   ++ inferredOptions toLowerCase c (labeledOptions c))))
        by (eapply Permutation_in; [|exact Hx]; now apply Permutation_map).
      rewrite map_app in Hx'. apply in_app_or in Hx' as [Hx'|Hx'].
      + now apply Hi.
      + now destruct (missingIds_fresh _ _ Hu (Hmiss _ Hx')). }
  repeat split.
  - rewrite <- (length_map id). apply (NoDup_incl_length Hnd Hin).
  - exact Hnd.
  - now apply completeOptions_sorted.
Qed.

(** C10. Every option found by the labeled pass is in the final list with
    the same id and text, and every other final option carries an id the
    labeled pass did not find. *)
Theorem labeled_options_preserved (text file : str) :
  exists q,
    fst (parseMCQFromText toLowerCase text file) = Some q
    /\ (forall o, In o (labeledOptions (cleanUp text)) -> In o (options q))
    /\ (forall o, In o (options q) ->
          In o (labeledOptions (cleanUp text))
          \/ (In (id o) (missingIds (labeledOptions (cleanUp text)))
              /\ ~ In (id o) (map id (labeledOptions (cleanUp text))))).
Proof.
  eexists. split; [reflexivity|]. cbn [options].
  set (c := cleanUp text).
  destruct (labeledOptions_shape c) as (Hn & Hi & Hs & Hu).
  destruct (all_ids_NoDup c _ Hn Hu) as (Hall & Hmiss).
  destruct (completeOptions_perm c (labeledOptions c)) as [-> | [P | P]].
  - split; auto.
  - split; intros o Ho.
    + eapply Permutation_in; [symmetry; exact P | exact Ho].
    + left. eapply Permutation_in; [exact P | exact Ho].
  - split; intros o Ho.
    + eapply Permutation_in; [symmetry; exact P |]. apply in_or_app. now left.
    + apply (Permutation_in _ P) in Ho. apply in_app_or in Ho as [Ho|Ho]; [now left|].
      right. assert (Hm : In (id o) (missingIds (labeledOptions c)))
        by (apply Hmiss, in_map, Ho).
      split; [exact Hm|]. now destruct (missingIds_fresh _ _ Hu Hm).
Qed.

(** C8. Parsing always returns a question, also when the body is empty or
    shorter than 20 or fewer than two options were found: such content is
    reported by a warning only, and the error branch is never taken. *)
Theorem low_confidence_is_only_warned (text file : str) :
  exists q,
    fst (parseMCQFromText toLowerCase text file) = Some q
    /\ filename q = file
    /\ rawText q = Some text
    /\ (In (WarnQuestionTooShort file (question q))
           (snd (parseMCQFromText toLowerCase text file))
        <-> question q = [] \/ length (question q) < 20)
    /\ (In (WarnFewOptions (length (options q)) file)
           (snd (parseMCQFromText toLowerCase text file))
        <-> length (options q) < 2)
    /\ ~ In (ErrorParsing file) (snd (parseMCQFromText toLowerCase text file)).
Proof.
  rewrite parseMCQFromText_eq. cbn [fst snd]. eexists. split; [reflexivity|].
  cbn [filename rawText question options].
  split; [reflexivity|]. split; [reflexivity|].
  set (c := cleanUp text). set (body := questionBody c).
  set (opts := completeOptions toLowerCase c (labeledOptions c)).
  clearbody opts body.
  assert (Hd : forall d, In d (optionDiagnostics toLowerCase c (labeledOptions c)) ->
                 (exists n, d = WarnLabeledOnly n) \/ (exists l, d = WarnMissingIds l)
                 \/ (exists a b, d = LogUnlabeled a b)).
  { intros d. unfold optionDiagnostics.
    destruct (length (labeledOptions c) <? 4); [|intros []].
    intros [<-|H]; [eauto|].
    destruct (0 <? length (missingIds (labeledOptions c))); [|destruct H].
    destruct H as [<-|H]; [eauto|].
    apply in_map_iff in H as (o & <- & _). eauto 6. }
  set (ds := optionDiagnostics toLowerCase c (labeledOptions c)) in *.
  clearbody ds. clear c.
  assert (Hnot : forall d, (forall n, d <> WarnLabeledOnly n) ->
                   (forall l, d <> WarnMissingIds l) ->
                   (forall a b, d <> LogUnlabeled a b) ->
                   (In d (ds ++ validationDiagnostics file body opts)
                    <-> In d (validationDiagnostics file body opts))).
  { intros d H1 H2 H3. rewrite in_app_iff. split; [|auto].
    intros [H|H]; [|exact H].
    destruct (Hd _ H) as [[n E]|[[l E]|(a & b & E)]];
      [elim (H1 _ E)|elim (H2 _ E)|elim (H3 _ _ E)]. }
  clear Hd.
  rewrite !Hnot by discriminate. clear Hnot ds.
  unfold validationDiagnostics. rewrite !in_app_iff.
  destruct (Nat.ltb_spec (length opts) 2) as [Ho|Ho];
    destruct (Nat.ltb_spec (length body) 20) as [Hb|Hb];
    destruct body as [|b0 body']; cbn [isEmpty orb In];
    (split; [|split]);
    try (split; [intros H | intros H]);
    try (intros H);
    try (simpl in Hb; lia);
    try solve [ auto
              | lia
              | intuition (try discriminate; try lia) ].
Qed.
End Options.

(** ** The question id *)

(** C6, at a file name that holds ".png" twice: [replace('.png', '')]
    removes the first occurrence, not the trailing extension, so the
    synthesized id is "Q_scan.v2.png" where stripping the extension gives
    "Q_scan.png.v2". *)
Lemma question_id_strips_first_png :
  option_map questionId
    (fst (parseMCQFromText asciiLower (lit "no identifier here") (lit "scan.png.v2.png")))
  = Some (lit "Q_scan.v2.png")
  /\ lit "Q_" ++ withoutPngSuffix (lit "scan.png.v2.png") = lit "Q_scan.png.v2".
Proof. split; reflexivity. Qed.

(** On a name that holds ".png" only as its extension the two readings
    agree. *)
Lemma question_id_of_simple_name :
  option_map questionId
    (fst (parseMCQFromText asciiLower (lit "no identifier here") (lit "sample.png")))
  = Some (lit "Q_" ++ withoutPngSuffix (lit "sample.png")).
Proof. reflexivity. Qed.

(** The id found in the text wins over the file name and keeps its case. *)
Lemma question_id_from_text :
  option_map questionId
    (fst (parseMCQFromText asciiLower (lit "(x) q302. Which one? E12345 E77")
                           (lit "sample.png")))
  = Some (lit "q302").
Proof. reflexivity. Qed.

(** ** The two extractors *)

Lemma variant_completeOptions_perm cleanText opts :
  Variant.completeOptions cleanText opts = opts
  \/ Permutation (Variant.completeOptions cleanText opts)
                 (opts ++ Variant.inferredOptions cleanText opts).
Proof.
  unfold Variant.completeOptions. destruct (length opts <? 4); [|now left].
  right. apply sortBy_perm.
Qed.

(** C9, as amended.  For every input the two extractors return questions
    with the same id, file name and raw text, both keep every option of the
    labeled pass, and their option lists are equal whenever the labeled pass
    finds all four letters.  The question body and the inferred options are
    computed differently and may differ. *)
Theorem extractors_agree_on_shared_parts (toLowerCase : str -> str) (text file : str) :
  exists q v,
    fst (parseMCQFromText toLowerCase text file) = Some q
    /\ fst (Variant.parseMCQFromText text file) = Some v
    /\ questionId q = questionId v
    /\ filename q = filename v
    /\ rawText q = rawText v
    /\ (forall o, In o (labeledOptions (cleanUp text)) ->
                  In o (options q) /\ In o (options v))
    /\ (length (labeledOptions (cleanUp text)) = 4 -> options q = options v).
Proof.
  do 2 eexists. split; [reflexivity|]. split; [reflexivity|].
  cbn [questionId filename rawText options].
  split; [reflexivity|]. split; [reflexivity|]. split; [reflexivity|].
  set (c := cleanUp text). clearbody c. split.
  - intros o Ho. split.
    + destruct (completeOptions_perm toLowerCase c (labeledOptions c)) as [-> | [P | P]];
        [exact Ho | |]; (eapply Permutation_in; [symmetry; exact P|]); auto.
      apply in_or_app. now left.
    + destruct (variant_completeOptions_perm c (labeledOptions c)) as [-> | P];
        [exact Ho|]. eapply Permutation_in; [symmetry; exact P|].
      apply in_or_app. now left.
  - intros H. unfold completeOptions, Variant.completeOptions. now rewrite H.
Qed.

Lemma extractors_agree_on_shared_parts_witness :
  length (labeledOptions
            (cleanUp (lit "(A) Option one (B) Option two (C) Option three (D) Option four")))
  = 4
  /\ exists q v,
       fst (parseMCQFromText asciiLower
              (lit "(A) Option one (B) Option two (C) Option three (D) Option four")
              (lit "a.png")) = Some q
       /\ fst (Variant.parseMCQFromText
                (lit "(A) Option one (B) Option two (C) Option three (D) Option four")
                (lit "a.png")) = Some v
       /\ questionId q = questionId v
       /\ options q = options v.
Proof.
  split; [vm_compute; reflexivity|].
  destruct (extractors_agree_on_shared_parts asciiLower
              (lit "(A) Option one (B) Option two (C) Option three (D) Option four")
              (lit "a.png")) as (q & v & Hq & Hv & Hi & _ & _ & _ & Ho).
  exists q, v. split; [exact Hq|]. split; [exact Hv|]. split; [exact Hi|].
  apply Ho. vm_compute. reflexivity.
Defined.

(** C9, as stated, fails: on "Why? no" the extractor of [ocr-working.ts]
    stops the body at the question mark and the variant keeps the whole
    text. *)
Lemma extractors_differ_on_body :
  option_map question (fst (parseMCQFromText asciiLower (lit "Why? no") (lit "a.png")))
  = Some (lit "Why?")
  /\ option_map question (fst (Variant.parseMCQFromText (lit "Why? no") (lit "a.png")))
     = Some (lit "Why? no")
  /\ fst (parseMCQFromText asciiLower (lit "Why? no") (lit "a.png"))
     <> fst (Variant.parseMCQFromText (lit "Why? no") (lit "a.png")).
Proof.
  split; [reflexivity|]. split; [reflexivity|]. vm_compute. discriminate.
Qed.

(** ** Four labeled options *)

(** The guard of line 133: the text "(A) foo (B) bar (C) baz (D) qux" is
    already clean and the labeled pass finds no option in it, because no
    kept text is longer than 5. *)
Lemma labeled_pass_drops_short_options :
  cleanUp (lit "(A) foo (B) bar (C) baz (D) qux") = lit "(A) foo (B) bar (C) baz (D) qux"
  /\ labeledOptions (lit "(A) foo (B) bar (C) baz (D) qux") = [].
Proof. split; reflexivity. Qed.

(** ** Matching across a stretch of plain text *)

Lemma patterns_shapes x : patterns [x] = [parenShape x; spaceShape x; bareShape x].
Proof. reflexivity. Qed.

Lemma search_skip r t :
  forall l rest,
    (forall u a v, t = u ++ a :: v ->
                   m r Some (Pos (rev u ++ l) (a :: v ++ rest) None) = None) ->
    search r l (t ++ rest) = search r (rev t ++ l) rest.
Proof.
  induction t as [|a t IH]; intros l rest H; [reflexivity|].
  cbn [app]. rewrite search_miss by (apply (H [] a t eq_refl)).
  rewrite IH.
  - cbn [rev]. now rewrite <- app_assoc.
  - intros u b v ->. specialize (H (a :: u) b v eq_refl).
    cbn [rev] in H. now rewrite <- app_assoc in H.
Qed.

Lemma lazyChr_eq p k l s c :
  lazyChr p k l s c =
  match k (Pos l s c) with
  | Some z => Some z
  | None =>
      match s with
      | a :: t => if p a then lazyChr p k (a :: l) t c else None
      | [] => None
      end
  end.
Proof. destruct s; reflexivity. Qed.

Lemma lazy_segment p K t :
  forall l rest c,
    forallb p t = true ->
    (forall u a v, t = u ++ a :: v ->
                   K (Pos (rev u ++ l) (a :: v ++ rest) c) = None) ->
    lazyChr p K l (t ++ rest) c = lazyChr p K (rev t ++ l) rest c.
Proof.
  induction t as [|a t IH]; intros l rest c Hp H; [reflexivity|].
  cbn [app]. rewrite lazyChr_eq.
  pose proof (H [] a t eq_refl) as H0. cbn [rev app] in H0. rewrite H0.
  cbn [forallb] in Hp. apply andb_true_iff in Hp as [Ha Hp]. rewrite Ha.
  rewrite IH; [| exact Hp |].
  - cbn [rev]. now rewrite <- app_assoc.
  - intros u b v ->. specialize (H (a :: u) b v eq_refl).
    cbn [rev] in H. now rewrite <- app_assoc in H.
Qed.

(** A greedy run followed by a class outside the run: only the whole run
    can be followed by it. *)
Lemma greedy_then_chr p q K s :
  (forall c, q c = true -> p c = false) ->
  forall l c,
    greedyChr p (m (Chr q) K) l s c =
    m (Chr q) K (Pos (rev (takeWhile p s) ++ l) (dropWhile p s) c).
Proof.
  intros Hq. induction s as [|a t IH]; intros l c; [reflexivity|].
  cbn [greedyChr takeWhile dropWhile]. destruct (p a) eqn:Ha; [|reflexivity].
  rewrite IH. cbn [rev]. rewrite <- app_assoc. cbn [app].
  destruct (m (Chr q) K _); [reflexivity|].
  rewrite m_Chr_cons. destruct (q a) eqn:Hqa; [|reflexivity].
  apply Hq in Hqa. congruence.
Qed.

(** A greedy run succeeds with its longest run when the rest matches there. *)
Lemma greedy_longest p K s z :
  forall l c,
    K (Pos (rev (takeWhile p s) ++ l) (dropWhile p s) c) = Some z ->
    greedyChr p K l s c = Some z.
Proof.
  induction s as [|a t IH]; intros l c H; [exact H|].
  cbn [greedyChr takeWhile dropWhile] in *. destruct (p a); [|exact H].
  cbn [rev] in H. rewrite <- app_assoc in H. cbn [app] in H. now rewrite (IH _ _ H).
Qed.

Lemma m_Seq_fun r1 r2 k : m (Seq r1 r2) k = m r1 (m r2 k).
Proof. reflexivity. Qed.

Lemma paren_not_space c : isChar "(" c = true -> isSpace c = false.
Proof. intros H. apply N.eqb_eq in H. now subst c. Qed.

Lemma letterAD_not_space c : ci isAtoD c = true -> isSpace c = false.
Proof.
  intros H. destruct (isSpace c) eqn:E; [exfalso|reflexivity].
  unfold ci, upcase, downcase in H.
  destruct (isLower c) eqn:E1; destruct (isUpper c) eqn:E2;
    unfold isAtoD, isLower, isUpper, isSpace, inRange in *;
    repeat rewrite ?orb_true_iff, ?andb_true_iff, ?N.leb_le, ?N.eqb_eq in H;
    repeat rewrite ?orb_true_iff, ?andb_true_iff, ?N.leb_le, ?N.eqb_eq in E;
    repeat rewrite ?andb_true_iff, ?andb_false_iff, ?N.leb_le, ?N.leb_gt in E1;
    repeat rewrite ?andb_true_iff, ?andb_false_iff, ?N.leb_le, ?N.leb_gt in E2;
    lia.
Qed.

Lemma dropWhile_nonempty p (s : str) b w : dropWhile p s = b :: w -> s <> [].
Proof. destruct s; [discriminate|discriminate]. Qed.

(** (?=\s*\([A-D]\)|$) fails where the next code unit after the white space
    is not an opening parenthesis. *)
Lemma nextParenLabel_fails K l s c b w :
  dropWhile isSpace s = b :: w -> isChar "(" b = false ->
  m nextParenLabel K (Pos l s c) = None.
Proof.
  intros Hd Hb. unfold nextParenLabel. rewrite m_Ahead, m_Alt. cbn [seqs].
  rewrite m_Seq. unfold spaces. rewrite m_star_greedy, m_Seq_fun.
  rewrite (greedy_then_chr isSpace (isChar "(") _ s paren_not_space).
  rewrite Hd, m_Chr_cons, Hb.
  destruct s as [|a s']; [discriminate Hd|]. now rewrite m_Eol_cons.
Qed.

Lemma nextParenLabel_at_label K l y rest c :
  ci isAtoD y = true ->
  m nextParenLabel K (Pos l (32 :: 40 :: y :: 41 :: rest)%N c)
  = K (Pos l (32 :: 40 :: y :: 41 :: rest)%N c).
Proof.
  intros Hy. unfold nextParenLabel. rewrite m_Ahead, m_Alt. cbn [seqs].
  rewrite m_Seq. unfold spaces. rewrite m_star_greedy, m_Seq_fun.
  rewrite (greedy_then_chr isSpace (isChar "(") _ _ paren_not_space).
  change (dropWhile isSpace (32 :: 40 :: y :: 41 :: rest)%N) with (40 :: y :: 41 :: rest)%N.
  rewrite m_Chr_cons. change (isChar "(" 40%N) with true. cbv iota.
  rewrite m_Seq. unfold letterAD. rewrite m_Chr_cons, Hy, m_Chr_cons.
  reflexivity.
Qed.

Lemma nextParenLabel_at_end K l c :
  m nextParenLabel K (Pos l [] c) = K (Pos l [] c).
Proof. reflexivity. Qed.

(** (?=\s*[A-D][\)\.]|$) fails where the code unit after the white space
    is not a letter of A-D followed by a closing mark. *)
Lemma nextLetterLabel_fails K l s c b w :
  dropWhile isSpace s = b :: w ->
  (ci isAtoD b = false
   \/ match w with c0 :: _ => oneOf ")." c0 = false | [] => True end) ->
  m nextLetterLabel K (Pos l s c) = None.
Proof.
  intros Hd Hb. unfold nextLetterLabel. rewrite m_Ahead, m_Alt. cbn [seqs].
  rewrite m_Seq. unfold spaces, letterAD. rewrite m_star_greedy, m_Seq_fun.
  rewrite (greedy_then_chr isSpace (ci isAtoD) _ s letterAD_not_space).
  rewrite Hd, m_Chr_cons.
  assert (E : (if ci isAtoD b
               then m closer Some (Pos (b :: rev (takeWhile isSpace s) ++ l) w c)
               else None) = None).
  { destruct (ci isAtoD b); [|reflexivity]. destruct Hb as [Hb|Hb]; [discriminate|].
    unfold closer. destruct w as [|c0 w']; [reflexivity|]. now rewrite m_Chr_cons, Hb. }
  rewrite E. destruct s as [|a s']; [discriminate Hd|]. now rewrite m_Eol_cons.
Qed.

Lemma nextLetterLabel_at_label K l y rest c :
  ci isAtoD y = true ->
  m nextLetterLabel K (Pos l (y :: 41 :: rest)%N c) = K (Pos l (y :: 41 :: rest)%N c).
Proof.
  intros Hy. unfold nextLetterLabel. rewrite m_Ahead, m_Alt. cbn [seqs].
  rewrite m_Seq. unfold spaces, letterAD. rewrite m_star_greedy, m_Seq_fun.
  rewrite (greedy_then_chr isSpace (ci isAtoD) _ _ letterAD_not_space).
  cbn [dropWhile takeWhile]. rewrite (letterAD_not_space _ Hy).
  rewrite m_Chr_cons, Hy. unfold closer. rewrite m_Chr_cons. reflexivity.
Qed.

Lemma nextLetterLabel_at_end K l c :
  m nextLetterLabel K (Pos l [] c) = K (Pos l [] c).
Proof. reflexivity. Qed.

(** ** Plain option texts *)

Lemma plain_facts t :
  plain t = true ->
  5 < length t
  /\ (exists a t', t = a :: t' /\ isLetter a = true)
  /\ forallb plainChar t = true
  /\ singleSpaced true t = true
  /\ endsClean t = true.
Proof.
  unfold plain. intros H.
  repeat (apply andb_true_iff in H as [H ?]).
  apply Nat.ltb_lt in H. repeat split; auto.
  destruct t as [|a t']; [discriminate|]. eauto.
Qed.

Lemma plainChar_facts c :
  plainChar c = true ->
  isChar "(" c = false /\ oneOf ")." c = false /\ notIn (isChar "|") c = true.
Proof.
  unfold plainChar, oneOf, isChar. cbn [lit list_ascii_of_string map existsb].
  intros H. apply negb_true_iff in H.
  repeat (apply orb_false_iff in H as [? H]).
  split; [|split].
  - rewrite N.eqb_sym. assumption.
  - repeat (apply orb_false_iff; split); auto.
  - unfold notIn, isChar. rewrite N.eqb_sym. apply negb_true_iff. assumption.
Qed.

Lemma singleSpaced_after u a v :
  forall b0, singleSpaced b0 (u ++ a :: v) = true -> isSpace a = true ->
    match v with b :: _ => isSpace b = false | [] => True end.
Proof.
  induction u as [|c u IH]; intros b0 H Ha.
  - cbn [app singleSpaced] in H. rewrite Ha in H. apply andb_true_iff in H as [_ H].
    destruct v as [|b v']; [exact I|]. cbn [singleSpaced] in H.
    destruct (isSpace b); [|reflexivity]. rewrite andb_false_r in H. discriminate.
  - cbn [app singleSpaced] in H. destruct (isSpace c).
    + apply andb_true_iff in H as [_ H]. exact (IH _ H Ha).
    + exact (IH _ H Ha).
Qed.

(** From inside a plain text, the next code unit that is not white space is
    still inside it. *)
Lemma next_nonspace t u a v rest :
  singleSpaced true t = true -> endsClean t = true -> t = u ++ a :: v ->
  exists b w u',
    dropWhile isSpace (a :: v ++ rest) = b :: w ++ rest /\ t = u' ++ b :: w.
Proof.
  intros Hs He Ht. destruct (isSpace a) eqn:Ha.
  - subst t. pose proof (singleSpaced_after _ _ _ _ Hs Ha) as Hv.
    destruct v as [|b v'].
    + apply endsClean_last in He. congruence.
    + exists b, v', (u ++ [a]). cbn [dropWhile app]. rewrite Ha, Hv.
      split; [reflexivity|]. now rewrite <- app_assoc.
  - exists a, v, u. cbn [dropWhile]. now rewrite Ha.
Qed.

Lemma forallb_split p (u : str) a v :
  forallb p (u ++ a :: v) = true -> p a = true /\ forallb p v = true.
Proof.
  rewrite forallb_app. cbn [forallb]. intros H.
  apply andb_true_iff in H as [_ H]. now apply andb_true_iff in H.
Qed.

Lemma restOK_app (w rest : str) :
  forallb plainChar w = true -> restOK rest -> restOK (w ++ rest).
Proof.
  destruct w as [|c0 w']; [auto|]. cbn [app forallb restOK]. intros H _.
  apply andb_true_iff in H as [H _]. now apply plainChar_facts in H.
Qed.

Lemma ci_self x : ci (N.eqb x) x = true.
Proof. unfold ci. now rewrite N.eqb_refl. Qed.

(** The look-aheads fail everywhere inside a plain text. *)
Lemma nextParenLabel_inside t rest K l c u a v :
  forallb plainChar t = true -> singleSpaced true t = true -> endsClean t = true ->
  t = u ++ a :: v ->
  m nextParenLabel K (Pos l (a :: v ++ rest) c) = None.
Proof.
  intros Hp Hs He Ht.
  destruct (next_nonspace t u a v rest Hs He Ht) as (b & w & u' & Hd & Ht').
  apply (nextParenLabel_fails K l _ c b (w ++ rest) Hd).
  rewrite Ht' in Hp. apply forallb_split in Hp as [Hb _].
  now apply plainChar_facts in Hb.
Qed.

Lemma nextLetterLabel_inside t rest K l c u a v :
  forallb plainChar t = true -> singleSpaced true t = true -> endsClean t = true ->
  restOK rest -> t = u ++ a :: v ->
  m nextLetterLabel K (Pos l (a :: v ++ rest) c) = None.
Proof.
  intros Hp Hs He Hr Ht.
  destruct (next_nonspace t u a v rest Hs He Ht) as (b & w & u' & Hd & Ht').
  apply (nextLetterLabel_fails K l _ c b (w ++ rest) Hd). right.
  rewrite Ht' in Hp. apply forallb_split in Hp as [_ Hw].
  exact (restOK_app w rest Hw Hr).
Qed.

Lemma no_newline_plain t : singleSpaced true t = true -> forallb (notIn isNewline) t = true.
Proof. apply singleSpaced_no_newline. Qed.

Lemma no_paren_plain t : forallb plainChar t = true -> forallb (notIn (isChar "(")) t = true.
Proof.
  intros H. apply forallb_forall. intros c Hc.
  rewrite forallb_forall in H. apply H, plainChar_facts in Hc as [Hc _].
  unfold notIn. now rewrite Hc.
Qed.

(** The parenthesized shape at its label: the capture is the plain text
    that follows, up to the next parenthesized label or the end. *)
Lemma parenShape_match x t rest l :
  plain t = true -> restLabel rest ->
  exists l',
    m (parenShape x) Some (Pos l (40 :: x :: 41 :: 32 :: t ++ rest)%N None)
    = Some (Pos l' rest (Some t)).
Proof.
  intros Hpl Hr. destruct (plain_facts t Hpl) as (_ & (a & t' & Ht & Ha) & Hp & Hs & He).
  pose proof (letter_not_space a Ha) as Hna.
  unfold parenShape.
  rewrite m_Seq, m_Chr_cons. change (isChar "(" 40%N) with true. cbv iota.
  rewrite m_Seq, m_Chr_cons, ci_self.
  rewrite m_Seq, m_Chr_cons. change (isChar ")" 41%N) with true. cbv iota.
  rewrite m_Seq. unfold spaces. rewrite m_star_greedy.
  eexists. apply greedy_longest.
  replace (dropWhile isSpace (32 :: t ++ rest)%N) with (t ++ rest)
    by (subst t; cbn [app dropWhile]; change (isSpace 32%N) with true; cbv iota;
        now rewrite Hna).
  rewrite m_Seq, m_Grp, m_star_lazy.
  rewrite lazy_segment;
    [ | now apply no_paren_plain
      | intros u b v Hsplit; cbv beta; cbn [passed ahead];
        now apply (nextParenLabel_inside t rest _ _ _ u b v) ].
  rewrite lazyChr_eq. cbn [passed ahead].
  destruct Hr as [-> | (y & rest' & -> & Hy)].
  - rewrite nextParenLabel_at_end. now rewrite consumed_prefix.
  - rewrite nextParenLabel_at_label by exact Hy. now rewrite consumed_prefix.
Qed.

(** The bare shape at the letter of a parenthesized label: the capture runs
    on to the letter of the next label, or to the end. *)
Lemma bareShape_match_last x t l :
  plain t = true ->
  exists l',
    m (bareShape x) Some (Pos l (x :: 41 :: 32 :: t ++ [])%N None)
    = Some (Pos l' [] (Some t)).
Proof.
  intros Hpl. destruct (plain_facts t Hpl) as (_ & (a & t' & Ht & Ha) & Hp & Hs & He).
  pose proof (letter_not_space a Ha) as Hna.
  unfold bareShape.
  rewrite m_Seq, m_Chr_cons, ci_self.
  rewrite m_Seq. unfold closer. rewrite m_Chr_cons. change (oneOf ")." 41%N) with true.
  cbv iota. rewrite m_Seq. unfold spaces. rewrite m_star_greedy.
  eexists. apply greedy_longest.
  replace (dropWhile isSpace (32 :: t ++ [])%N) with (t ++ [])
    by (subst t; cbn [app dropWhile]; change (isSpace 32%N) with true; cbv iota;
        now rewrite Hna).
  rewrite m_Seq, m_Grp, m_star_lazy.
  rewrite lazy_segment;
    [ | now apply no_newline_plain
      | intros u b v Hsplit; cbv beta; cbn [passed ahead];
        now apply (nextLetterLabel_inside t [] _ _ _ u b v) ].
  rewrite lazyChr_eq. cbn [passed ahead].
  rewrite nextLetterLabel_at_end. now rewrite consumed_prefix.
Qed.

Lemma bareShape_match x t y rest l :
  plain t = true -> ci isAtoD y = true ->
  exists l',
    m (bareShape x) Some (Pos l (x :: 41 :: 32 :: t ++ 32 :: 40 :: y :: 41 :: rest)%N None)
    = Some (Pos l' (y :: 41 :: rest)%N (Some (t ++ [32; 40]%N))).
Proof.
  intros Hpl Hy. destruct (plain_facts t Hpl) as (_ & (a & t' & Ht & Ha) & Hp & Hs & He).
  pose proof (letter_not_space a Ha) as Hna.
  unfold bareShape.
  rewrite m_Seq, m_Chr_cons, ci_self.
  rewrite m_Seq. unfold closer. rewrite m_Chr_cons. change (oneOf ")." 41%N) with true.
  cbv iota. rewrite m_Seq. unfold spaces. rewrite m_star_greedy.
  eexists. apply greedy_longest.
  replace (dropWhile isSpace (32 :: t ++ 32 :: 40 :: y :: 41 :: rest)%N)
    with (t ++ 32 :: 40 :: y :: 41 :: rest)%N
    by (subst t; cbn [app dropWhile]; change (isSpace 32%N) with true; cbv iota;
        now rewrite Hna).
  rewrite m_Seq, m_Grp, m_star_lazy.
  rewrite lazy_segment;
    [ | now apply no_newline_plain
      | intros u b v Hsplit; cbv beta; cbn [passed ahead];
        now apply (nextLetterLabel_inside t _ _ _ _ u b v) ].
  rewrite lazyChr_eq. cbn [passed ahead].
  rewrite (nextLetterLabel_fails _ _ _ _ 40%N (y :: 41 :: rest)%N)
    by (try reflexivity; now left).
  change (notIn isNewline 32%N) with true. cbv iota.
  rewrite lazyChr_eq. cbn [passed ahead].
  rewrite (nextLetterLabel_fails _ _ _ _ 40%N (y :: 41 :: rest)%N)
    by (try reflexivity; now left).
  change (notIn isNewline 40%N) with true. cbv iota.
  rewrite lazyChr_eq. cbn [passed ahead].
  rewrite nextLetterLabel_at_label by exact Hy.
  replace (t ++ 32 :: 40 :: y :: 41 :: rest)%N with ((t ++ [32; 40]%N) ++ y :: 41 :: rest)%N
    by (now rewrite <- app_assoc).
  now rewrite consumed_prefix.
Qed.

(** The three shapes find nothing inside " t" for a plain [t]. *)
Lemma skip_paren x t rest l :
  plain t = true ->
  search (parenShape x) l (32 :: t ++ rest)%N
  = search (parenShape x) (rev (32 :: t)%N ++ l) rest.
Proof.
  intros Hpl. destruct (plain_facts t Hpl) as (_ & _ & Hp & _ & _).
  change (32 :: t ++ rest)%N with ((32 :: t)%N ++ rest).
  apply search_skip. intros u a v Hsplit.
  unfold parenShape. rewrite m_Seq, m_Chr_cons.
  assert (Ha : isChar "(" a = false); [|now rewrite Ha].
  assert (H : forallb (notIn (isChar "(")) (32 :: t)%N = true)
    by (cbn [forallb]; now rewrite no_paren_plain).
  rewrite Hsplit in H. apply forallb_split in H as [H _].
  unfold notIn in H. now apply negb_true_iff in H.
Qed.

Lemma suffix_plain (t u : str) a v :
  forallb plainChar t = true -> (32 :: t)%N = u ++ a :: v -> forallb plainChar v = true.
Proof.
  intros Hp Hsplit. destruct u as [|c u].
  - injection Hsplit as _ <-. exact Hp.
  - injection Hsplit as _ ->. now apply forallb_split in Hp.
Qed.

Lemma skip_bare x t rest l :
  plain t = true -> restOK rest ->
  search (bareShape x) l (32 :: t ++ rest)%N
  = search (bareShape x) (rev (32 :: t)%N ++ l) rest.
Proof.
  intros Hpl Hr. destruct (plain_facts t Hpl) as (_ & _ & Hp & _ & _).
  change (32 :: t ++ rest)%N with ((32 :: t)%N ++ rest).
  apply search_skip. intros u a v Hsplit.
  unfold bareShape. rewrite m_Seq, m_Chr_cons.
  destruct (ci (N.eqb x) a); [|reflexivity].
  rewrite m_Seq. unfold closer.
  pose proof (restOK_app v rest (suffix_plain t u a v Hp Hsplit) Hr) as Hv.
  destruct (v ++ rest) as [|c0 s']; [reflexivity|].
  cbn [restOK] in Hv. now rewrite m_Chr_cons, Hv.
Qed.

Lemma skip_space x t rest l :
  plain t = true -> restOK rest ->
  search (spaceShape x) l (32 :: t ++ rest)%N
  = search (spaceShape x) (rev (32 :: t)%N ++ l) rest.
Proof.
  intros Hpl Hr.
  destruct (plain_facts t Hpl) as (_ & (a0 & t0 & Ht & _) & Hp & _ & He).
  change (32 :: t ++ rest)%N with ((32 :: t)%N ++ rest).
  apply search_skip. intros u a v Hsplit.
  unfold spaceShape. rewrite m_Seq, m_Chr_cons.
  destruct (isSpace a) eqn:Ha; [|reflexivity].
  pose proof (suffix_plain t u a v Hp Hsplit) as Hv.
  destruct v as [|b v'].
  - exfalso. assert (E : endsClean (32 :: t)%N = true).
    { unfold endsClean in *. subst t. cbn [rev] in *.
      destruct (rev t0 ++ [a0]) eqn:E0; [destruct (rev t0); discriminate|].
      cbn [app]. exact He. }
    rewrite Hsplit in E. apply endsClean_last in E. congruence.
  - cbn [app]. rewrite m_Seq, m_Chr_cons.
    destruct (ci (N.eqb x) b); [|reflexivity].
    rewrite m_Seq. unfold closer.
    cbn [forallb] in Hv. apply andb_true_iff in Hv as [_ Hv].
    pose proof (restOK_app v' rest Hv Hr) as Hv'.
    destruct (v' ++ rest) as [|c0 s']; [reflexivity|].
    cbn [restOK] in Hv'. now rewrite m_Chr_cons, Hv'.
Qed.

Lemma fourOptions_eq t1 t2 t3 t4 :
  fourOptions t1 t2 t3 t4 =
  (40 :: 65 :: 41 :: 32 :: t1 ++ 32 :: 40 :: 66 :: 41 :: 32 :: t2
      ++ 32 :: 40 :: 67 :: 41 :: 32 :: t3 ++ 32 :: 40 :: 68 :: 41 :: 32 :: t4 ++ [])%N.
Proof.
  unfold fourOptions. cbn. repeat (rewrite <- ?app_assoc; cbn [app]).
  now rewrite app_nil_r.
Qed.

(** ** The labeled pass on "(A) t1 (B) t2 (C) t3 (D) t4" *)

Ltac miss := rewrite search_miss by reflexivity.

Lemma group1_of_hit r l s x l' rest c t :
  m r Some (Pos l s None) = Some (Pos l' rest (Some (c :: t))) ->
  x = c :: t ->
  group1_or [] (search r l s) = x.
Proof. intros H ->. now rewrite (search_hit _ _ _ _ H). Qed.

Lemma plain_cons t : plain t = true -> exists c t', t = c :: t'.
Proof. intros H. destruct (plain_facts t H) as (_ & (a & t' & -> & _) & _). eauto. Qed.

Lemma hit_paren x t y rest l :
  plain t = true -> ci isAtoD y = true ->
  group1_or [] (search (parenShape x) l
                  (40 :: x :: 41 :: 32 :: t ++ 32 :: 40 :: y :: 41 :: rest)%N) = t.
Proof.
  intros Hp Hy. destruct (plain_cons t Hp) as (c & t' & E).
  destruct (parenShape_match x t (32 :: 40 :: y :: 41 :: rest)%N l Hp) as [l' Hm].
  - right. now exists y, rest.
  - rewrite E in Hm at 2. exact (group1_of_hit _ _ _ _ _ _ _ _ Hm E).
Qed.

Lemma hit_paren_last x t l :
  plain t = true ->
  group1_or [] (search (parenShape x) l (40 :: x :: 41 :: 32 :: t ++ [])%N) = t.
Proof.
  intros Hp. destruct (plain_cons t Hp) as (c & t' & E).
  destruct (parenShape_match x t [] l Hp) as [l' Hm]; [now left|].
  rewrite E in Hm at 2. exact (group1_of_hit _ _ _ _ _ _ _ _ Hm E).
Qed.

Lemma hit_bare x t y rest l :
  plain t = true -> ci isAtoD y = true ->
  group1_or [] (search (bareShape x) l
                  (x :: 41 :: 32 :: t ++ 32 :: 40 :: y :: 41 :: rest)%N)
  = t ++ lit " (".
Proof.
  intros Hp Hy. destruct (plain_cons t Hp) as (c & t' & E).
  destruct (bareShape_match x t y rest l Hp Hy) as [l' Hm].
  rewrite E in Hm at 2. cbn [app] in Hm.
  apply (group1_of_hit _ _ _ _ _ _ _ _ Hm). now rewrite E.
Qed.

Lemma hit_bare_last x t l :
  plain t = true ->
  group1_or [] (search (bareShape x) l (x :: 41 :: 32 :: t ++ [])%N) = t.
Proof.
  intros Hp. destruct (plain_cons t Hp) as (c & t' & E).
  destruct (bareShape_match_last x t l Hp) as [l' Hm].
  rewrite E in Hm at 2. exact (group1_of_hit _ _ _ _ _ _ _ _ Hm E).
Qed.

Section FourOptions.
Variables t1 t2 t3 t4 : str.
Hypothesis plain1 : plain t1 = true.
Hypothesis plain2 : plain t2 = true.
Hypothesis plain3 : plain t3 = true.
Hypothesis plain4 : plain t4 = true.

Ltac skip L := rewrite L by (assumption || reflexivity || exact I).

Lemma paren_A : group1_or [] (exec (parenShape (ch "A")) (fourOptions t1 t2 t3 t4)) = t1.
Proof.
  unfold exec. rewrite fourOptions_eq. now apply hit_paren.
Qed.

Lemma paren_B : group1_or [] (exec (parenShape (ch "B")) (fourOptions t1 t2 t3 t4)) = t2.
Proof.
  unfold exec. rewrite fourOptions_eq.
  do 3 miss. skip skip_paren. miss. now apply hit_paren.
Qed.

Lemma paren_C : group1_or [] (exec (parenShape (ch "C")) (fourOptions t1 t2 t3 t4)) = t3.
Proof.
  unfold exec. rewrite fourOptions_eq.
  do 3 miss. skip skip_paren. do 4 miss. skip skip_paren. miss.
  now apply hit_paren.
Qed.

Lemma paren_D : group1_or [] (exec (parenShape (ch "D")) (fourOptions t1 t2 t3 t4)) = t4.
Proof.
  unfold exec. rewrite fourOptions_eq.
  do 3 miss. skip skip_paren. do 4 miss. skip skip_paren.
  do 4 miss. skip skip_paren. miss.
  now apply hit_paren_last.
Qed.

Ltac nothing_found :=
  unfold exec; rewrite fourOptions_eq;
  do 3 miss; skip skip_space; do 4 miss; skip skip_space;
  do 4 miss; skip skip_space; do 4 miss; skip skip_space;
  now rewrite search_miss_nil.

Lemma space_A : group1_or [] (exec (spaceShape (ch "A")) (fourOptions t1 t2 t3 t4)) = [].
Proof. nothing_found. Qed.

Lemma space_B : group1_or [] (exec (spaceShape (ch "B")) (fourOptions t1 t2 t3 t4)) = [].
Proof. nothing_found. Qed.

Lemma space_C : group1_or [] (exec (spaceShape (ch "C")) (fourOptions t1 t2 t3 t4)) = [].
Proof. nothing_found. Qed.

Lemma space_D : group1_or [] (exec (spaceShape (ch "D")) (fourOptions t1 t2 t3 t4)) = [].
Proof. nothing_found. Qed.

Lemma bare_A :
  group1_or [] (exec (bareShape (ch "A")) (fourOptions t1 t2 t3 t4)) = t1 ++ lit " (".
Proof.
  unfold exec. rewrite fourOptions_eq. miss. now apply hit_bare.
Qed.

Lemma bare_B :
  group1_or [] (exec (bareShape (ch "B")) (fourOptions t1 t2 t3 t4)) = t2 ++ lit " (".
Proof.
  unfold exec. rewrite fourOptions_eq.
  do 3 miss. skip skip_bare. do 2 miss. now apply hit_bare.
Qed.

Lemma bare_C :
  group1_or [] (exec (bareShape (ch "C")) (fourOptions t1 t2 t3 t4)) = t3 ++ lit " (".
Proof.
  unfold exec. rewrite fourOptions_eq.
  do 3 miss. skip skip_bare. do 4 miss. skip skip_bare. do 2 miss.
  now apply hit_bare.
Qed.

Lemma bare_D : group1_or [] (exec (bareShape (ch "D")) (fourOptions t1 t2 t3 t4)) = t4.
Proof.
  unfold exec. rewrite fourOptions_eq.
  do 3 miss. skip skip_bare. do 4 miss. skip skip_bare.
  do 4 miss. skip skip_bare. do 2 miss.
  now apply hit_bare_last.
Qed.


Lemma singleSpaced_app t :
  forall b s,
    singleSpaced b t = true -> t <> [] -> endsClean t = true ->
    singleSpaced false s = true -> singleSpaced b (t ++ s) = true.
Proof.
  induction t as [|a t IH]; intros b s Hs Hn He Hs'; [contradiction|].
  destruct t as [|a' t'].
  - cbn [app singleSpaced] in *.
    assert (Ha : isSpace a = false) by (now apply (endsClean_last [])).
    now rewrite Ha.
  - assert (He' : endsClean (a' :: t') = true)
      by (rewrite <- He; symmetry; apply (endsClean_append [a]); discriminate).
    cbn [app singleSpaced] in Hs |- *. destruct (isSpace a).
    + apply andb_true_iff in Hs as [H1 H2]. rewrite H1. cbn [andb].
      apply (IH true s H2); [discriminate | exact He' | exact Hs'].
    + apply (IH false s Hs); [discriminate | exact He' | exact Hs'].
Qed.

Lemma plain_with_paren t :
  plain t = true ->
  singleSpaced true (t ++ lit " (") = true /\ endsClean (t ++ lit " (") = true.
Proof.
  intros Hp. destruct (plain_facts t Hp) as (_ & (a & t' & E & _) & _ & Hs & He).
  split.
  - apply singleSpaced_app; auto. subst t. discriminate.
  - rewrite endsClean_append by discriminate. reflexivity.
Qed.

Lemma tidyOption_clean s a s' :
  s = a :: s' -> isLetter a = true -> singleSpaced true s = true ->
  endsClean s = true -> tidyOption s = s.
Proof.
  intros E Ha Hs He. unfold tidyOption, spaces1, leadingNonLetters.
  rewrite replaceAll_plus, (collapse_spaced_id _ _ Hs), replaceFirst_leading.
  replace (dropWhile (notIn isLetter) s) with s
    by (subst s; cbn [dropWhile]; unfold notIn; now rewrite Ha).
  now apply trim_clean.
Qed.

Lemma optionText_shapes cleanText x g1 g3 :
  group1_or [] (exec (parenShape x) cleanText) = g1 ->
  group1_or [] (exec (spaceShape x) cleanText) = [] ->
  group1_or [] (exec (bareShape x) cleanText) = g3 ->
  g1 <> [] -> g3 <> [] -> trim g1 = g1 -> trim g3 = g3 ->
  optionText cleanText [x] = if length g1 <? length g3 then g3 else g1.
Proof.
  intros H1 H2 H3 N1 N3 T1 T3. unfold optionText. rewrite patterns_shapes.
  cbn [fold_left]. unfold keepLonger. rewrite H1, H2, H3.
  destruct g1 as [|c1 g1]; [contradiction|]. destruct g3 as [|c3 g3]; [contradiction|].
  rewrite T1, T3. reflexivity.
Qed.

Lemma labeledOption_of cleanText letter s a s' :
  optionText cleanText letter = s ->
  s = a :: s' -> isLetter a = true -> singleSpaced true s = true ->
  endsClean s = true -> 5 < length s ->
  labeledOption cleanText letter = [{| id := letter; text := s |}].
Proof.
  intros Ho E Ha Hs He Hl. unfold labeledOption. rewrite Ho.
  rewrite (tidyOption_clean s a s' E Ha Hs He).
  apply Nat.ltb_lt in Hl. rewrite Hl. now rewrite E.
Qed.

(** An option followed by another label: the bare shape wins and its
    capture runs on to the next label. *)
Lemma labeledOption_followed x t :
  plain t = true ->
  group1_or [] (exec (parenShape x) (fourOptions t1 t2 t3 t4)) = t ->
  group1_or [] (exec (spaceShape x) (fourOptions t1 t2 t3 t4)) = [] ->
  group1_or [] (exec (bareShape x) (fourOptions t1 t2 t3 t4)) = t ++ lit " (" ->
  labeledOption (fourOptions t1 t2 t3 t4) [x] = [{| id := [x]; text := t ++ lit " (" |}].
Proof.
  intros Hp H1 H2 H3.
  destruct (plain_facts t Hp) as (Hl & (a & t' & E & Ha) & _ & Hs & He).
  destruct (plain_with_paren t Hp) as (Hs' & He').
  apply (labeledOption_of _ _ _ a (t' ++ lit " (")).
  - rewrite (optionText_shapes _ x t (t ++ lit " (") H1 H2 H3).
    + replace (length t <? length (t ++ lit " (")) with true; [reflexivity|].
      symmetry. apply Nat.ltb_lt. rewrite length_app. simpl. lia.
    + rewrite E. discriminate.
    + rewrite E. discriminate.
    + now apply trim_clean.
    + now apply trim_clean.
  - now rewrite E.
  - exact Ha.
  - exact Hs'.
  - exact He'.
  - rewrite length_app. lia.
Qed.

Lemma labeledOption_last x t :
  plain t = true ->
  group1_or [] (exec (parenShape x) (fourOptions t1 t2 t3 t4)) = t ->
  group1_or [] (exec (spaceShape x) (fourOptions t1 t2 t3 t4)) = [] ->
  group1_or [] (exec (bareShape x) (fourOptions t1 t2 t3 t4)) = t ->
  labeledOption (fourOptions t1 t2 t3 t4) [x] = [{| id := [x]; text := t |}].
Proof.
  intros Hp H1 H2 H3.
  destruct (plain_facts t Hp) as (Hl & (a & t' & E & Ha) & _ & Hs & He).
  apply (labeledOption_of _ _ _ a t'); try assumption.
  rewrite (optionText_shapes _ x t t H1 H2 H3).
  - now rewrite Nat.ltb_irrefl.
  - rewrite E. discriminate.
  - rewrite E. discriminate.
  - now apply trim_clean.
  - now apply trim_clean.
Qed.

(** What the labeled pass finds in "(A) t1 (B) t2 (C) t3 (D) t4". *)
Lemma labeledOptions_fourOptions :
  labeledOptions (fourOptions t1 t2 t3 t4) =
  [ {| id := lit "A"; text := t1 ++ lit " (" |};
    {| id := lit "B"; text := t2 ++ lit " (" |};
    {| id := lit "C"; text := t3 ++ lit " (" |};
    {| id := lit "D"; text := t4 |} ].
Proof.
  unfold labeledOptions, optionPatterns. cbn [flat_map].
  change (lit "A") with [ch "A"]. change (lit "B") with [ch "B"].
  change (lit "C") with [ch "C"]. change (lit "D") with [ch "D"].
  rewrite (labeledOption_followed (ch "A") t1 plain1 paren_A space_A bare_A).
  rewrite (labeledOption_followed (ch "B") t2 plain2 paren_B space_B bare_B).
  rewrite (labeledOption_followed (ch "C") t3 plain3 paren_C space_C bare_C).
  rewrite (labeledOption_last (ch "D") t4 plain4 paren_D space_D bare_D).
  reflexivity.
Qed.

Lemma fourOptions_isClean : isClean (fourOptions t1 t2 t3 t4) = true.
Proof.
  destruct (plain_facts t1 plain1) as (_ & (a1 & t1' & E1 & _) & P1 & S1 & C1).
  destruct (plain_facts t2 plain2) as (_ & (a2 & t2' & E2 & _) & P2 & S2 & C2).
  destruct (plain_facts t3 plain3) as (_ & (a3 & t3' & E3 & _) & P3 & S3 & C3).
  destruct (plain_facts t4 plain4) as (_ & (a4 & t4' & E4 & _) & P4 & S4 & C4).
  assert (N1 : t1 <> []) by (subst t1; discriminate).
  assert (N2 : t2 <> []) by (subst t2; discriminate).
  assert (N3 : t3 <> []) by (subst t3; discriminate).
  assert (N4 : t4 <> []) by (subst t4; discriminate).
  assert (B : forall t, forallb plainChar t = true ->
                        forallb (notIn (isChar "|")) t = true).
  { intros t H. apply forallb_forall. intros c Hc. rewrite forallb_forall in H.
    now apply H, plainChar_facts in Hc. }
  rewrite fourOptions_eq. unfold isClean.
  apply andb_true_iff. split; [apply andb_true_iff; split|].
  - cbn [singleSpaced]. change (isSpace 40%N) with false. change (isSpace 65%N) with false.
    change (isSpace 41%N) with false. change (isSpace 32%N) with true. cbn.
    apply singleSpaced_app; auto. cbn.
    apply singleSpaced_app; auto. cbn.
    apply singleSpaced_app; auto. cbn.
    apply singleSpaced_app; auto.
  - repeat (rewrite ?forallb_app; cbn [forallb]).
    rewrite (B _ P1), (B _ P2), (B _ P3), (B _ P4). reflexivity.
  - rewrite app_nil_r.
    replace (40 :: 65 :: 41 :: 32 :: t1 ++ 32 :: 40 :: 66 :: 41 :: 32 :: t2
               ++ 32 :: 40 :: 67 :: 41 :: 32 :: t3 ++ 32 :: 40 :: 68 :: 41 :: 32 :: t4)%N
      with ((40 :: 65 :: 41 :: 32 :: t1 ++ 32 :: 40 :: 66 :: 41 :: 32 :: t2
               ++ 32 :: 40 :: 67 :: 41 :: 32 :: t3 ++ [32; 40; 68; 41; 32])%N ++ t4)
      by (cbn [app]; repeat (rewrite <- app_assoc; cbn [app]); reflexivity).
    now rewrite endsClean_append.
Qed.

End FourOptions.

(** C1.  The labeled pass does not give the option texts the claim
    states.  For every text "(A) t1 (B) t2 (C) t3 (D) t4" whose option texts
    are plain (longer than 5, a letter first, single spaces only, no
    parenthesis, full stop or vertical bar), the text is already clean and
    the pass yields four options with the ids A, B, C, D in that order, but
    the texts of A, B and C are t1, t2 and t3 followed by " (": the capture
    of the third label shape runs on to the letter of the next label, takes
    in the opening parenthesis before it, and is kept as the longest.  The
    first shape captures t1, t2 and t3 exactly, and the text of D is t4. *)
Theorem labeled_pass_keeps_next_opener (t1 t2 t3 t4 : str) :
  plain t1 = true -> plain t2 = true -> plain t3 = true -> plain t4 = true ->
  cleanUp (fourOptions t1 t2 t3 t4) = fourOptions t1 t2 t3 t4
  /\ labeledOptions (fourOptions t1 t2 t3 t4)
     = [ {| id := lit "A"; text := t1 ++ lit " (" |};
         {| id := lit "B"; text := t2 ++ lit " (" |};
         {| id := lit "C"; text := t3 ++ lit " (" |};
         {| id := lit "D"; text := t4 |} ]
  /\ map text (labeledOptions (fourOptions t1 t2 t3 t4)) <> [t1; t2; t3; t4]
  /\ group1_or [] (exec (parenShape (ch "A")) (fourOptions t1 t2 t3 t4)) = t1
  /\ group1_or [] (exec (parenShape (ch "B")) (fourOptions t1 t2 t3 t4)) = t2
  /\ group1_or [] (exec (parenShape (ch "C")) (fourOptions t1 t2 t3 t4)) = t3.
Proof.
  intros H1 H2 H3 H4.
  rewrite (labeledOptions_fourOptions t1 t2 t3 t4 H1 H2 H3 H4).
  split; [apply cleanUp_fixes_clean; now apply fourOptions_isClean|].
  split; [reflexivity|]. split.
  - cbn [map text]. intros E. injection E as E _.
    apply (f_equal (@length cu)) in E. rewrite length_app in E. simpl in E. lia.
  - split; [exact (paren_A t1 t2 t3 t4 H1)|].
    split; [exact (paren_B t1 t2 t3 t4 H1 H2)|exact (paren_C t1 t2 t3 t4 H1 H2 H3)].
Qed.

Lemma labeled_pass_keeps_next_opener_witness :
  plain (lit "Option one") = true
  /\ plain (lit "Option two") = true
  /\ plain (lit "Option three") = true
  /\ plain (lit "Option four") = true
  /\ labeledOptions (lit "(A) Option one (B) Option two (C) Option three (D) Option four")
     = [ {| id := lit "A"; text := lit "Option one (" |};
         {| id := lit "B"; text := lit "Option two (" |};
         {| id := lit "C"; text := lit "Option three (" |};
         {| id := lit "D"; text := lit "Option four" |} ].
Proof.
  split; [reflexivity|]. split; [reflexivity|]. split; [reflexivity|].
  split; [reflexivity|].
  exact (proj1 (proj2 (labeled_pass_keeps_next_opener
                         (lit "Option one") (lit "Option two") (lit "Option three")
                         (lit "Option four") eq_refl eq_refl eq_refl eq_refl))).
Defined.

(** The same shape on a text with a full stop: the "b." of "web." is read
    as a label of B, and B gets a piece of the text of A in place of its
    own text. *)
Lemma third_shape_reads_a_label_inside_a_word :
  cleanUp (lit "(A) Use the web. Then retry (B) Use disk (C) Option three (D) Option four")
  = lit "(A) Use the web. Then retry (B) Use disk (C) Option three (D) Option four"
  /\ labeledOptions
       (lit "(A) Use the web. Then retry (B) Use disk (C) Option three (D) Option four")
     = [ {| id := lit "A"; text := lit "Use the web. Then retry" |};
         {| id := lit "B"; text := lit "Then retry (" |};
         {| id := lit "C"; text := lit "Option three (" |};
         {| id := lit "D"; text := lit "Option four" |} ].
Proof. split; vm_compute; reflexivity. Qed.

(** * Further properties of the parser *)

(** ** What the clean-up guarantees *)

Lemma singleSpaced_only_space s :
  forall b c, singleSpaced b s = true -> In c s -> isSpace c = true -> c = ch " ".
Proof.
  induction s as [|a t IH]; intros b c Hs [].
  - subst a. intros Hc. cbn [singleSpaced] in Hs. rewrite Hc in Hs.
    apply andb_true_iff in Hs as [Hs _]. apply andb_true_iff in Hs as [Hs _].
    now apply N.eqb_eq in Hs.
  - cbn [singleSpaced] in Hs. destruct (isSpace a).
    + apply andb_true_iff in Hs as [_ Hs]. now apply (IH true).
    + now apply (IH false).
Qed.

Lemma singleSpaced_no_double u v :
  forall b, singleSpaced b (u ++ ch " " :: ch " " :: v) = false.
Proof.
  induction u as [|a u IH]; intros b.
  - cbn. now rewrite andb_false_r.
  - cbn [app singleSpaced]. rewrite !IH. now rewrite andb_false_r; destruct (isSpace a).
Qed.

(** The cleaned text holds no white space but single spaces, none of them
    first, last or next to another, and no vertical bar. *)
Theorem cleanUp_output_is_single_spaced (text : str) :
  (forall c, In c (cleanUp text) -> isSpace c = true -> c = ch " ")
  /\ (forall u v, cleanUp text <> u ++ ch " " :: ch " " :: v)
  /\ ~ In (ch "|") (cleanUp text)
  /\ match cleanUp text with c :: _ => isSpace c = false | [] => True end
  /\ endsClean (cleanUp text) = true.
Proof.
  pose proof (cleanUp_isClean text) as H. unfold isClean in H.
  apply andb_true_iff in H as [H He]. apply andb_true_iff in H as [Hs Hb].
  split; [|split; [|split; [|split]]].
  - intros c. now apply singleSpaced_only_space with (b := true).
  - intros u v E. rewrite E, singleSpaced_no_double in Hs. discriminate.
  - intros Hin. rewrite forallb_forall in Hb. apply Hb in Hin. discriminate.
  - destruct (cleanUp text) as [|c t]; [exact I|]. cbn [singleSpaced] in Hs.
    destruct (isSpace c); [|reflexivity]. rewrite andb_false_r in Hs. discriminate.
  - exact He.
Qed.

Lemma collapse_length p rep s :
  length rep <= 1 -> length (collapse p rep s) <= length s.
Proof.
  intros Hr. induction s as [|a t IH]; [simpl; lia|].
  destruct t as [|b t'].
  - simpl. destruct (p a); simpl; lia.
  - rewrite collapse_cons2. destruct (p a).
    + destruct (p b); [simpl in *; lia|]. rewrite length_app. simpl in *. lia.
    + simpl in *. lia.
Qed.

Lemma substitute_length p rep s :
  length rep = 1 -> length (substitute p rep s) = length s.
Proof.
  intros Hr. unfold substitute. induction s as [|a t IH]; [reflexivity|].
  cbn [flat_map]. rewrite length_app, IH. destruct (p a); simpl; lia.
Qed.

Lemma trim_length s : length (trim s) <= length s.
Proof.
  unfold trim, trimEnd, trimStart. rewrite length_rev.
  pose proof (dropWhile_length isSpace (rev (dropWhile isSpace s))) as H1.
  pose proof (dropWhile_length isSpace s) as H2. rewrite length_rev in H1. lia.
Qed.

(** The clean-up never makes the text longer. *)
Theorem cleanUp_never_longer (text : str) : length (cleanUp text) <= length text.
Proof.
  rewrite cleanUp_direct.
  pose proof (trim_length (substitute (isChar "|") (lit "I")
                             (collapse isSpace (lit " ") (collapse isNewline (lit " ") text)))).
  rewrite substitute_length in H by reflexivity.
  pose proof (collapse_length isSpace (lit " ") (collapse isNewline (lit " ") text) (le_n 1)).
  pose proof (collapse_length isNewline (lit " ") text (le_n 1)).
  lia.
Qed.

(** Parsing the cleaned text again gives the same question and the same
    diagnostics; only the raw text kept in the record differs. *)
Theorem parsing_cleaned_text_changes_nothing
        (toLowerCase : str -> str) (text file : str) :
  exists q q',
    fst (parseMCQFromText toLowerCase text file) = Some q
    /\ fst (parseMCQFromText toLowerCase (cleanUp text) file) = Some q'
    /\ questionId q' = questionId q
    /\ filename q' = filename q
    /\ question q' = question q
    /\ options q' = options q
    /\ rawText q' = Some (cleanUp text)
    /\ snd (parseMCQFromText toLowerCase (cleanUp text) file)
       = snd (parseMCQFromText toLowerCase text file).
Proof.
  rewrite !parseMCQFromText_eq. cbn [fst snd].
  pose proof (cleanUp_fixes_clean _ (cleanUp_isClean text)) as E.
  set (c := cleanUp text) in *. clearbody c. rewrite E.
  do 2 eexists. split; [reflexivity|]. split; [reflexivity|].
  cbn [questionId filename question options rawText].
  split; [reflexivity|]. split; [reflexivity|]. split; [reflexivity|].
  split; [reflexivity|]. split; reflexivity.
Qed.

(** ** The question id *)

Lemma m_Eps k x : m Eps k x = k x.
Proof. reflexivity. Qed.

Lemma m_Wordb_Some x y : m Wordb Some x = Some y -> y = x.
Proof.
  unfold m. cbv zeta. destruct (xorb _ _); [now intros [= <-] | discriminate].
Qed.

(** Where [[QE]\d{2,4}] can hand over to the rest of the pattern: after a
    letter Q or E and two, three or four digits. *)
Lemma idToken_positions K l s c y :
  m (Seq (Chr (ci (oneOf "QE"))) digits2to4) K (Pos l s c) = Some y ->
  exists q ds rest l',
    s = (q :: ds) ++ rest
    /\ ci (oneOf "QE") q = true
    /\ forallb isDigit ds = true
    /\ 2 <= length ds <= 4
    /\ K (Pos l' rest c) = Some y.
Proof.
  intros H. rewrite m_Seq in H.
  destruct s as [|q s1]; [discriminate H|].
  rewrite m_Chr_cons in H. destruct (ci (oneOf "QE") q) eqn:Hq; [|discriminate H].
  unfold digits2to4, Opt in H. cbn [seqs] in H. rewrite m_Seq in H.
  destruct s1 as [|d1 s2]; [discriminate H|].
  rewrite m_Chr_cons in H. destruct (isDigit d1) eqn:H1; [|discriminate H].
  rewrite m_Seq in H.
  destruct s2 as [|d2 s3]; [discriminate H|].
  rewrite m_Chr_cons in H. destruct (isDigit d2) eqn:H2; [|discriminate H].
  rewrite m_Alt in H.
  destruct (m (Seq (Chr isDigit) (Alt (Chr isDigit) Eps)) K
              (Pos (d2 :: d1 :: q :: l) s3 c)) as [z|] eqn:E3.
  - injection H as ->. rewrite m_Seq in E3.
    destruct s3 as [|d3 s4]; [discriminate E3|].
    rewrite m_Chr_cons in E3. destruct (isDigit d3) eqn:H3; [|discriminate E3].
    rewrite m_Alt in E3.
    destruct (m (Chr isDigit) K (Pos (d3 :: d2 :: d1 :: q :: l) s4 c)) as [z|] eqn:E4.
    + injection E3 as ->.
      destruct s4 as [|d4 s5]; [discriminate E4|].
      rewrite m_Chr_cons in E4. destruct (isDigit d4) eqn:H4; [|discriminate E4].
      exists q, [d1; d2; d3; d4], s5, (d4 :: d3 :: d2 :: d1 :: q :: l).
      cbn [forallb length]. rewrite H1, H2, H3, H4. repeat split; auto; lia.
    + rewrite m_Eps in E3.
      exists q, [d1; d2; d3], s4, (d3 :: d2 :: d1 :: q :: l).
      cbn [forallb length]. rewrite H1, H2, H3. repeat split; auto; lia.
  - rewrite m_Eps in H.
    exists q, [d1; d2], s3, (d2 :: d1 :: q :: l).
    cbn [forallb length]. rewrite H1, H2. repeat split; auto; lia.
Qed.

Lemma startsWith_self (p v : str) : startsWith p (p ++ v) = true.
Proof. induction p as [|a p IH]; [reflexivity|]. simpl. now rewrite N.eqb_refl. Qed.

Lemma includes_middle (u p v : str) : includes p (u ++ p ++ v) = true.
Proof.
  induction u as [|a u IH].
  - destruct (p ++ v) eqn:E; simpl; rewrite <- E, startsWith_self; reflexivity.
  - cbn [app includes]. rewrite IH. apply orb_true_r.
Qed.

(** A match of the id pattern captures a token of that shape, and the token
    stands in the text. *)
Lemma questionIdPattern_capture text f :
  exec questionIdPattern text = Some f ->
  exists q ds,
    group1 f = Some (q :: ds)
    /\ ci (oneOf "QE") q = true
    /\ forallb isDigit ds = true
    /\ 2 <= length ds <= 4
    /\ includes (q :: ds) text = true.
Proof.
  intros H. unfold exec in H.
  destruct (search_found _ _ _ _ H) as (u & v & Ht & Hf & Hm).
  rewrite Hf in Hm. unfold questionIdPattern in Hm. cbn [seqs] in Hm.
  rewrite m_Seq, m_Alt in Hm.
  assert (Hk : exists l1 w s1,
             text = w ++ s1
             /\ m (Seq (Grp (Seq (Chr (ci (oneOf "QE"))) digits2to4)) Wordb) Some
                  (Pos l1 s1 None) = Some (upto f)).
  { destruct (m Bol _ _) as [z|] eqn:Eb.
    - injection Hm as <-. destruct (rev u ++ []) eqn:El; [|discriminate Eb].
      exists [], u, v. split; [exact Ht|]. exact Eb.
    - destruct v as [|c0 v']; [discriminate Hm|].
      rewrite m_Chr_cons in Hm. destruct (isSpace c0); [|discriminate Hm].
      exists (c0 :: rev u ++ []), (u ++ [c0]), v'. split; [|exact Hm].
      rewrite Ht, <- app_assoc. reflexivity. }
  destruct Hk as (l1 & w & s1 & Hw & Hg).
  rewrite m_Seq, m_Grp in Hg.
  apply idToken_positions in Hg as (q & ds & rest & l' & Hs & Hq & Hd & Hlen & Hk).
  cbn [passed ahead] in Hk. apply m_Wordb_Some in Hk.
  exists q, ds. unfold group1. rewrite Hk. cbn [cap].
  rewrite Hs, consumed_prefix. repeat split; auto; try lia.
  rewrite Hw, Hs. apply includes_middle.
Qed.

Lemma m_Wordb_after_word k d l rest c :
  isWord d = true ->
  m Wordb k (Pos (d :: l) rest c)
  = if match rest with c0 :: _ => isWord c0 | [] => false end
    then None else k (Pos (d :: l) rest c).
Proof.
  intros Hd.
  change (m Wordb k (Pos (d :: l) rest c))
    with (if xorb (isWord d) (match rest with c0 :: _ => isWord c0 | [] => false end)
          then k (Pos (d :: l) rest c) else None).
  rewrite Hd. now destruct (match rest with c0 :: _ => isWord c0 | [] => false end).
Qed.

Lemma digit_is_word d : isDigit d = true -> isWord d = true.
Proof. intros H. unfold isWord. rewrite H. now rewrite orb_true_r. Qed.

Lemma not_word_not_digit c : isWord c = false -> isDigit c = false.
Proof.
  unfold isWord. intros H. apply orb_false_iff in H as [H _].
  now apply orb_false_iff in H as [_ H].
Qed.

(** [[QE]\d{2,4}] hands over after all the digits of a token when the rest
    of the pattern matches there. *)
Lemma idToken_taken K l q ds rest c y :
  ci (oneOf "QE") q = true ->
  forallb isDigit ds = true ->
  2 <= length ds <= 4 ->
  match rest with c0 :: _ => isDigit c0 = false | [] => True end ->
  K (Pos (rev ds ++ q :: l) rest c) = Some y ->
  m (Seq (Chr (ci (oneOf "QE"))) digits2to4) K (Pos l ((q :: ds) ++ rest) c) = Some y.
Proof.
  intros Hq Hd Hl Hr HK. cbn [app]. rewrite m_Seq, m_Chr_cons, Hq.
  unfold digits2to4, Opt. cbn [seqs].
  assert (Hstop : forall k l', m (Chr isDigit) k (Pos l' rest c) = None).
  { intros k l'. destruct rest as [|c0 r]; [apply m_Chr_nil|].
    now rewrite m_Chr_cons, Hr. }
  destruct ds as [|d1 [|d2 [|d3 [|d4 [|d5 ds]]]]]; cbn [length] in Hl; try lia;
    cbn [forallb] in Hd; repeat (apply andb_true_iff in Hd as [? Hd]);
    cbn [rev app] in HK; cbn [app].
  - rewrite m_Seq, m_Chr_cons, H, m_Seq, m_Chr_cons, H0, m_Alt, m_Seq.
    rewrite Hstop. now rewrite m_Eps.
  - rewrite m_Seq, m_Chr_cons, H, m_Seq, m_Chr_cons, H0, m_Alt, m_Seq.
    rewrite m_Chr_cons, H1, m_Alt, Hstop, m_Eps. now rewrite HK.
  - rewrite m_Seq, m_Chr_cons, H, m_Seq, m_Chr_cons, H0, m_Alt, m_Seq.
    rewrite m_Chr_cons, H1, m_Alt, m_Chr_cons, H2. now rewrite HK.
Qed.

Lemma idToken_matches l q ds rest :
  ci (oneOf "QE") q = true ->
  forallb isDigit ds = true ->
  2 <= length ds <= 4 ->
  match rest with c :: _ => isWord c = false | [] => True end ->
  exists y,
    m (Seq (Grp (Seq (Chr (ci (oneOf "QE"))) digits2to4)) Wordb) Some
      (Pos l ((q :: ds) ++ rest) None) = Some y.
Proof.
  intros Hq Hd Hl Hr. rewrite m_Seq, m_Grp.
  exists (Pos (rev ds ++ q :: l) rest
            (Some (consumed (Pos l ((q :: ds) ++ rest) None)
                            (Pos (rev ds ++ q :: l) rest None)))).
  apply idToken_taken; try assumption.
  - destruct rest as [|c0 r]; [exact I|now apply not_word_not_digit].
  - cbn [passed ahead].
    assert (Hlast : exists d l', rev ds ++ q :: l = d :: l' /\ isWord d = true).
    { destruct ds as [|d1 ds'] using rev_ind; [simpl in Hl; lia|].
      rewrite rev_app_distr. cbn [rev app]. exists d1, (rev ds' ++ q :: l).
      split; [reflexivity|]. rewrite forallb_app in Hd.
      apply andb_true_iff in Hd as [_ Hd]. cbn in Hd.
      apply digit_is_word. now destruct (isDigit d1). }
    destruct Hlast as (d & l' & E & Hw). rewrite E.
    rewrite (m_Wordb_after_word _ _ _ _ _ Hw).
    destruct rest as [|c0 r]; [reflexivity|]. now rewrite Hr.
Qed.

Lemma search_none_everywhere r u :
  forall v l, search r l (u ++ v) = None -> m r Some (Pos (rev u ++ l) v None) = None.
Proof.
  induction u as [|a u IH]; intros v l H.
  - cbn [app rev] in *. destruct v as [|b v]; cbn [search] in H;
      destruct (m r Some _); [discriminate|reflexivity|discriminate|reflexivity].
  - cbn [app search] in H.
    destruct (m r Some (Pos l (a :: u ++ v) None)); [discriminate|].
    specialize (IH v (a :: l) H). cbn [rev]. now rewrite <- app_assoc.
Qed.

(** The pattern finds a match whenever the text holds an id token. *)
Lemma idToken_found text0 before q ds rest :
  idTokenAt text0 before q ds rest -> exec questionIdPattern text0 <> None.
Proof.
  intros (Ht & Hb & Hq & Hd & Hl & Hr) E. unfold exec in E.
  unfold questionIdPattern in E. cbn [seqs] in E.
  destruct Hb as [-> | (b & s & -> & Hs)].
  - rewrite Ht in E. pose proof (search_none_everywhere _ [] _ _ E) as Hm.
    cbn [rev app] in Hm. rewrite m_Seq, m_Alt, m_Bol_start in Hm.
    destruct (idToken_matches [] q ds rest Hq Hd Hl Hr) as (y & Ey).
    cbn [app] in Ey, Hm. rewrite Ey in Hm. discriminate.
  - rewrite Ht, <- app_assoc in E. pose proof (search_none_everywhere _ b _ _ E) as Hm.
    rewrite m_Seq, m_Alt in Hm.
    destruct (m Bol _ _); [discriminate|].
    cbn [app] in Hm. rewrite m_Chr_cons, Hs in Hm.
    destruct (idToken_matches (s :: rev b ++ []) q ds rest Hq Hd Hl Hr) as (y & Ey).
    cbn [app] in Ey. rewrite Ey in Hm. discriminate.
Qed.

Lemma idToken_positions_digit K l s c y :
  m (Seq (Chr (ci (oneOf "QE"))) digits2to4) K (Pos l s c) = Some y ->
  exists q ds rest d l',
    s = (q :: ds) ++ rest
    /\ ci (oneOf "QE") q = true
    /\ forallb isDigit ds = true
    /\ 2 <= length ds <= 4
    /\ isDigit d = true
    /\ K (Pos (d :: l') rest c) = Some y.
Proof.
  intros H. rewrite m_Seq in H.
  destruct s as [|q s1]; [discriminate H|].
  rewrite m_Chr_cons in H. destruct (ci (oneOf "QE") q) eqn:Hq; [|discriminate H].
  unfold digits2to4, Opt in H. cbn [seqs] in H. rewrite m_Seq in H.
  destruct s1 as [|d1 s2]; [discriminate H|].
  rewrite m_Chr_cons in H. destruct (isDigit d1) eqn:H1; [|discriminate H].
  rewrite m_Seq in H.
  destruct s2 as [|d2 s3]; [discriminate H|].
  rewrite m_Chr_cons in H. destruct (isDigit d2) eqn:H2; [|discriminate H].
  rewrite m_Alt in H.
  destruct (m (Seq (Chr isDigit) (Alt (Chr isDigit) Eps)) K
              (Pos (d2 :: d1 :: q :: l) s3 c)) as [z|] eqn:E3.
  - injection H as ->. rewrite m_Seq in E3.
    destruct s3 as [|d3 s4]; [discriminate E3|].
    rewrite m_Chr_cons in E3. destruct (isDigit d3) eqn:H3; [|discriminate E3].
    rewrite m_Alt in E3.
    destruct (m (Chr isDigit) K (Pos (d3 :: d2 :: d1 :: q :: l) s4 c)) as [z|] eqn:E4.
    + injection E3 as ->.
      destruct s4 as [|d4 s5]; [discriminate E4|].
      rewrite m_Chr_cons in E4. destruct (isDigit d4) eqn:H4; [|discriminate E4].
      exists q, [d1; d2; d3; d4], s5, d4, (d3 :: d2 :: d1 :: q :: l).
      cbn [forallb length]. rewrite H1, H2, H3, H4. repeat split; auto; lia.
    + rewrite m_Eps in E3.
      exists q, [d1; d2; d3], s4, d3, (d2 :: d1 :: q :: l).
      cbn [forallb length]. rewrite H1, H2, H3. repeat split; auto; lia.
  - rewrite m_Eps in H.
    exists q, [d1; d2], s3, d2, (d1 :: q :: l).
    cbn [forallb length]. rewrite H1, H2. repeat split; auto; lia.
Qed.

(** What the pattern finds is an id token, and its capture is the token. *)
Lemma questionIdPattern_token text0 f :
  exec questionIdPattern text0 = Some f ->
  exists before q ds rest,
    idTokenAt text0 before q ds rest /\ group1 f = Some (q :: ds).
Proof.
  intros H. unfold exec in H.
  destruct (search_found _ _ _ _ H) as (u & v & Ht & Hf & Hm).
  rewrite Hf in Hm. unfold questionIdPattern in Hm. cbn [seqs] in Hm.
  rewrite m_Seq, m_Alt in Hm.
  assert (Hk : exists l1 w s1,
             text0 = w ++ s1
             /\ (w = [] \/ exists b s, w = b ++ [s] /\ isSpace s = true)
             /\ m (Seq (Grp (Seq (Chr (ci (oneOf "QE"))) digits2to4)) Wordb) Some
                  (Pos l1 s1 None) = Some (upto f)).
  { destruct (m Bol _ _) as [z|] eqn:Eb.
    - injection Hm as <-. destruct (rev u ++ []) eqn:El; [|discriminate Eb].
      assert (u = []).
      { rewrite app_nil_r in El. apply (f_equal (@rev cu)) in El.
        now rewrite rev_involutive in El. }
      subst u. exists [], [], v. split; [exact Ht|]. split; [now left|exact Eb].
    - destruct v as [|c0 v']; [discriminate Hm|].
      rewrite m_Chr_cons in Hm. destruct (isSpace c0) eqn:Hs; [|discriminate Hm].
      exists (c0 :: rev u ++ []), (u ++ [c0]), v'.
      split; [rewrite Ht, <- app_assoc; reflexivity|].
      split; [right; now exists u, c0|exact Hm]. }
  destruct Hk as (l1 & w & s1 & Hw & Hb & Hg).
  rewrite m_Seq, m_Grp in Hg.
  apply idToken_positions_digit in Hg
    as (q & ds & rest & d & l' & Hs & Hq & Hd & Hlen & Hdig & Hk).
  cbn [passed ahead] in Hk.
  rewrite (m_Wordb_after_word _ _ _ _ _ (digit_is_word _ Hdig)) in Hk.
  exists w, q, ds, rest. split.
  - split; [now rewrite Hw, Hs|]. split; [exact Hb|]. split; [exact Hq|].
    split; [exact Hd|]. split; [exact Hlen|].
    destruct rest as [|c0 r]; [exact I|]. now destruct (isWord c0).
  - destruct (match rest with c0 :: _ => isWord c0 | [] => false end); [discriminate|].
    injection Hk as Hk. unfold group1. rewrite <- Hk. cbn [cap].
    now rewrite Hs, consumed_prefix.
Qed.

(** The question id is never empty.  It is an id token of the text, as
    the pattern delimits it (at the start of the text or after white space,
    a letter Q or E in either case, two to four digits, and no word
    character after them); or the text holds no such token, the pattern
    finds nothing, and the id is "Q_" followed by the file name without its
    first ".png". *)
Theorem question_id_is_token_or_from_file (cleanText file : str) :
  extractQuestionId cleanText file <> []
  /\ ((exists before q ds rest,
          idTokenAt cleanText before q ds rest
          /\ extractQuestionId cleanText file = q :: ds
          /\ ci (oneOf "QE") q = true
          /\ forallb isDigit ds = true
          /\ 2 <= length ds <= 4
          /\ includes (q :: ds) cleanText = true)
      \/ ((forall before q ds rest, ~ idTokenAt cleanText before q ds rest)
          /\ exec questionIdPattern cleanText = None
          /\ extractQuestionId cleanText file
             = lit "Q_" ++ replaceStr (lit ".png") [] file)).
Proof.
  unfold extractQuestionId.
  destruct (exec questionIdPattern cleanText) as [f|] eqn:E.
  - destruct (questionIdPattern_token _ _ E) as (before & q & ds & rest & Ht & Hg).
    unfold group1_or. rewrite Hg. split; [discriminate|].
    left. exists before, q, ds, rest.
    pose proof Ht as (Hc & _ & Hq & Hd & Hl & _).
    split; [exact Ht|]. split; [reflexivity|]. split; [exact Hq|].
    split; [exact Hd|]. split; [exact Hl|].
    rewrite Hc. apply includes_middle.
  - cbn [group1_or]. split; [discriminate|]. right.
    split; [|split; reflexivity].
    intros before q ds rest Ht. exact (idToken_found _ _ _ _ _ Ht E).
Qed.

(** A letter Q and digits inside brackets or inside a word are no id
    token: the id then comes from the file name. *)
Lemma bracketed_id_is_not_a_token :
  extractQuestionId (lit "(Q12) foo") (lit "f.png") = lit "Q_f"
  /\ extractQuestionId (lit "xQ12 Q12345 Q99_") (lit "f.png") = lit "Q_f".
Proof. split; reflexivity. Qed.

Lemma startsWith_app_long (p a r : str) :
  length p <= length a -> startsWith p (a ++ r) = startsWith p a.
Proof.
  revert a. induction p as [|x p IH]; intros a H; [reflexivity|].
  destruct a as [|y a]; [simpl in H; lia|].
  cbn [app startsWith]. rewrite IH by (simpl in H; lia). reflexivity.
Qed.

(** ".png" cannot start inside a text that does not hold it and end in a
    ".png" put after the text: its only full stop is its first character. *)
Lemma startsWith_png_overlap (a b : str) :
  a <> [] -> startsWith (lit ".png") a = false ->
  startsWith (lit ".png") (a ++ lit ".png" ++ b) = false.
Proof.
  intros Hn H.
  destruct a as [|x [|y [|z [|w a']]]]; [contradiction| | | |].
  - cbn. now rewrite !andb_false_r.
  - cbn. now rewrite !andb_false_r.
  - cbn. now rewrite !andb_false_r.
  - rewrite startsWith_app_long; [exact H|simpl; lia].
Qed.

Lemma replaceStr_first_png (a b : str) :
  includes (lit ".png") a = false ->
  replaceStr (lit ".png") [] (a ++ lit ".png" ++ b) = a ++ b.
Proof.
  induction a as [|x a IH]; intros H.
  - reflexivity.
  - cbn [includes] in H. apply orb_false_iff in H as [H1 H2].
    cbn [app replaceStr].
    change (x :: a ++ lit ".png" ++ b) with ((x :: a) ++ lit ".png" ++ b).
    rewrite startsWith_png_overlap by (discriminate || exact H1).
    cbn [app]. now rewrite IH.
Qed.

(** For a file "base.png" whose base holds no ".png", a text without an id
    token gets the id "Q_base". *)
Theorem question_id_of_png_file (cleanText base : str) :
  exec questionIdPattern cleanText = None ->
  includes (lit ".png") base = false ->
  extractQuestionId cleanText (base ++ lit ".png") = lit "Q_" ++ base.
Proof.
  intros He Hb. unfold extractQuestionId. rewrite He. cbn [group1_or].
  replace (base ++ lit ".png") with (base ++ lit ".png" ++ []) by reflexivity.
  now rewrite replaceStr_first_png, app_nil_r.
Qed.

Lemma question_id_of_png_file_witness :
  exec questionIdPattern (lit "Which solution?") = None
  /\ includes (lit ".png") (lit "sample") = false
  /\ extractQuestionId (lit "Which solution?") (lit "sample.png") = lit "Q_sample".
Proof.
  split; [reflexivity|]. split; [reflexivity|].
  exact (question_id_of_png_file (lit "Which solution?") (lit "sample") eq_refl eq_refl).
Defined.

(** ** The question body *)

Lemma infix_refl (s : str) : infix s s.
Proof. exists [], []. now rewrite app_nil_r. Qed.

Lemma infix_trans (x y z : str) : infix x y -> infix y z -> infix x z.
Proof.
  intros (u & v & ->) (u' & v' & ->). exists (u' ++ u), (v ++ v').
  now rewrite <- !app_assoc.
Qed.

Lemma infix_firstn (n : nat) (s : str) : infix (firstn n s) s.
Proof. exists [], (skipn n s). cbn [app]. now rewrite firstn_skipn. Qed.

Lemma infix_skipn (n : nat) (s : str) : infix (skipn n s) s.
Proof. exists (firstn n s), []. now rewrite app_nil_r, firstn_skipn. Qed.

Lemma infix_dropWhile p (s : str) : infix (dropWhile p s) s.
Proof.
  exists (takeWhile p s), []. now rewrite app_nil_r, takeWhile_dropWhile.
Qed.

Lemma infix_trimEnd (s : str) : infix (trimEnd s) s.
Proof. exists [], (rev (takeWhile isSpace (rev s))). cbn [app]. apply trimEnd_prefix. Qed.

Lemma infix_trim (s : str) : infix (trim s) s.
Proof.
  unfold trim, trimStart.
  exact (infix_trans _ _ _ (infix_trimEnd _) (infix_dropWhile _ _)).
Qed.

Lemma infix_substring (a b : nat) (s : str) : infix (substring a b s) s.
Proof.
  unfold substring. exact (infix_trans _ _ _ (infix_firstn _ _) (infix_skipn _ _)).
Qed.

Lemma infix_length (x s : str) : infix x s -> length x <= length s.
Proof. intros (u & v & ->). rewrite !length_app. lia. Qed.

Lemma infix_includes (x s : str) : infix x s -> includes x s = true.
Proof. intros (u & v & ->). apply includes_middle. Qed.

Lemma singleSpaced_weaken (s : str) b :
  singleSpaced b s = true -> singleSpaced false s = true.
Proof.
  destruct s as [|a t]; [reflexivity|]. cbn [singleSpaced].
  destruct (isSpace a); [|auto]. intros H.
  apply andb_true_iff in H as [H1 H2]. apply andb_true_iff in H1 as [H1 _].
  now rewrite H1, H2.
Qed.

Lemma singleSpaced_suffix (u v : str) :
  forall b, singleSpaced b (u ++ v) = true -> singleSpaced false v = true.
Proof.
  induction u as [|a u IH]; intros b H.
  - exact (singleSpaced_weaken _ _ H).
  - cbn [app singleSpaced] in H. destruct (isSpace a).
    + apply andb_true_iff in H as [_ H]. exact (IH _ H).
    + exact (IH _ H).
Qed.

Lemma singleSpaced_infix (x s : str) b :
  infix x s -> singleSpaced b s = true -> singleSpaced false x = true.
Proof.
  intros (u & v & ->) H. apply singleSpaced_suffix in H.
  exact (singleSpaced_prefix _ _ _ H).
Qed.

(** The text the fallback chain chooses is a piece of the text after the
    question id. *)
Lemma chosenQuestionText_infix (after : str) : infix (chosenQuestionText after) after.
Proof.
  destruct (chosenQuestionText_cases after)
    as [(_ & ->) | [(_ & _ & u & Hu & ->) | (_ & _ & _ & ->)]].
  - unfold beforeOptions.
    exact (infix_trans _ _ _ (infix_trim _) (infix_substring _ _ _)).
  - destruct (throughLast_split _ _ _ Hu) as (_ & _ & v & _ & _ & E & _).
    apply (infix_trans _ u); [apply infix_trim|].
    exists [], v. exact E.
  - destruct (50 <? length (trim (substring 0 500 after))).
    + exact (infix_trans _ _ _ (infix_trim _) (infix_substring _ _ _)).
    + exists [], after. reflexivity.
Qed.

Lemma textAfterQuestionId_infix (cleanText : str) :
  infix (textAfterQuestionId cleanText) cleanText.
Proof.
  unfold textAfterQuestionId.
  destruct (exec questionIdPrefixPattern cleanText); [apply infix_skipn|apply infix_refl].
Qed.

Lemma trim_head a (s : str) :
  isSpace a = false -> exists t, trim (a :: s) = a :: t.
Proof.
  intros Ha. unfold trim, trimStart. cbn [dropWhile]. rewrite Ha.
  unfold trimEnd. cbn [rev].
  assert (H : exists w, dropWhile isSpace (rev s ++ [a]) = w ++ [a]).
  { induction (rev s) as [|y w IH]; cbn [app dropWhile].
    - rewrite Ha. now exists [].
    - destruct (isSpace y); [exact IH|]. now exists (y :: w). }
  destruct H as (w & ->). rewrite rev_app_distr. cbn. now exists (rev w).
Qed.

(** What the tidy-up of lines 98-101 leaves: nothing, or a text that starts
    with a letter; single spaces as the only white space, none at the end;
    and no more code units than it was given. *)
Lemma tidyQuestion_shape (t : str) :
  (tidyQuestion t = [] \/ exists a r, tidyQuestion t = a :: r /\ isLetter a = true)
  /\ singleSpaced true (tidyQuestion t) = true
  /\ endsClean (tidyQuestion t) = true
  /\ length (tidyQuestion t) <= length t.
Proof.
  rewrite tidyQuestion_direct.
  pose proof (dropWhile_length (notIn isLetter) t) as Hd.
  pose proof (collapse_length isSpace (lit " ") (dropWhile (notIn isLetter) t) (le_n 1)) as Hc.
  pose proof (trim_length (collapse isSpace (lit " ") (dropWhile (notIn isLetter) t))) as Ht.
  assert (He : endsClean (trim (collapse isSpace (lit " ") (dropWhile (notIn isLetter) t))) = true)
    by apply trimEnd_endsClean.
  destruct (dropWhile (notIn isLetter) t) as [|a d] eqn:E.
  - repeat split; [now left | simpl in *; lia].
  - apply dropWhile_head in E. unfold notIn in E. apply negb_false_iff in E.
    pose proof (letter_not_space a E) as Ha.
    pose proof (proj2 (collapse_spaced (a :: d)) Ha) as Hs.
    rewrite collapse_keep in * by exact Ha.
    destruct (trim_head a (collapse isSpace (lit " ") d) Ha) as (r & Er).
    split; [right; exists a, r; now split|].
    split; [|split; [exact He|lia]].
    unfold trim, trimStart in *. cbn [dropWhile] in *. rewrite Ha in *.
    rewrite (trimEnd_prefix (a :: collapse isSpace (lit " ") d)) in Hs.
    exact (singleSpaced_prefix _ _ _ Hs).
Qed.

(** The question body after the tidy-up: it is empty or starts with a
    letter, its only white space is single spaces, none at its end, and it
    is not longer than the text it is taken from. *)
Theorem question_body_is_tidy (cleanText : str) :
  (questionBody cleanText = []
   \/ exists a t, questionBody cleanText = a :: t /\ isLetter a = true)
  /\ singleSpaced true (questionBody cleanText) = true
  /\ endsClean (questionBody cleanText) = true
  /\ length (questionBody cleanText) <= length cleanText.
Proof.
  unfold questionBody.
  pose proof (infix_length _ _ (infix_trans _ _ _
                (chosenQuestionText_infix _) (textAfterQuestionId_infix cleanText))) as Hl.
  destruct (tidyQuestion_shape (chosenQuestionText (textAfterQuestionId cleanText)))
    as (H1 & H2 & H3 & H4).
  split; [exact H1|]. split; [exact H2|]. split; [exact H3|lia].
Qed.

(** The question body is copied from the cleaned text: it is a run of
    consecutive code units of the text the clean-up returns. *)
Theorem question_body_is_copied (text : str) :
  infix (questionBody (cleanUp text)) (cleanUp text)
  /\ includes (questionBody (cleanUp text)) (cleanUp text) = true.
Proof.
  assert (H : infix (questionBody (cleanUp text)) (cleanUp text)).
  { pose proof (cleanUp_isClean text) as Hc. unfold isClean in Hc.
    apply andb_true_iff in Hc as [Hc _]. apply andb_true_iff in Hc as [Hc _].
    set (c := cleanUp text) in *. clearbody c.
    unfold questionBody. rewrite tidyQuestion_direct.
    pose proof (infix_trans _ _ _ (chosenQuestionText_infix _)
                  (textAfterQuestionId_infix c)) as Hi.
    set (t := chosenQuestionText (textAfterQuestionId c)) in *. clearbody t.
    pose proof (infix_trans _ _ _ (infix_dropWhile (notIn isLetter) t) Hi) as Hd.
    rewrite (collapse_spaced_id _ false (singleSpaced_infix _ _ _ Hd Hc)).
    exact (infix_trans _ _ _ (infix_trim _) Hd). }
  split; [exact H|exact (infix_includes _ _ H)].
Qed.

(** The body is a piece of the cleaned text, not of the OCR text: here the
    clean-up has turned the vertical bar into "I". *)
Lemma question_body_is_not_in_the_ocr_text :
  questionBody (cleanUp (lit "Which | is best? yes")) = lit "Which I is best?"
  /\ includes (questionBody (cleanUp (lit "Which | is best? yes")))
              (lit "Which | is best? yes") = false.
Proof. split; vm_compute; reflexivity. Qed.

(** ** Matches are pieces of the text *)

Lemma reaches_refl x : reaches x x.
Proof. now exists []. Qed.

Lemma reaches_trans x y z : reaches x y -> reaches y z -> reaches x z.
Proof.
  intros (u & E1 & E2) (v & E3 & E4). exists (u ++ v).
  rewrite E1, E3, E4, E2, rev_app_distr, <- !app_assoc. auto.
Qed.

Lemma reaches_whole x y : reaches x y -> whole y = whole x.
Proof.
  intros (u & E1 & E2). unfold whole.
  now rewrite E1, E2, rev_app_distr, rev_involutive, <- app_assoc.
Qed.

Lemma reaches_consumed x y :
  reaches x y -> ahead x = consumed x y ++ ahead y.
Proof.
  intros (u & E1 & _). unfold consumed. rewrite E1 at 1 2 3.
  rewrite length_app. replace (length u + length (ahead y) - length (ahead y))
    with (length u) by lia.
  now rewrite firstn_prefix.
Qed.

Lemma reaches_same_text x y c : reaches x y -> reaches x (Pos (passed y) (ahead y) c).
Proof. intros (u & E1 & E2). now exists u. Qed.

Lemma starLoop_sound g step k n :
  (forall k' x z, capInText x -> step k' x = Some z ->
     exists y, reaches x y /\ capInText y /\ k' y = Some z) ->
  forall x z, capInText x -> starLoop g step k n x = Some z ->
    exists y, reaches x y /\ capInText y /\ k y = Some z.
Proof.
  intros Hstep. induction n as [|n IH]; intros x z Hx H; [discriminate|].
  cbn [starLoop] in H.
  set (again := fun y => if length (ahead y) <? length (ahead x)
                         then starLoop g step k n y else None) in H.
  assert (Hagain : forall z', step again x = Some z' ->
            exists y, reaches x y /\ capInText y /\ k y = Some z').
  { intros z' E. destruct (Hstep _ _ _ Hx E) as (y & Hr & Hc & Hy).
    unfold again in Hy. destruct (length (ahead y) <? length (ahead x)); [|discriminate].
    destruct (IH _ _ Hc Hy) as (y' & Hr' & Hc' & Hy').
    exists y'. split; [exact (reaches_trans _ _ _ Hr Hr')|auto]. }
  destruct g.
  - destruct (step again x) as [z'|] eqn:E.
    + injection H as <-. now apply Hagain.
    + exists x. split; [apply reaches_refl|auto].
  - destruct (k x) as [z'|] eqn:E.
    + injection H as <-. exists x. split; [apply reaches_refl|auto].
    + now apply Hagain.
Qed.

(** A successful match hands to its continuation a position further on in
    the same text, whose capture is a piece of that text. *)
Lemma m_sound r :
  forall k x z, capInText x -> m r k x = Some z ->
    exists y, reaches x y /\ capInText y /\ k y = Some z.
Proof.
  induction r as [|p|r1 IH1 r2 IH2|r1 IH1 r2 IH2|g r1 IH1|r1 IH1|r1 IH1| | |];
    intros k x z Hx H.
  - rewrite m_Eps in H. exists x. split; [apply reaches_refl|auto].
  - destruct x as [l s c]. destruct s as [|a t]; [now rewrite m_Chr_nil in H|].
    rewrite m_Chr_cons in H. destruct (p a); [|discriminate].
    exists (Pos (a :: l) t c). split; [exists [a]; split; reflexivity|].
    split; [|exact H].
    intros c' Hc'. specialize (Hx c' Hc'). unfold whole in *. cbn in *.
    now rewrite <- app_assoc.
  - rewrite m_Seq in H. destruct (IH1 _ _ _ Hx H) as (y & Hr & Hc & Hy).
    destruct (IH2 _ _ _ Hc Hy) as (y' & Hr' & Hc' & Hy').
    exists y'. split; [exact (reaches_trans _ _ _ Hr Hr')|auto].
  - rewrite m_Alt in H. destruct (m r1 k x) as [z'|] eqn:E.
    + injection H as <-. now apply IH1.
    + now apply IH2.
  - rewrite m_Star in H. exact (starLoop_sound g (m r1) k _ IH1 _ _ Hx H).
  - rewrite m_Grp in H. destruct (IH1 _ _ _ Hx H) as (y & Hr & Hc & Hy).
    exists (Pos (passed y) (ahead y) (Some (consumed x y))).
    split; [now apply reaches_same_text|]. split; [|exact Hy].
    intros c [= <-]. unfold whole. cbn [passed ahead].
    change (infix (consumed x y) (whole y)). rewrite (reaches_whole _ _ Hr).
    unfold whole. rewrite (reaches_consumed _ _ Hr) at 1.
    now exists (rev (passed x)), (ahead y).
  - rewrite m_Ahead in H. destruct (m r1 Some x) as [y|] eqn:E; [|discriminate].
    destruct (IH1 _ _ _ Hx E) as (y' & Hr & Hc & [= ->]).
    exists (Pos (passed x) (ahead x) (cap y)).
    split; [apply (reaches_same_text x x), reaches_refl|]. split; [|exact H].
    intros c Hc'. cbn [cap] in Hc'. specialize (Hc c Hc').
    rewrite (reaches_whole _ _ Hr) in Hc. exact Hc.
  - change (m Bol k x) with (match passed x with [] => k x | _ :: _ => None end) in H.
    destruct (passed x); [|discriminate].
    exists x. split; [apply reaches_refl|auto].
  - change (m Eol k x) with (match ahead x with [] => k x | _ :: _ => None end) in H.
    destruct (ahead x); [|discriminate].
    exists x. split; [apply reaches_refl|auto].
  - change (m Wordb k x)
      with (if xorb (match passed x with c :: _ => isWord c | [] => false end)
                    (match ahead x with c :: _ => isWord c | [] => false end)
            then k x else None) in H.
    destruct (xorb _ _); [|discriminate].
    exists x. split; [apply reaches_refl|auto].
Qed.

(** What [exec] finds in a text: the text is what precedes the match, the
    match and what follows it, and a capture is a piece of the text. *)
Lemma search_sound r s :
  forall l f, search r l s = Some f ->
    s = firstn (index f - length l) s ++ matched f ++ ahead (upto f)
    /\ passed (upto f) = rev (firstn (index f - length l) s ++ matched f) ++ l
    /\ forall c, group1 f = Some c -> infix c (rev l ++ s).
Proof.
  intros l f H. destruct (search_found _ _ _ _ H) as (u & v & -> & Ef & Hm).
  assert (Hx : capInText (from f)) by (rewrite Ef; intros c; discriminate).
  destruct (m_sound _ _ _ _ Hx Hm) as (y & Hr & Hc & [= ->]).
  unfold index, matched, group1. rewrite Ef in *. cbn [passed ahead] in *.
  rewrite length_app, length_rev.
  replace (length u + length l - length l) with (length u) by lia.
  rewrite firstn_prefix.
  pose proof (reaches_consumed _ _ Hr) as E. cbn [ahead] in E.
  split; [now rewrite <- E|]. split.
  - destruct Hr as (w & E1 & E2). cbn [passed ahead] in *.
    rewrite E2. unfold consumed. cbn [ahead]. rewrite E1 at 1 2.
    rewrite length_app.
    replace (length w + length (ahead (upto f)) - length (ahead (upto f)))
      with (length w) by lia.
    now rewrite firstn_prefix, rev_app_distr, <- app_assoc.
  - intros c Hcap. specialize (Hc c Hcap). rewrite (reaches_whole _ _ Hr) in Hc.
    unfold whole in Hc. cbn [passed ahead] in Hc.
    now rewrite rev_app_distr, rev_involutive, <- app_assoc in Hc.
Qed.

Lemma exec_sound r s f :
  exec r s = Some f ->
  s = firstn (index f) s ++ matched f ++ ahead (upto f)
  /\ forall c, group1 f = Some c -> infix c s.
Proof.
  intros H. destruct (search_sound _ _ _ _ H) as (E & _ & Hc).
  cbn [length] in E. rewrite Nat.sub_0_r in E. split; [exact E|exact Hc].
Qed.

Lemma infix_nil (s : str) : infix [] s.
Proof. now exists [], s. Qed.

Lemma infix_suffix (u v : str) : infix v (u ++ v).
Proof. exists u, []. now rewrite app_nil_r. Qed.

Lemma group1_or_infix r s : infix (group1_or [] (exec r s)) s.
Proof.
  unfold group1_or. destruct (exec r s) as [f|] eqn:E; [|apply infix_nil].
  destruct (group1 f) as [[|c t]|] eqn:Eg; try apply infix_nil.
  exact (proj2 (exec_sound _ _ _ E) _ Eg).
Qed.

Lemma splitFrom_infix r fuel :
  forall l s piece,
    Forall (fun x => infix x (rev piece ++ s)) (splitFrom fuel r l s piece).
Proof.
  induction fuel as [|fuel IH]; intros l s piece; cbn [splitFrom].
  - constructor; [apply infix_refl|constructor].
  - destruct s as [|c t].
    + constructor; [|constructor]. exists [], []. reflexivity.
    + assert (Hskip : Forall (fun x => infix x (rev piece ++ c :: t))
                        (splitFrom fuel r (c :: l) t (c :: piece))).
      { specialize (IH (c :: l) t (c :: piece)). cbn [rev] in IH.
        now rewrite <- app_assoc in IH. }
      destruct (m r Some (Pos l (c :: t) None)) as [y|] eqn:E; [|exact Hskip].
      assert (Hcut : Forall (fun x => infix x (rev piece ++ c :: t))
                       (rev piece :: splitFrom fuel r (passed y) (ahead y) [])).
      { constructor; [now exists [], (c :: t)|].
        assert (Hx : capInText (Pos l (c :: t) None)) by (intros ?; discriminate).
        destruct (m_sound _ _ _ _ Hx E) as (y' & (u & E1 & _) & _ & [= ->]).
        cbn [ahead] in E1. rewrite E1.
        eapply Forall_impl; [|apply (IH (passed y) (ahead y) [])].
        intros x Hi. cbn [rev app] in Hi.
        apply (infix_trans _ _ _ Hi). rewrite app_assoc. apply infix_suffix. }
      destruct (consumed (Pos l (c :: t) None) y); destruct piece; assumption.
Qed.

Lemma split_infix r s : Forall (fun x => infix x s) (split r s).
Proof.
  unfold split. destruct s as [|c t].
  - destruct (m r Some (Pos [] [] None)); repeat constructor. apply infix_refl.
  - apply (splitFrom_infix r _ [] (c :: t) []).
Qed.

Lemma matchAllFrom_infix r fuel :
  forall l s, Forall (fun x => infix x s) (matchAllFrom fuel r l s).
Proof.
  induction fuel as [|fuel IH]; intros l s; cbn [matchAllFrom]; [constructor|].
  destruct (search r l s) as [f|] eqn:E; [|constructor].
  destruct (search_sound _ _ _ _ E) as (Es & _ & _).
  set (a := firstn (index f - length l) s) in Es.
  constructor.
  - now exists a, (ahead (upto f)).
  - assert (Hrest : infix (ahead (upto f)) s).
    { exists (a ++ matched f), []. now rewrite app_nil_r, <- app_assoc. }
    destruct (matched f); destruct (ahead (upto f)) as [|c0 t] eqn:Ea.
    + constructor.
    + eapply Forall_impl; [|apply IH]. intros x Hx. cbn beta in Hx.
      apply (infix_trans _ _ _ Hx). apply (infix_trans _ (c0 :: t)); [|exact Hrest].
      apply (infix_suffix [c0] t).
    + eapply Forall_impl; [|apply IH]. intros x Hx. cbn beta in Hx.
      exact (infix_trans _ _ _ Hx Hrest).
    + eapply Forall_impl; [|apply IH]. intros x Hx. cbn beta in Hx.
      exact (infix_trans _ _ _ Hx Hrest).
Qed.

Lemma matchAll_infix r s : Forall (fun x => infix x s) (matchAll r s).
Proof. apply matchAllFrom_infix. Qed.

(** ** Where the option texts come from *)

Lemma optionText_infix cleanText letter : infix (optionText cleanText letter) cleanText.
Proof.
  unfold optionText.
  destruct (keepLonger_fold cleanText (patterns letter) []) as (H & _).
  cbn zeta in H. destruct H as [-> | H]; [apply infix_nil|].
  apply in_map_iff in H as (p & <- & _).
  exact (infix_trans _ _ _ (infix_trim _) (group1_or_infix _ _)).
Qed.

Lemma optionText_endsClean cleanText letter :
  endsClean (optionText cleanText letter) = true.
Proof.
  unfold optionText.
  destruct (keepLonger_fold cleanText (patterns letter) []) as (H & _).
  cbn zeta in H. destruct H as [-> | H]; [reflexivity|].
  apply in_map_iff in H as (p & <- & _). apply trimEnd_endsClean.
Qed.

(** On a piece of a single-spaced text the white-space collapse of the
    tidy-ups changes nothing. *)
Lemma tidied_chunk (c t : str) b :
  singleSpaced b c = true -> infix t c ->
  replaceAll spaces1 (lit " ") (trim t) = trim t /\ infix (trim t) c.
Proof.
  intros Hc Hi. pose proof (infix_trans _ _ _ (infix_trim t) Hi) as Ht.
  split; [|exact Ht]. unfold spaces1. rewrite replaceAll_plus.
  exact (collapse_spaced_id _ _ (singleSpaced_infix _ _ _ Ht Hc)).
Qed.

Lemma tidyOption_infix (c t : str) b :
  singleSpaced b c = true -> infix t c -> infix (tidyOption t) c.
Proof.
  intros Hc Hi. unfold tidyOption, spaces1, leadingNonLetters.
  rewrite replaceAll_plus, replaceFirst_leading.
  rewrite (collapse_spaced_id _ _ (singleSpaced_infix _ _ _ Hi Hc)).
  exact (infix_trans _ _ _ (infix_trim _) (infix_trans _ _ _ (infix_dropWhile _ _) Hi)).
Qed.

Lemma In_labeledOptions cleanText o :
  In o (labeledOptions cleanText) ->
  In (id o) optionPatterns
  /\ text o = tidyOption (optionText cleanText (id o))
  /\ 5 < length (text o).
Proof.
  unfold labeledOptions. intros H. apply in_flat_map in H as (letter & Hl & Ho).
  destruct (labeledOption_cases cleanText letter) as [[E _]|[E H5]]; rewrite E in Ho.
  - destruct Ho.
  - destruct Ho as [<-|[]]. cbn [id text]. auto.
Qed.

(** The texts of the labeled pass: each starts with a letter, has single
    spaces as its only white space, none at its end, and more than five
    code units. *)
Theorem labeled_option_texts_are_tidy (cleanText : str) :
  Forall (fun o => In (id o) optionPatterns
                   /\ 5 < length (text o)
                   /\ (exists a t, text o = a :: t /\ isLetter a = true)
                   /\ singleSpaced true (text o) = true
                   /\ endsClean (text o) = true)
         (labeledOptions cleanText).
Proof.
  apply Forall_forall. intros o Ho.
  destruct (In_labeledOptions _ _ Ho) as (Hid & Et & H5).
  split; [exact Hid|]. split; [exact H5|].
  pose proof (optionText_endsClean cleanText (id o)) as He.
  rewrite (tidyOption_direct _ He) in Et.
  pose proof (endsClean_dropWhile (notIn isLetter) _
                (collapse_endsClean (lit " ") _ He)) as Hd.
  pose proof (proj1 (collapse_spaced (optionText cleanText (id o)))) as Hs.
  pose proof (singleSpaced_infix _ _ _ (infix_dropWhile (notIn isLetter) _) Hs) as Hs'.
  rewrite <- Et in Hd, Hs'.
  destruct (text o) as [|a t] eqn:E; [simpl in H5; lia|].
  symmetry in Et. apply dropWhile_head in Et. unfold notIn in Et.
  apply negb_false_iff in Et.
  split; [now exists a, t|]. split; [|exact Hd].
  cbn [singleSpaced] in Hs' |- *. now rewrite (letter_not_space a Et) in *.
Qed.

Lemma firstOptionChunk_copied (c : str) b chunks :
  singleSpaced b c = true ->
  Forall (fun chunk => infix chunk c /\ 30 < length (trim chunk)) chunks ->
  Forall (fun t => infix t c /\ 30 < length t) (firstOptionChunk chunks).
Proof.
  intros Hc. induction 1 as [|chunk chunks [Hi Hl] _ IH]; cbn [firstOptionChunk];
    [constructor|].
  destruct (tidied_chunk c chunk b Hc Hi) as (E & Ht). rewrite E.
  destruct (looksLikeOption (trim chunk)); [|exact IH].
  constructor; [split; assumption|constructor].
Qed.

Lemma betweenMarkers_copied (c : str) b x y :
  singleSpaced b c = true ->
  Forall (fun t => infix t c /\ 30 < length t) (betweenMarkers c x y).
Proof.
  intros Hc. unfold betweenMarkers.
  destruct (50 <? length (trim (substring (mend x) (mstart y) c))); [|constructor].
  apply (firstOptionChunk_copied c b _ Hc).
  apply Forall_forall. intros chunk Hin. apply filter_In in Hin as [Hin Hl].
  apply Nat.ltb_lt in Hl. split; [|exact Hl].
  pose proof (split_infix chunkSeparator (trim (substring (mend x) (mstart y) c))) as Hs.
  rewrite Forall_forall in Hs.
  exact (infix_trans _ _ _ (Hs _ Hin)
           (infix_trans _ _ _ (infix_trim _) (infix_substring _ _ _))).
Qed.

Lemma gapCandidates_copied (c : str) b positions :
  singleSpaced b c = true ->
  Forall (fun t => infix t c /\ 30 < length t) (gapCandidates c positions).
Proof.
  intros Hc. induction positions as [|x rest IH]; cbn [gapCandidates]; [constructor|].
  destruct rest as [|y rest']; [constructor|].
  apply Forall_app. split; [now apply (betweenMarkers_copied c b)|exact IH].
Qed.

Section OptionTexts.
Variable toLowerCase : str -> str.

Lemma addSentence_copied (c : str) b opts sentences :
  singleSpaced b c = true ->
  Forall (fun s => infix s c) sentences ->
  forall acc,
    Forall (fun t => infix t c /\ 30 < length t) acc ->
    Forall (fun t => infix t c /\ 30 < length t)
           (fold_left (addSentence toLowerCase opts) sentences acc).
Proof.
  intros Hc. induction 1 as [|s sentences Hi _ IH]; intros acc Hacc; cbn [fold_left];
    [exact Hacc|].
  apply IH. unfold addSentence.
  destruct (tidied_chunk c s b Hc Hi) as (E & Ht). rewrite E.
  destruct (negb (alreadyFound toLowerCase opts acc (trim s))); cbn [andb]; [|exact Hacc].
  destruct (Nat.ltb_spec 40 (length (trim s))); [|exact Hacc].
  apply Forall_app. split; [exact Hacc|].
  constructor; [split; [exact Ht|lia]|constructor].
Qed.

Lemma candidateTexts_copied (c : str) b opts :
  singleSpaced b c = true ->
  Forall (fun t => infix t c /\ 30 < length t) (candidateTexts toLowerCase c opts).
Proof.
  intros Hc. unfold candidateTexts.
  pose proof (gapCandidates_copied c b (optionPositions c opts) Hc) as Hg.
  destruct (_ <? _); [|exact Hg].
  exact (addSentence_copied c b opts _ Hc (matchAll_infix _ _) _ Hg).
Qed.

Lemma In_inferredOptions cleanText opts o :
  In o (inferredOptions toLowerCase cleanText opts) ->
  In (id o) (missingIds opts) /\ In (text o) (candidateTexts toLowerCase cleanText opts).
Proof.
  unfold inferredOptions. intros H. apply in_map_iff in H as ([i t] & <- & H).
  cbn [id text fst snd]. split; [exact (in_combine_l _ _ _ _ H)|exact (in_combine_r _ _ _ _ H)].
Qed.

Lemma inferredOptions_copied (c : str) b (opts : list MCQOption) :
  singleSpaced b c = true ->
  Forall (fun o => In (id o) (missingIds opts)
                   /\ In (id o) optionPatterns
                   /\ 30 < length (text o)
                   /\ infix (text o) c)
         (inferredOptions toLowerCase c opts).
Proof.
  intros Hc. apply Forall_forall. intros o Ho.
  destruct (In_inferredOptions _ _ _ Ho) as (Hid & Ht).
  pose proof (candidateTexts_copied c b opts Hc) as Hall.
  rewrite Forall_forall in Hall. destruct (Hall _ Ht) as (Hi & Hl).
  split; [exact Hid|]. split; [|split; assumption].
  unfold missingIds in Hid. now apply filter_In in Hid.
Qed.

Lemma cleanUp_singleSpaced text0 : singleSpaced true (cleanUp text0) = true.
Proof.
  pose proof (cleanUp_isClean text0) as Hc. unfold isClean in Hc.
  apply andb_true_iff in Hc as [Hc _]. now apply andb_true_iff in Hc as [Hc _].
Qed.

(** The options inferred for the missing letters, on a cleaned text: each
    takes a letter the labeled pass did not find, and its text is a piece
    of the cleaned text of more than 30 code units. *)
Theorem inferred_options_are_copied (text0 : str) (opts : list MCQOption) :
  Forall (fun o => In (id o) (missingIds opts)
                   /\ In (id o) optionPatterns
                   /\ 30 < length (text o)
                   /\ infix (text o) (cleanUp text0))
         (inferredOptions toLowerCase (cleanUp text0) opts).
Proof. exact (inferredOptions_copied _ true opts (cleanUp_singleSpaced text0)). Qed.

(** Every option of the returned question carries one of the letters A to
    D, and its text is copied from the cleaned text: a run of more than
    five consecutive code units of it. *)
Theorem option_texts_are_copied (text0 file : str) :
  exists q,
    fst (parseMCQFromText toLowerCase text0 file) = Some q
    /\ Forall (fun o => In (id o) optionPatterns
                        /\ 5 < length (text o)
                        /\ infix (text o) (cleanUp text0)
                        /\ includes (text o) (cleanUp text0) = true)
              (options q).
Proof.
  rewrite parseMCQFromText_eq. cbn [fst]. eexists. split; [reflexivity|].
  cbn [options].
  pose proof (cleanUp_isClean text0) as Hc. unfold isClean in Hc.
  apply andb_true_iff in Hc as [Hc _]. apply andb_true_iff in Hc as [Hc _].
  pose proof (inferredOptions_copied _ true (labeledOptions (cleanUp text0)) Hc) as Hinf.
  set (c := cleanUp text0) in *. clearbody c.
  assert (Hlab : Forall (fun o => In (id o) optionPatterns /\ 5 < length (text o)
                                  /\ infix (text o) c /\ includes (text o) c = true)
                        (labeledOptions c)).
  { apply Forall_forall. intros o Ho.
    destruct (In_labeledOptions _ _ Ho) as (Hid & Et & H5).
    assert (Hi : infix (text o) c).
    { rewrite Et. exact (tidyOption_infix c _ true Hc (optionText_infix c (id o))). }
    split; [exact Hid|]. split; [exact H5|]. split; [exact Hi|exact (infix_includes _ _ Hi)]. }
  assert (Hinf' : Forall (fun o => In (id o) optionPatterns /\ 5 < length (text o)
                                   /\ infix (text o) c /\ includes (text o) c = true)
                         (inferredOptions toLowerCase c (labeledOptions c))).
  { eapply Forall_impl; [|exact Hinf]. intros o (_ & Hid & Hl & Hi).
    split; [exact Hid|]. split; [lia|]. split; [exact Hi|exact (infix_includes _ _ Hi)]. }
  set (P := fun o => _) in *.
  set (labeled := labeledOptions c) in *. clearbody labeled.
  apply Forall_forall. intros o Ho.
  assert (Hin : In o (labeled ++ inferredOptions toLowerCase c labeled)).
  { destruct (completeOptions_perm toLowerCase c labeled) as [E|[Hp|Hp]].
    - rewrite E in Ho. apply in_or_app. now left.
    - apply in_or_app. left. exact (Permutation_in _ Hp Ho).
    - exact (Permutation_in _ Hp Ho). }
  apply in_app_or in Hin as [Hin|Hin].
  - rewrite Forall_forall in Hlab. now apply Hlab.
  - rewrite Forall_forall in Hinf'. now apply Hinf'.
Qed.

End OptionTexts.

(** An inferred option: the text has no label, and its one action-verb
    sentence becomes option A. *)
Lemma inferred_option_example :
  labeledOptions (lit "Use Amazon SageMaker to train the model on the full data set now") = []
  /\ inferredOptions asciiLower
       (lit "Use Amazon SageMaker to train the model on the full data set now") []
     = [{| id := lit "A";
           text := lit "Use Amazon SageMaker to train the model on the full data set now" |}].
Proof. split; vm_compute; reflexivity. Qed.

(** ** The options and the fallback body of the second extractor *)

Lemma variant_inferredOptions_cases cleanText opts :
  Forall (fun o => toUpperCase (id o) = id o) opts ->
  Variant.inferredOptions cleanText opts = []
  \/ (Variant.inferredOptions cleanText opts
        = [{| id := lit "B"; text := Variant.optionBText |}]
      /\ ~ In (lit "B") (map id opts)
      /\ exec (wordI Variant.optionBText) cleanText <> None).
Proof.
  intros Hu. unfold Variant.inferredOptions.
  destruct (existsb (str_eqb (lit "B")) (map (fun opt => toUpperCase (id opt)) opts)) eqn:E;
    [now left|].
  cbn [negb]. destruct (exec (wordI Variant.optionBText) cleanText) eqn:Ex; [|now left].
  right. split; [reflexivity|]. split; [|discriminate].
  intros Hin. apply in_map_iff in Hin as (o & Ho & Hin).
  assert (Ht : existsb (str_eqb (lit "B")) (map (fun opt => toUpperCase (id opt)) opts) = true);
    [|congruence].
  apply existsb_exists. exists (lit "B"). split.
  - rewrite Forall_forall in Hu. rewrite <- Ho, <- (Hu _ Hin). apply in_map_iff. eauto.
  - reflexivity.
Qed.

(** The options the second extractor returns: at most four, with pairwise
    different ids in ascending order; each is an option of the labeled pass
    or the option B with its fixed wording, added only when the labeled pass
    found no B and the wording occurs in the cleaned text. *)
Theorem variant_options_are_labeled_or_fixed_B (text0 file : str) :
  exists v,
    fst (Variant.parseMCQFromText text0 file) = Some v
    /\ length (options v) <= 4
    /\ NoDup (map id (options v))
    /\ Sorted idLe (options v)
    /\ Forall (fun o => In o (labeledOptions (cleanUp text0))
                        \/ (o = {| id := lit "B"; text := Variant.optionBText |}
                            /\ ~ In (lit "B") (map id (labeledOptions (cleanUp text0)))
                            /\ exec (wordI Variant.optionBText) (cleanUp text0) <> None))
              (options v).
Proof.
  eexists. split; [reflexivity|]. cbn [options].
  set (c := cleanUp text0). clearbody c.
  destruct (labeledOptions_shape c) as (Hn & Hi & Hs & Hu).
  pose proof (variant_inferredOptions_cases c _ Hu) as Hinf.
  pose proof (variant_completeOptions_perm c (labeledOptions c)) as Hperm.
  assert (Hsorted : Sorted idLe (Variant.completeOptions c (labeledOptions c))).
  { unfold Variant.completeOptions. destruct (_ <? _); [|exact Hs].
    apply (sortBy_sorted _ (fun a b => localeCompareLe (id a) (id b))).
    intros x y. apply localeCompareLe_total. }
  set (labeled := labeledOptions c) in *. clearbody labeled.
  set (inferred := Variant.inferredOptions c labeled) in *. clearbody inferred.
  set (final := Variant.completeOptions c labeled) in *. clearbody final.
  assert (Hall : NoDup (map id (labeled ++ inferred))
                 /\ incl (map id (labeled ++ inferred)) optionPatterns).
  { destruct Hinf as [-> | (-> & Hb & _)].
    - rewrite app_nil_r. now split.
    - rewrite map_app. cbn [map id]. split.
      + apply NoDup_app; repeat split; [exact Hn|repeat constructor; simpl; tauto|].
        intros i Hi1 [<-|[]]. contradiction.
      + intros i Hx. apply in_app_or in Hx as [Hx|[<-|[]]]; [now apply Hi|].
        right. now left. }
  destruct Hall as (Hnd & Hincl).
  assert (Hfinal : NoDup (map id final) /\ incl (map id final) optionPatterns
                   /\ forall o, In o final -> In o (labeled ++ inferred)).
  { destruct Hperm as [-> | P].
    - split; [exact Hn|]. split; [exact Hi|]. intros o Ho. apply in_or_app. now left.
    - split; [eapply Permutation_NoDup; [|exact Hnd]; symmetry; now apply Permutation_map|].
      split.
      + intros i Hx. apply Hincl. eapply Permutation_in; [|exact Hx].
        now apply Permutation_map.
      + intros o Ho. exact (Permutation_in _ P Ho). }
  destruct Hfinal as (Hnd' & Hincl' & Hfrom).
  split; [rewrite <- (length_map id); apply (NoDup_incl_length Hnd' Hincl')|].
  split; [exact Hnd'|]. split; [exact Hsorted|].
  apply Forall_forall. intros o Ho. specialize (Hfrom o Ho).
  apply in_app_or in Hfrom as [Hl|Hr]; [now left|].
  destruct Hinf as [E | (E & Hb & Hx)]; rewrite E in Hr; [destruct Hr|].
  destruct Hr as [<-|[]]. right. auto.
Qed.

Lemma splitFrom_miss r (p : cu -> bool) :
  (forall l s, forallb p s = true -> m r Some (Pos l s None) = None) ->
  forall fuel l s piece,
    forallb p s = true -> splitFrom fuel r l s piece = [rev piece ++ s].
Proof.
  intros Hm. induction fuel as [|fuel IH]; intros l s piece Hs; [reflexivity|].
  cbn [splitFrom]. destruct s as [|c t]; [now rewrite app_nil_r|].
  rewrite (Hm _ _ Hs). cbn [forallb] in Hs. apply andb_true_iff in Hs as [_ Hs].
  rewrite (IH _ _ _ Hs). cbn [rev]. now rewrite <- app_assoc.
Qed.

Lemma split_miss r (p : cu -> bool) s :
  (forall l s, forallb p s = true -> m r Some (Pos l s None) = None) ->
  forallb p s = true -> split r s = [s].
Proof.
  intros Hm Hs. unfold split. destruct s as [|c t].
  - now rewrite (Hm [] [] eq_refl).
  - exact (splitFrom_miss r p Hm _ [] (c :: t) [] Hs).
Qed.

Lemma bracket_needed (x y z : cu -> bool) l s :
  forallb (notIn (isChar "]")) s = true ->
  m (seqs [Chr x; Chr y; Chr z; Chr (isChar "]")]) Some (Pos l s None) = None.
Proof.
  intros Hs. cbn [seqs].
  destruct s as [|a s]; [now rewrite m_Seq, m_Chr_nil|].
  rewrite m_Seq, m_Chr_cons. destruct (x a); [|reflexivity].
  destruct s as [|b s]; [now rewrite m_Seq, m_Chr_nil|].
  rewrite m_Seq, m_Chr_cons. destruct (y b); [|reflexivity].
  destruct s as [|c s]; [now rewrite m_Seq, m_Chr_nil|].
  rewrite m_Seq, m_Chr_cons. destruct (z c); [|reflexivity].
  destruct s as [|d s]; [now rewrite m_Chr_nil|].
  rewrite m_Chr_cons. cbn [forallb] in Hs.
  apply andb_true_iff in Hs as [_ Hs]. apply andb_true_iff in Hs as [_ Hs].
  apply andb_true_iff in Hs as [_ Hs]. apply andb_true_iff in Hs as [Hd _].
  unfold notIn in Hd. apply negb_true_iff in Hd. now rewrite Hd.
Qed.

(** The two split patterns of the second extractor end in a literal "]":
    on a cleaned text without that character neither cuts anything, and the
    fallback body is the whole cleaned text, labels and options included. *)
Theorem variant_fallback_keeps_whole_text (text0 : str) :
  forallb (notIn (isChar "]")) (cleanUp text0) = true ->
  Variant.beforeFirstOption (cleanUp text0) [] = cleanUp text0.
Proof.
  intros Hb.
  pose proof (cleanUp_isClean text0) as Hc. unfold isClean in Hc.
  apply andb_true_iff in Hc as [Hc He]. apply andb_true_iff in Hc as [Hc _].
  pose proof (trim_clean _ Hc He) as Ht.
  set (c := cleanUp text0) in *. clearbody c.
  unfold Variant.beforeFirstOption. cbn [isEmpty].
  unfold Variant.splitAtA, Variant.splitAtLetter, closer.
  rewrite (split_miss _ _ c (bracket_needed _ _ _) Hb). cbn [length Nat.ltb Nat.leb].
  rewrite (split_miss _ _ c (bracket_needed _ _ _) Hb).
  unfold Variant.headTrimmedOr. rewrite Ht.
  destruct c as [|a t]; reflexivity.
Qed.

Lemma variant_fallback_keeps_whole_text_witness :
  forallb (notIn (isChar "]")) (cleanUp (lit "Pick one A) first B) second")) = true
  /\ Variant.beforeFirstOption (cleanUp (lit "Pick one A) first B) second")) []
     = lit "Pick one A) first B) second".
Proof.
  split; [reflexivity|].
  exact (variant_fallback_keeps_whole_text (lit "Pick one A) first B) second") eq_refl).
Defined.

(** ** The question end index *)

Lemma questionEnd_fold (after : str) ps :
  forall n,
    let r := fold_left
               (fun endIndex pattern =>
                  match exec pattern after with
                  | Some f => if index f <? endIndex then index f else endIndex
                  | None => endIndex
                  end) ps n in
    r <= n
    /\ (forall p f, In p ps -> exec p after = Some f -> r <= index f)
    /\ (r = n \/ exists p f, In p ps /\ exec p after = Some f /\ r = index f).
Proof.
  induction ps as [|p ps IH]; intros n; cbn zeta; cbn [fold_left].
  - split; [lia|]. split; [intros p f []|now left].
  - set (n' := match exec p after with
               | Some f => if index f <? n then index f else n
               | None => n
               end).
    destruct (IH n') as (H1 & H2 & H3). cbn zeta in H1, H2, H3.
    assert (Hn : n' <= n
                 /\ (forall f, exec p after = Some f -> n' <= index f)
                 /\ (n' = n \/ exists f, exec p after = Some f /\ n' = index f)).
    { unfold n'. destruct (exec p after) as [f|].
      - destruct (Nat.ltb_spec (index f) n).
        + split; [lia|]. split; [intros f' [= <-]; lia|right; eauto].
        + split; [lia|]. split; [intros f' [= <-]; lia|now left].
      - split; [lia|]. split; [discriminate|now left]. }
    destruct Hn as (K1 & K2 & K3). split; [lia|]. split.
    + intros q f [<-|Hq] Hf; [specialize (K2 _ Hf); lia|exact (H2 _ _ Hq Hf)].
    + destruct H3 as [E|(q & f & Hq & Hf & E)].
      * destruct K3 as [K3|(f & Hf & K3)]; [left; lia|].
        right. exists p, f. split; [now left|]. split; [exact Hf|lia].
      * right. exists q, f. split; [now right|auto].
Qed.

(** The boundary of strategy 1 is where the earliest option signal starts:
    no option-start pattern has its first match before it, and it is the
    length of the text when none matches. *)
Theorem question_end_is_earliest_option_signal (after : str) :
  questionEndIndex after <= length after
  /\ (forall p f, In p optionStartPatterns -> exec p after = Some f ->
                  questionEndIndex after <= index f)
  /\ (questionEndIndex after = length after
      \/ exists p f, In p optionStartPatterns /\ exec p after = Some f
                     /\ questionEndIndex after = index f).
Proof. exact (questionEnd_fold after optionStartPatterns (length after)). Qed.

(** ** The batch over a directory *)

Section Batch.
Variable env : Env.
Variable parse : str -> str -> option MCQQuestion * list Diag.

Lemma processFiles_from directoryPath files :
  forall state,
    fold_left
      (fun state file =>
         (fst state ++ fst (processFile env parse directoryPath file),
          snd state ++ snd (processFile env parse directoryPath file)))
      files state
    = (fst state ++ flat_map (fun f => fst (processFile env parse directoryPath f)) files,
       snd state ++ flat_map (fun f => snd (processFile env parse directoryPath f)) files).
Proof.
  induction files as [|f files IH]; intros [qs said]; cbn [fold_left flat_map fst snd].
  - now rewrite !app_nil_r.
  - rewrite IH. cbn [fst snd]. now rewrite <- !app_assoc.
Qed.

Lemma processFiles_flat_map directoryPath files :
  processFiles env parse directoryPath files
  = (flat_map (fun f => fst (processFile env parse directoryPath f)) files,
     flat_map (fun f => snd (processFile env parse directoryPath f)) files).
Proof. unfold processFiles. now rewrite processFiles_from. Qed.

(** The loop treats each file on its own: the questions and the console
    lines of a list of files are those of its parts, in order. *)
Theorem batch_is_file_by_file (directoryPath : str) (files1 files2 : list str) :
  processFiles env parse directoryPath (files1 ++ files2)
  = (fst (processFiles env parse directoryPath files1)
       ++ fst (processFiles env parse directoryPath files2),
     snd (processFiles env parse directoryPath files1)
       ++ snd (processFiles env parse directoryPath files2)).
Proof. rewrite !processFiles_flat_map. cbn [fst snd]. now rewrite !flat_map_app. Qed.

Lemma processFile_cases directoryPath file :
  (exists error,
      recognize env (join env directoryPath file) = Thrown error
      /\ processFile env parse directoryPath file
         = ([], [LogExtracting file;
                 ErrProcessing file (lit "OCR failed for " ++ join env directoryPath file
                                       ++ lit ": " ++ error)]))
  \/ (exists text0 said,
         recognize env (join env directoryPath file) = Ok text0
         /\ Forall (fun e => isExtracted e = false /\ isFailed e = false
                             /\ isError e = false) said
         /\ ((exists q, fst (parse text0 file) = Some q
                        /\ accepted (Some q) = true
                        /\ processFile env parse directoryPath file
                           = ([q], said ++ [LogExtracted (questionId q) (length (options q));
                                            LogOptionsFound
                                              (joinWith (lit ", ") (map id (options q)))]))
             \/ (accepted (fst (parse text0 file)) = false
                 /\ processFile env parse directoryPath file
                    = ([], said ++ [LogFailed file; LogSample (substring 0 200 text0)])))).
Proof.
  unfold processFile, extractTextFromImage. cbv zeta.
  destruct (recognize env (join env directoryPath file)) as [text0|error].
  - right. exists text0.
    exists ([LogExtracting file; LogPreview (substring 0 100 text0)]
              ++ map LogParser (snd (parse text0 file))).
    split; [reflexivity|]. split.
    + apply Forall_app. split; [repeat constructor|].
      apply Forall_forall. intros e He. apply in_map_iff in He as (d & <- & _).
      repeat split.
    + destruct (fst (parse text0 file)) as [q|] eqn:E.
      * destruct (accepted (Some q)) eqn:Ea.
        -- left. exists q. split; [reflexivity|]. split; [exact Ea|reflexivity].
        -- right. split; reflexivity.
      * right. split; reflexivity.
  - left. exists error. split; reflexivity.
Qed.

(** A file whose OCR fails gives no question and one error line, which
    names the file and wraps the error; the other files are treated as if
    it were not there. *)
Theorem ocr_failure_skips_only_that_file
        (directoryPath file error : str) (before after : list str) :
  recognize env (join env directoryPath file) = Thrown error ->
  processFile env parse directoryPath file
  = ([], [LogExtracting file;
          ErrProcessing file (lit "OCR failed for " ++ join env directoryPath file
                                ++ lit ": " ++ error)])
  /\ fst (processFiles env parse directoryPath (before ++ file :: after))
     = fst (processFiles env parse directoryPath (before ++ after)).
Proof.
  intros H.
  assert (E : processFile env parse directoryPath file
              = ([], [LogExtracting file;
                      ErrProcessing file (lit "OCR failed for "
                                            ++ join env directoryPath file
                                            ++ lit ": " ++ error)])).
  { unfold processFile, extractTextFromImage. now rewrite H. }
  split; [exact E|].
  rewrite !processFiles_flat_map. cbn [fst]. rewrite !flat_map_app. cbn [flat_map].
  now rewrite E.
Qed.

Lemma count_app p a b : count p (a ++ b) = count p a + count p b.
Proof. unfold count. now rewrite filter_app, length_app. Qed.

Lemma count_none p said :
  Forall (fun e => p e = false) said -> count p said = 0.
Proof.
  unfold count. induction 1 as [|e said He _ IH]; [reflexivity|].
  cbn [filter]. now rewrite He.
Qed.

Lemma processFile_counts directoryPath file :
  let r := processFile env parse directoryPath file in
  count isExtracted (snd r) + count isFailed (snd r) + count isError (snd r) = 1
  /\ length (fst r) = count isExtracted (snd r).
Proof.
  cbn zeta.
  destruct (processFile_cases directoryPath file)
    as [(error & _ & ->) | (text0 & said & _ & Hs & [(q & _ & _ & ->) | (_ & ->)])].
  - split; reflexivity.
  - cbn [fst snd]. rewrite !count_app.
    rewrite (count_none isExtracted), (count_none isFailed), (count_none isError);
      try (eapply Forall_impl; [|exact Hs]; cbn beta; tauto).
    split; reflexivity.
  - cbn [fst snd]. rewrite !count_app.
    rewrite (count_none isExtracted), (count_none isFailed), (count_none isError);
      try (eapply Forall_impl; [|exact Hs]; cbn beta; tauto).
    split; reflexivity.
Qed.

(** Every file of the batch ends in exactly one of three ways, each with
    its console line: a question is extracted, the parse is rejected, or
    the file raises an error; the questions returned are as many as the
    "extracted" lines. *)
Theorem batch_accounts_for_every_file (directoryPath : str) (files : list str) :
  let r := processFiles env parse directoryPath files in
  count isExtracted (snd r) + count isFailed (snd r) + count isError (snd r)
  = length files
  /\ length (fst r) = count isExtracted (snd r)
  /\ length (fst r) <= length files.
Proof.
  cbn zeta. rewrite processFiles_flat_map. cbn [fst snd].
  assert (H : count isExtracted (flat_map (fun f => snd (processFile env parse directoryPath f)) files)
              + count isFailed (flat_map (fun f => snd (processFile env parse directoryPath f)) files)
              + count isError (flat_map (fun f => snd (processFile env parse directoryPath f)) files)
              = length files
              /\ length (flat_map (fun f => fst (processFile env parse directoryPath f)) files)
                 = count isExtracted
                     (flat_map (fun f => snd (processFile env parse directoryPath f)) files)).
  { induction files as [|f files [IH1 IH2]]; [split; reflexivity|].
    cbn [flat_map length]. rewrite !count_app, length_app.
    destruct (processFile_counts directoryPath f) as (H1 & H2). cbn zeta in H1, H2.
    split; lia. }
  destruct H as (H1 & H2). split; [exact H1|]. split; [exact H2|]. lia.
Qed.

End Batch.

Section Batch2.
Variable env : Env.
Variable parse : str -> str -> option MCQQuestion * list Diag.

Lemma In_processFiles directoryPath files q :
  In q (fst (processFiles env parse directoryPath files)) ->
  exists file text0,
    In file files
    /\ recognize env (join env directoryPath file) = Ok text0
    /\ fst (parse text0 file) = Some q
    /\ accepted (Some q) = true.
Proof.
  rewrite processFiles_flat_map. cbn [fst]. intros H.
  apply in_flat_map in H as (file & Hf & Hq). exists file.
  destruct (processFile_cases env parse directoryPath file)
    as [(error & _ & E) | (text0 & said & Hr & _ & [(q' & Hp & Ha & E) | (_ & E)])];
    rewrite E in Hq; cbn [fst] in Hq; try destruct Hq as [<-|[]]; try destruct Hq.
  exists text0. auto.
Qed.

End Batch2.

(** What [processDirectory] returns with the parser of the same class:
    every question has a non-empty body and at least one option; it is the
    parse of the OCR text of a PNG file of the listing, which is kept, non
    empty, as its raw text. *)
Theorem batch_results_are_usable (env : Env) (directoryPath : str)
        (questions : list MCQQuestion) :
  fst (processDirectory env (parseMCQFromText (lowerCase env)) directoryPath)
  = Ok questions ->
  Forall (fun q =>
            question q <> []
            /\ 1 <= length (options q)
            /\ truthy (rawText q) = true
            /\ exists files text0,
                 readdirSync env directoryPath = Ok files
                 /\ In (filename q) files
                 /\ isPng env (filename q) = true
                 /\ recognize env (join env directoryPath (filename q)) = Ok text0
                 /\ rawText q = Some text0
                 /\ fst (parseMCQFromText (lowerCase env) text0 (filename q)) = Some q)
         questions.
Proof.
  unfold processDirectory.
  destruct (readdirSync env directoryPath) as [files|error] eqn:El; [|discriminate].
  intros H. apply Forall_forall. intros q Hq.
  assert (Hin : In q (fst (processFiles env (parseMCQFromText (lowerCase env))
                             directoryPath (filter (isPng env) files)))).
  { destruct (filter (isPng env) files) as [|f fs] eqn:Ef.
    - cbn [fst] in H. injection H as <-. destruct Hq.
    - cbn [fst] in H. injection H as <-. exact Hq. }
  destruct (In_processFiles _ _ _ _ _ Hin) as (file & text0 & Hf & Hr & Hp & Ha).
  apply filter_In in Hf as [Hf Hpng].
  set (toLowerCase := lowerCase env) in *. clearbody toLowerCase.
  rewrite parseMCQFromText_eq in Hp. cbn [fst] in Hp. injection Hp as Hp.
  unfold accepted in Ha. apply andb_true_iff in Ha as [Ha1 Ha2].
  apply Nat.ltb_lt in Ha2.
  assert (Hq1 : question q <> []).
  { intros E. rewrite E in Ha1. discriminate. }
  assert (Hfile : filename q = file) by (now rewrite <- Hp).
  assert (Hraw : rawText q = Some text0) by (now rewrite <- Hp).
  assert (Ht : text0 <> []).
  { intros ->. apply Hq1. rewrite <- Hp. reflexivity. }
  split; [exact Hq1|]. split; [lia|].
  split; [rewrite Hraw; now destruct text0|].
  exists files, text0. rewrite Hfile.
  split; [reflexivity|]. split; [exact Hf|]. split; [exact Hpng|].
  split; [exact Hr|]. split; [exact Hraw|].
  rewrite parseMCQFromText_eq. cbn [fst]. now rewrite Hp.
Qed.

(** ** The reports *)

Lemma infix_app_l (x a b : str) : infix x a -> infix x (a ++ b).
Proof. intros (u & v & ->). exists u, (v ++ b). now rewrite <- !app_assoc. Qed.

Lemma infix_app_r (x a b : str) : infix x b -> infix x (a ++ b).
Proof. intros (u & v & ->). exists (a ++ u), v. now rewrite <- !app_assoc. Qed.

Lemma appendOption_keeps (x : str) opts :
  forall output, infix x output -> infix x (fold_left appendOption opts output).
Proof.
  induction opts as [|o opts IH]; intros output H; [exact H|].
  cbn [fold_left]. apply IH. unfold appendOption. now apply infix_app_l.
Qed.

Lemma appendOption_writes opts :
  forall output o, In o opts ->
    infix (id o ++ lit ") " ++ text o ++ nl ++ nl) (fold_left appendOption opts output).
Proof.
  induction opts as [|o' opts IH]; intros output o Ho; [destruct Ho|].
  cbn [fold_left]. destruct Ho as [->|Ho]; [|now apply IH].
  apply appendOption_keeps. unfold appendOption. apply infix_app_r, infix_refl.
Qed.

Lemma appendQuestion_keeps (x : str) entries :
  forall output, infix x output -> infix x (fold_left appendQuestion entries output).
Proof.
  induction entries as [|e entries IH]; intros output H; [exact H|].
  cbn [fold_left]. apply IH. unfold appendQuestion.
  apply infix_app_l, appendOption_keeps. now do 5 apply infix_app_l.
Qed.

Lemma appendQuestion_writes entries :
  forall output e, In e entries ->
    let report := fold_left appendQuestion entries output in
    infix (lit "QUESTION " ++ showNat (fst e + 1) ++ nl
             ++ lit "ID: " ++ questionId (snd e) ++ nl
             ++ lit "Source: " ++ filename (snd e) ++ nl) report
    /\ infix (lit "Q: " ++ question (snd e) ++ nl ++ nl) report
    /\ Forall (fun o => infix (id o ++ lit ") " ++ text o ++ nl ++ nl) report)
              (options (snd e)).
Proof.
  induction entries as [|e' entries IH]; intros output e He; [destruct He|].
  cbn zeta. cbn [fold_left]. destruct He as [->|He]; [|now apply IH].
  split; [|split].
  - apply appendQuestion_keeps. unfold appendQuestion.
    apply infix_app_l, appendOption_keeps. do 2 apply infix_app_l.
    exists output, []. now rewrite app_nil_r, <- !app_assoc.
  - apply appendQuestion_keeps. unfold appendQuestion.
    apply infix_app_l, appendOption_keeps. apply infix_app_r, infix_refl.
  - apply Forall_forall. intros o Ho.
    apply appendQuestion_keeps. unfold appendQuestion.
    apply infix_app_l. now apply appendOption_writes.
Qed.

Lemma nth_error_combine_seq (A : Type) (l : list A) :
  forall start i x,
    nth_error l i = Some x ->
    nth_error (combine (seq start (length l)) l) i = Some (start + i, x).
Proof.
  induction l as [|a l IH]; intros start i x H; [now destruct i|].
  destruct i as [|i]; cbn in H |- *.
  - injection H as <-. now rewrite Nat.add_0_r.
  - rewrite (IH (S start) i x H). f_equal. f_equal. lia.
Qed.

Lemma nth_error_indexed (A : Type) (l : list A) i x :
  nth_error l i = Some x -> nth_error (indexed l) i = Some (i, x).
Proof. intros H. unfold indexed. now rewrite (nth_error_combine_seq A l 0 i x H). Qed.

Lemma length_indexed (A : Type) (l : list A) : length (indexed l) = length l.
Proof. unfold indexed. rewrite length_combine, length_seq. lia. Qed.

(** The text report leaves nothing out: for the question at each position
    it holds the numbered heading with the id and the source file, the
    line of the body, and the line of every option. *)
Theorem report_lists_every_question (now : str) (questions : list MCQQuestion)
        (i : nat) (q : MCQQuestion) :
  nth_error questions i = Some q ->
  let report := formatQuestionsForOutput now questions in
  includes (lit "QUESTION " ++ showNat (i + 1) ++ nl
              ++ lit "ID: " ++ questionId q ++ nl
              ++ lit "Source: " ++ filename q ++ nl) report = true
  /\ includes (lit "Q: " ++ question q ++ nl ++ nl) report = true
  /\ Forall (fun o => includes (id o ++ lit ") " ++ text o ++ nl ++ nl) report = true)
            (options q).
Proof.
  intros H. cbn zeta.
  pose proof (nth_error_In _ _ (nth_error_indexed _ _ _ _ H)) as Hin.
  set (header := (lit "Multiple Choice Questions Extracted from PNG Images (OCR)" ++ nl)
                   ++ lit "Generated on: " ++ now ++ nl).
  set (header' := ((header ++ lit "Total Questions: " ++ showNat (length questions) ++ nl)
                     ++ rule80 ++ nl ++ nl)).
  destruct (appendQuestion_writes (indexed questions) header' (i, q) Hin) as (H1 & H2 & H3).
  cbn zeta in H1, H2, H3. cbn [fst snd] in H1, H2, H3.
  assert (Hk : forall x, infix x (fold_left appendQuestion (indexed questions) header') ->
                         includes x (formatQuestionsForOutput now questions) = true).
  { intros x Hx. apply infix_includes. unfold formatQuestionsForOutput. cbv zeta.
    fold header. fold header'. now do 10 apply infix_app_l. }
  split; [now apply Hk|]. split; [now apply Hk|].
  eapply Forall_impl; [|exact H3]. intros o Ho. now apply Hk.
Qed.

Lemma report_lists_every_question_witness :
  nth_error [sampleQuestion] 0 = Some sampleQuestion
  /\ includes (lit "Q: Which service stores objects?" ++ nl ++ nl)
       (formatQuestionsForOutput (lit "2024-01-01T00:00:00.000Z") [sampleQuestion]) = true.
Proof.
  split; [reflexivity|].
  exact (proj1 (proj2 (report_lists_every_question (lit "2024-01-01T00:00:00.000Z")
                         [sampleQuestion] 0 sampleQuestion eq_refl))).
Defined.

(** The JSON document is consistent with itself: the total in its metadata,
    the number of question entries and the number of files processed are
    the number of questions; the entry at position [i] is numbered [i + 1]
    and names the file listed at that position; and its option count is
    the number of options it lists. *)
Theorem json_document_counts_agree (now : str) (questions : list MCQQuestion) :
  exists entries files,
    field (lit "questions") (outputDocument now questions) = Some (JArray entries)
    /\ field2 (lit "metadata") (lit "filesProcessed") (outputDocument now questions)
       = Some (JArray files)
    /\ field2 (lit "metadata") (lit "totalQuestions") (outputDocument now questions)
       = Some (JNumber (length questions))
    /\ length entries = length questions
    /\ length files = length questions
    /\ forall i q, nth_error questions i = Some q ->
         exists entry opts,
           nth_error entries i = Some entry
           /\ nth_error files i = Some (JString (filename q))
           /\ field (lit "questionNumber") entry = Some (JNumber (i + 1))
           /\ field (lit "sourceFile") entry = Some (JString (filename q))
           /\ field (lit "options") entry = Some (JArray opts)
           /\ length opts = length (options q)
           /\ field2 (lit "metadata") (lit "optionCount") entry
              = Some (JNumber (length opts)).
Proof.
  exists (map questionEntry (indexed questions)),
         (map (fun q => JString (filename q)) questions).
  split; [reflexivity|]. split; [reflexivity|]. split; [reflexivity|].
  split; [now rewrite length_map, length_indexed|].
  split; [now rewrite length_map|].
  intros i q H.
  exists (questionEntry (i, q)),
         (map (fun opt => JObject [(lit "id", JString (id opt));
                                   (lit "text", JString (text opt))]) (options q)).
  split; [now rewrite nth_error_map, (nth_error_indexed _ _ _ _ H)|].
  split; [now rewrite nth_error_map, H|].
  split; [reflexivity|]. split; [reflexivity|]. split; [reflexivity|].
  split; [now rewrite length_map|].
  rewrite length_map. reflexivity.
Qed.

(** /\.txt$/ matches at a position exactly when ".txt" is all that is
    ahead. *)
Lemma txtSuffix_here l : 
  m txtSuffix Some (Pos l (lit ".txt") None) = Some (Pos (rev (lit ".txt") ++ l) [] None).
Proof. reflexivity. Qed.

Lemma txtSuffix_elsewhere l s :
  s <> lit ".txt" -> m txtSuffix Some (Pos l s None) = None.
Proof.
  intros Hs. unfold txtSuffix, word. cbn [seqs map lit list_ascii_of_string].
  destruct s as [|a s]; [now rewrite m_Seq, m_Chr_nil|].
  rewrite m_Seq, m_Chr_cons. destruct (isChar "." a) eqn:Ea; [|reflexivity].
  destruct s as [|b s]; [now rewrite !m_Seq, m_Chr_nil|].
  rewrite !m_Seq, m_Chr_cons. destruct (N.eqb _ b) eqn:Eb; [|reflexivity].
  destruct s as [|c s]; [now rewrite !m_Seq, m_Chr_nil|].
  rewrite !m_Seq, m_Chr_cons. destruct (N.eqb _ c) eqn:Ec; [|reflexivity].
  destruct s as [|d s]; [now rewrite m_Chr_nil|].
  rewrite m_Chr_cons. destruct (N.eqb _ d) eqn:Ed; [|reflexivity].
  destruct s as [|e s]; [|apply m_Eol_cons].
  exfalso. apply Hs. apply N.eqb_eq in Ea, Eb, Ec, Ed. now subst.
Qed.

Lemma search_txtSuffix base :
  forall l,
    search txtSuffix l (base ++ lit ".txt")
    = Some (Found (Pos (rev base ++ l) (lit ".txt") None)
                  (Pos (rev (lit ".txt") ++ rev base ++ l) [] None)).
Proof.
  induction base as [|x base IH]; intros l.
  - apply search_hit, txtSuffix_here.
  - cbn [app]. rewrite search_miss.
    + rewrite IH. cbn [rev]. now rewrite <- !app_assoc.
    + apply txtSuffix_elsewhere. intros E. apply (f_equal (@length cu)) in E.
      cbn [length] in E. rewrite length_app in E. cbn in E. lia.
Qed.

Lemma replaceFirst_txtSuffix rep base :
  replaceFirst txtSuffix rep (base ++ lit ".txt") = base ++ rep.
Proof.
  unfold replaceFirst, exec. rewrite search_txtSuffix.
  unfold index. cbn [from upto passed ahead].
  rewrite app_nil_r, length_rev, firstn_prefix. now rewrite app_nil_r.
Qed.

Lemma startsWith_length (p s : str) : startsWith p s = true -> length p <= length s.
Proof.
  revert s. induction p as [|a p IH]; intros s H; [simpl; lia|].
  destruct s as [|b s]; [discriminate|]. cbn [startsWith] in H.
  apply andb_true_iff in H as [_ H]. specialize (IH _ H). simpl. lia.
Qed.

Lemma search_txtSuffix_none s :
  endsWith (lit ".txt") s = false -> forall l, search txtSuffix l s = None.
Proof.
  induction s as [|a s IH]; intros He l.
  - apply search_miss_nil, txtSuffix_elsewhere. discriminate.
  - rewrite search_miss.
    + apply IH. destruct (endsWith (lit ".txt") s) eqn:E; [|reflexivity].
      rewrite <- He. unfold endsWith in *. cbn [rev].
      symmetry. rewrite startsWith_app_long; [exact E|].
      exact (startsWith_length _ _ E).
    + apply txtSuffix_elsewhere. intros E. rewrite E in He. discriminate.
Qed.

Lemma replaceFirst_txtSuffix_none rep s :
  endsWith (lit ".txt") s = false -> replaceFirst txtSuffix rep s = s.
Proof.
  intros H. unfold replaceFirst, exec. now rewrite search_txtSuffix_none.
Qed.

(** ** The command line *)

Section Main.
Variable env : Env.
Variable parse : str -> str -> option MCQQuestion * list Diag.

(** The ways a run can end. *)
Lemma main_cases (now1 now2 now3 : str) (argv : list str) :
  let o := main env parse now1 now2 now3 argv in
  let targetDirectory := orDefault (lit "./docs") (nth_error argv 0) in
  let outputFile := orDefault (lit "./extracted-questions-ocr.txt") (nth_error argv 1) in
  let jsonFile := replaceFirst txtSuffix (lit ".json") outputFile in
  let orgFile := replaceFirst txtSuffix (lit ".org.txt") outputFile in
  (existsSync env targetDirectory = false
   /\ exitStatus o = Some 1 /\ written o = [])
  \/ (existsSync env targetDirectory = true
      /\ exists said,
          (exists error,
              processDirectory env parse targetDirectory = (Thrown error, said)
              /\ exitStatus o = Some 1 /\ written o = [])
          \/ (processDirectory env parse targetDirectory = (Ok [], said)
              /\ exitStatus o = None /\ written o = [])
          \/ (exists questions,
                 processDirectory env parse targetDirectory = (Ok questions, said)
                 /\ questions <> []
                 /\ ((exitStatus o = None
                      /\ written o
                         = [(outputFile, formatQuestionsForOutput now1 questions);
                            (jsonFile, formatQuestionsAsJSON env now2 questions);
                            (orgFile, rawOcrOutput now3 questions)])
                     \/ (exitStatus o = Some 1
                         /\ exists n error, n < 3
                              /\ writeFileSync env
                                   (nth n [outputFile; jsonFile; orgFile] [])
                                   (nth n [formatQuestionsForOutput now1 questions;
                                           formatQuestionsAsJSON env now2 questions;
                                           rawOcrOutput now3 questions] [])
                                 = Thrown error
                              /\ written o
                                 = firstn n
                                     [(outputFile, formatQuestionsForOutput now1 questions);
                                      (jsonFile, formatQuestionsAsJSON env now2 questions);
                                      (orgFile, rawOcrOutput now3 questions)])))).
Proof.
  cbv zeta. unfold main.
  set (targetDirectory := orDefault (lit "./docs") (nth_error argv 0)).
  set (outputFile := orDefault (lit "./extracted-questions-ocr.txt") (nth_error argv 1)).
  cbv zeta.
  destruct (existsSync env targetDirectory); cbn [negb]; [right|left; auto].
  split; [reflexivity|].
  destruct (processDirectory env parse targetDirectory) as [[questions|error] said];
    exists said.
  - destruct questions as [|q questions].
    + right. left. cbn [length Nat.ltb Nat.leb]. auto.
    + right. right. exists (q :: questions). split; [reflexivity|].
      split; [discriminate|]. cbn [length Nat.ltb Nat.leb].
      set (qs := q :: questions).
      destruct (writeFileSync env outputFile (formatQuestionsForOutput now1 qs))
        as [[]|e1] eqn:E1.
      * destruct (writeFileSync env (replaceFirst txtSuffix (lit ".json") outputFile)
                    (formatQuestionsAsJSON env now2 qs)) as [[]|e2] eqn:E2.
        -- destruct (writeFileSync env (replaceFirst txtSuffix (lit ".org.txt") outputFile)
                       (rawOcrOutput now3 qs)) as [[]|e3] eqn:E3.
           ++ left. split; reflexivity.
           ++ right. split; [reflexivity|]. exists 2, e3. split; [lia|].
              split; [exact E3|reflexivity].
        -- right. split; [reflexivity|]. exists 1, e2. split; [lia|].
           split; [exact E2|reflexivity].
      * right. split; [reflexivity|]. exists 0, e1. split; [lia|].
        split; [exact E1|reflexivity].
  - left. exists error. auto.
Qed.

(** A run ends normally with nothing written or with all three reports
    written, the text report first; it ends with status 1 with fewer than
    three files written. *)
Theorem main_writes_all_reports_or_fails (now1 now2 now3 : str) (argv : list str) :
  let o := main env parse now1 now2 now3 argv in
  let outputFile := orDefault (lit "./extracted-questions-ocr.txt") (nth_error argv 1) in
  (exitStatus o = None
   /\ (written o = []
       \/ map fst (written o)
          = [outputFile;
             replaceFirst txtSuffix (lit ".json") outputFile;
             replaceFirst txtSuffix (lit ".org.txt") outputFile]))
  \/ (exitStatus o = Some 1 /\ length (written o) < 3).
Proof.
  cbv zeta.
  destruct (main_cases now1 now2 now3 argv)
    as [(_ & E & W) | (_ & said & [(error & _ & E & W) | [(_ & E & W)
         | (qs & _ & _ & [(E & W) | (E & n & error & Hn & _ & W)])]])];
    cbv zeta in E, W; rewrite E, W.
  - right. split; [reflexivity|simpl; lia].
  - right. split; [reflexivity|simpl; lia].
  - left. split; [reflexivity|now left].
  - left. split; [reflexivity|now right].
  - right. split; [reflexivity|]. rewrite length_firstn. simpl. lia.
Qed.

(** The run fails only on the directory or on a write: when the directory
    exists and can be listed and every write goes through, the run ends
    normally, whatever the OCR and the parser do with the files. *)
Theorem main_survives_ocr_failures (now1 now2 now3 : str) (argv files : list str) :
  existsSync env (orDefault (lit "./docs") (nth_error argv 0)) = true ->
  readdirSync env (orDefault (lit "./docs") (nth_error argv 0)) = Ok files ->
  (forall file content, writeFileSync env file content = Ok tt) ->
  exitStatus (main env parse now1 now2 now3 argv) = None.
Proof.
  intros He Hl Hw.
  destruct (main_cases now1 now2 now3 argv)
    as [(E0 & _) | (_ & said & [(error & Hp & _) | [(_ & E & _)
         | (qs & _ & _ & [(E & _) | (_ & n & error & _ & Hn & _)])]])];
    cbv zeta in *.
  - congruence.
  - unfold processDirectory in Hp. rewrite Hl in Hp.
    destruct (filter (isPng env) files); discriminate.
  - exact E.
  - exact E.
  - rewrite Hw in Hn. discriminate.
Qed.

End Main.

Lemma main_survives_ocr_failures_witness :
  existsSync sampleEnv (orDefault (lit "./docs") (nth_error [lit "docs"] 0)) = true
  /\ recognize sampleEnv (lit "docs/q2.PNG") = Thrown (lit "cannot read image")
  /\ exitStatus (main sampleEnv (parseMCQFromText asciiLower)
                   (lit "t1") (lit "t2") (lit "t3") [lit "docs"]) = None.
Proof.
  split; [reflexivity|]. split; [reflexivity|].
  exact (main_survives_ocr_failures sampleEnv (parseMCQFromText asciiLower)
           (lit "t1") (lit "t2") (lit "t3") [lit "docs"]
           [lit "q1.png"; lit "notes.txt"; lit "q2.PNG"]
           eq_refl eq_refl (fun _ _ => eq_refl)).
Defined.

(** ** The files a run writes *)

(** A run that finds the directory, gets at least one question from the
    batch and whose writes all go through ends normally with the three
    reports written, in this order. *)
Lemma main_success (env : Env) (parse : str -> str -> option MCQQuestion * list Diag)
      (now1 now2 now3 : str) (argv : list str) (questions : list MCQQuestion) :
  existsSync env (orDefault (lit "./docs") (nth_error argv 0)) = true ->
  fst (processDirectory env parse (orDefault (lit "./docs") (nth_error argv 0)))
  = Ok questions ->
  questions <> [] ->
  (forall file content, writeFileSync env file content = Ok tt) ->
  let outputFile := orDefault (lit "./extracted-questions-ocr.txt") (nth_error argv 1) in
  exitStatus (main env parse now1 now2 now3 argv) = None
  /\ written (main env parse now1 now2 now3 argv)
     = [(outputFile, formatQuestionsForOutput now1 questions);
        (replaceFirst txtSuffix (lit ".json") outputFile,
         formatQuestionsAsJSON env now2 questions);
        (replaceFirst txtSuffix (lit ".org.txt") outputFile,
         rawOcrOutput now3 questions)].
Proof.
  intros He Hp Hq Hw. cbv zeta.
  destruct (main_cases env parse now1 now2 now3 argv)
    as [(E0 & _) | (_ & said & [(error & Hp' & _) | [(Hp' & _)
         | (qs & Hp' & _ & [(E & W) | (_ & n & error & _ & Hn & _)])]])];
    cbv zeta in *.
  - congruence.
  - rewrite Hp' in Hp. discriminate.
  - rewrite Hp' in Hp. cbn [fst] in Hp. congruence.
  - rewrite Hp' in Hp. cbn [fst] in Hp. injection Hp as <-. now split.
  - rewrite Hw in Hn. discriminate.
Qed.

Lemma contentAfter_last (writes : list (str * str)) (file content : str) :
  contentAfter (writes ++ [(file, content)]) file = Some content.
Proof.
  induction writes as [|[p c] writes IH]; cbn [app contentAfter].
  - unfold str_eqb. now destruct (list_eq_dec N.eq_dec file file).
  - now rewrite IH.
Qed.

(** With an output file "base.txt" (the default is of this kind) the files
    a run writes are the first of "base.txt", "base.json" and
    "base.org.txt", in that order; and a run that finds the directory, gets
    at least one question and whose writes all go through ends normally
    having written exactly these three, with the text report, the JSON
    document and the raw OCR report as their contents. *)
Theorem reports_share_the_base_name
        (env : Env) (parse : str -> str -> option MCQQuestion * list Diag)
        (now1 now2 now3 : str) (argv : list str) (base : str) :
  orDefault (lit "./extracted-questions-ocr.txt") (nth_error argv 1) = base ++ lit ".txt" ->
  (exists n,
      map fst (written (main env parse now1 now2 now3 argv))
      = firstn n [base ++ lit ".txt"; base ++ lit ".json"; base ++ lit ".org.txt"])
  /\ forall questions,
       existsSync env (orDefault (lit "./docs") (nth_error argv 0)) = true ->
       fst (processDirectory env parse (orDefault (lit "./docs") (nth_error argv 0)))
       = Ok questions ->
       questions <> [] ->
       (forall file content, writeFileSync env file content = Ok tt) ->
       exitStatus (main env parse now1 now2 now3 argv) = None
       /\ written (main env parse now1 now2 now3 argv)
          = [(base ++ lit ".txt", formatQuestionsForOutput now1 questions);
             (base ++ lit ".json", formatQuestionsAsJSON env now2 questions);
             (base ++ lit ".org.txt", rawOcrOutput now3 questions)].
Proof.
  intros Ho. split.
  - destruct (main_cases env parse now1 now2 now3 argv)
      as [(_ & _ & W) | (_ & said & [(error & _ & _ & W) | [(_ & _ & W)
           | (qs & _ & _ & [(_ & W) | (_ & n & error & _ & _ & W)])]])];
      cbv zeta in W; rewrite W; rewrite ?Ho, ?replaceFirst_txtSuffix.
    + now exists 0.
    + now exists 0.
    + now exists 0.
    + now exists 3.
    + exists n. now rewrite <- firstn_map.
  - intros questions He Hp Hq Hw.
    destruct (main_success env parse now1 now2 now3 argv questions He Hp Hq Hw) as (E & W).
    cbv zeta in W. rewrite Ho, !replaceFirst_txtSuffix in W. now split.
Qed.

Lemma reports_share_the_base_name_witness :
  orDefault (lit "./extracted-questions-ocr.txt") (nth_error [lit "docs"] 1)
  = lit "./extracted-questions-ocr" ++ lit ".txt"
  /\ exists questions,
       fst (processDirectory sampleEnv (parseMCQFromText asciiLower) (lit "docs"))
       = Ok questions
       /\ questions <> []
       /\ exitStatus (main sampleEnv (parseMCQFromText asciiLower)
                        (lit "t1") (lit "t2") (lit "t3") [lit "docs"]) = None
       /\ written (main sampleEnv (parseMCQFromText asciiLower)
                     (lit "t1") (lit "t2") (lit "t3") [lit "docs"])
          = [(lit "./extracted-questions-ocr" ++ lit ".txt",
              formatQuestionsForOutput (lit "t1") questions);
             (lit "./extracted-questions-ocr" ++ lit ".json",
              formatQuestionsAsJSON sampleEnv (lit "t2") questions);
             (lit "./extracted-questions-ocr" ++ lit ".org.txt",
              rawOcrOutput (lit "t3") questions)].
Proof.
  split; [reflexivity|].
  eexists. split; [vm_compute; reflexivity|]. split; [discriminate|].
  apply (proj2 (reports_share_the_base_name sampleEnv (parseMCQFromText asciiLower)
                  (lit "t1") (lit "t2") (lit "t3") [lit "docs"]
                  (lit "./extracted-questions-ocr") eq_refl)).
  - reflexivity.
  - vm_compute. reflexivity.
  - discriminate.
  - intros file content. reflexivity.
Defined.

(** With an output file that does not end in ".txt" the pattern /\.txt$/
    replaces nothing: whatever a run writes goes to the output file itself;
    and a run that finds the directory, gets at least one question and
    whose writes all go through writes the text report, the JSON document
    and the raw OCR report to that one path, in this order, so that the
    file holds the raw OCR report in the end. *)
Theorem reports_overwrite_without_txt_suffix
        (env : Env) (parse : str -> str -> option MCQQuestion * list Diag)
        (now1 now2 now3 : str) (argv : list str) (outputFile : str) :
  orDefault (lit "./extracted-questions-ocr.txt") (nth_error argv 1) = outputFile ->
  endsWith (lit ".txt") outputFile = false ->
  Forall (fun w => fst w = outputFile) (written (main env parse now1 now2 now3 argv))
  /\ forall questions,
       existsSync env (orDefault (lit "./docs") (nth_error argv 0)) = true ->
       fst (processDirectory env parse (orDefault (lit "./docs") (nth_error argv 0)))
       = Ok questions ->
       questions <> [] ->
       (forall file content, writeFileSync env file content = Ok tt) ->
       exitStatus (main env parse now1 now2 now3 argv) = None
       /\ written (main env parse now1 now2 now3 argv)
          = [(outputFile, formatQuestionsForOutput now1 questions);
             (outputFile, formatQuestionsAsJSON env now2 questions);
             (outputFile, rawOcrOutput now3 questions)]
       /\ contentAfter (written (main env parse now1 now2 now3 argv)) outputFile
          = Some (rawOcrOutput now3 questions).
Proof.
  intros Ho He. split.
  - destruct (main_cases env parse now1 now2 now3 argv)
      as [(_ & _ & W) | (_ & said & [(error & _ & _ & W) | [(_ & _ & W)
           | (qs & _ & _ & [(_ & W) | (_ & n & error & _ & _ & W)])]])];
      cbv zeta in W; rewrite W; rewrite ?Ho, ?(replaceFirst_txtSuffix_none _ _ He).
    + constructor.
    + constructor.
    + constructor.
    + repeat constructor.
    + destruct n as [|[|[|n]]]; cbn [firstn]; rewrite ?firstn_nil; repeat constructor.
  - intros questions Hx Hp Hq Hw.
    destruct (main_success env parse now1 now2 now3 argv questions Hx Hp Hq Hw) as (E & W).
    cbv zeta in W. rewrite Ho, !(replaceFirst_txtSuffix_none _ _ He) in W.
    split; [exact E|]. split; [exact W|]. rewrite W.
    exact (contentAfter_last [(outputFile, formatQuestionsForOutput now1 questions);
                              (outputFile, formatQuestionsAsJSON env now2 questions)]
                             outputFile (rawOcrOutput now3 questions)).
Qed.

Lemma reports_overwrite_without_txt_suffix_witness :
  orDefault (lit "./extracted-questions-ocr.txt") (nth_error [lit "docs"; lit "out.md"] 1)
  = lit "out.md"
  /\ endsWith (lit ".txt") (lit "out.md") = false
  /\ exists questions,
       fst (processDirectory sampleEnv (parseMCQFromText asciiLower) (lit "docs"))
       = Ok questions
       /\ questions <> []
       /\ written (main sampleEnv (parseMCQFromText asciiLower)
                     (lit "t1") (lit "t2") (lit "t3") [lit "docs"; lit "out.md"])
          = [(lit "out.md", formatQuestionsForOutput (lit "t1") questions);
             (lit "out.md", formatQuestionsAsJSON sampleEnv (lit "t2") questions);
             (lit "out.md", rawOcrOutput (lit "t3") questions)]
       /\ contentAfter (written (main sampleEnv (parseMCQFromText asciiLower)
                                   (lit "t1") (lit "t2") (lit "t3")
                                   [lit "docs"; lit "out.md"])) (lit "out.md")
          = Some (rawOcrOutput (lit "t3") questions).
Proof.
  split; [reflexivity|]. split; [reflexivity|].
  eexists. split; [vm_compute; reflexivity|]. split; [discriminate|].
  apply (proj2 (reports_overwrite_without_txt_suffix sampleEnv (parseMCQFromText asciiLower)
                  (lit "t1") (lit "t2") (lit "t3") [lit "docs"; lit "out.md"]
                  (lit "out.md") eq_refl eq_refl)).
  - reflexivity.
  - vm_compute. reflexivity.
  - discriminate.
  - intros file content. reflexivity.
Defined.

Lemma appendRawText_keeps (x : str) entries :
  forall output, infix x output -> infix x (fold_left appendRawText entries output).
Proof.
  induction entries as [|e entries IH]; intros output H; [exact H|].
  cbn [fold_left]. apply IH. unfold appendRawText. now do 4 apply infix_app_l.
Qed.

Lemma appendRawText_writes entries :
  forall output e, In e entries ->
    infix (lit "FILE " ++ showNat (fst e + 1) ++ lit ": " ++ filename (snd e) ++ nl
             ++ rule40 ++ nl
             ++ orDefault (lit "No raw text available") (rawText (snd e)) ++ nl ++ nl)
          (fold_left appendRawText entries output).
Proof.
  induction entries as [|e' entries IH]; intros output e He; [destruct He|].
  cbn [fold_left]. destruct He as [->|He]; [|now apply IH].
  apply appendRawText_keeps. unfold appendRawText. apply infix_app_l.
  exists output, []. now rewrite app_nil_r, <- !app_assoc.
Qed.

(** The raw OCR report holds, for the question at each position, the
    numbered file heading followed by the OCR text as it was read; the
    placeholder for a missing text is written only for a question without
    one. *)
Theorem raw_report_holds_the_ocr_text (now : str) (questions : list MCQQuestion)
        (i : nat) (q : MCQQuestion) (text0 : str) :
  nth_error questions i = Some q ->
  rawText q = Some text0 ->
  text0 <> [] ->
  includes (lit "FILE " ++ showNat (i + 1) ++ lit ": " ++ filename q ++ nl
              ++ rule40 ++ nl ++ text0 ++ nl ++ nl)
           (rawOcrOutput now questions) = true.
Proof.
  intros H Hr Ht. apply infix_includes. unfold rawOcrOutput. cbv zeta.
  pose proof (nth_error_In _ _ (nth_error_indexed _ _ _ _ H)) as Hin.
  assert (E : orDefault (lit "No raw text available") (rawText q) = text0)
    by (rewrite Hr; now destruct text0).
  rewrite <- E. exact (appendRawText_writes _ _ (i, q) Hin).
Qed.

Lemma raw_report_holds_the_ocr_text_witness :
  nth_error [sampleQuestion] 0 = Some sampleQuestion
  /\ rawText sampleQuestion = Some sampleText
  /\ sampleText <> []
  /\ includes (lit "FILE 1: q1.png" ++ nl ++ rule40 ++ nl ++ sampleText ++ nl ++ nl)
              (rawOcrOutput (lit "2024-01-01T00:00:00.000Z") [sampleQuestion]) = true.
Proof.
  split; [reflexivity|]. split; [reflexivity|]. split; [discriminate|].
  exact (raw_report_holds_the_ocr_text (lit "2024-01-01T00:00:00.000Z") [sampleQuestion]
           0 sampleQuestion sampleText eq_refl eq_refl ltac:(discriminate)).
Defined.

Lemma ocr_failure_skips_only_that_file_witness :
  recognize sampleEnv (join sampleEnv (lit "docs") (lit "q2.PNG"))
  = Thrown (lit "cannot read image")
  /\ fst (processFiles sampleEnv (parseMCQFromText asciiLower) (lit "docs")
            ([lit "q1.png"] ++ lit "q2.PNG" :: []))
     = fst (processFiles sampleEnv (parseMCQFromText asciiLower) (lit "docs")
              ([lit "q1.png"] ++ [])).
Proof.
  split; [reflexivity|].
  exact (proj2 (ocr_failure_skips_only_that_file sampleEnv (parseMCQFromText asciiLower)
                  (lit "docs") (lit "q2.PNG") (lit "cannot read image")
                  [lit "q1.png"] [] eq_refl)).
Defined.

Lemma batch_results_are_usable_witness :
  exists questions,
    fst (processDirectory sampleEnv (parseMCQFromText (lowerCase sampleEnv)) (lit "docs"))
    = Ok questions
    /\ length questions = 1
    /\ Forall (fun q =>
                 question q <> []
                 /\ 1 <= length (options q)
                 /\ truthy (rawText q) = true
                 /\ exists files text0,
                      readdirSync sampleEnv (lit "docs") = Ok files
                      /\ In (filename q) files
                      /\ isPng sampleEnv (filename q) = true
                      /\ recognize sampleEnv (join sampleEnv (lit "docs") (filename q))
                         = Ok text0
                      /\ rawText q = Some text0
                      /\ fst (parseMCQFromText (lowerCase sampleEnv) text0 (filename q))
                         = Some q)
              questions.
Proof.
  eexists. split; [vm_compute; reflexivity|]. split; [reflexivity|].
  apply (batch_results_are_usable sampleEnv (lit "docs")). vm_compute. reflexivity.
Defined.

(** ** The id and the prefix that is cut off *)

Lemma starLoop_same_choice (R : pos -> pos -> Prop) g step k1 k2 :
  (forall k1' k2' x, (forall y, agree R (k1' y) (k2' y)) ->
                     agree R (step k1' x) (step k2' x)) ->
  (forall y, agree R (k1 y) (k2 y)) ->
  forall n x, agree R (starLoop g step k1 n x) (starLoop g step k2 n x).
Proof.
  intros Hstep Hk. induction n as [|n IH]; intros x; [exact I|].
  cbn [starLoop].
  set (again1 := fun y => if length (ahead y) <? length (ahead x)
                          then starLoop g step k1 n y else None).
  set (again2 := fun y => if length (ahead y) <? length (ahead x)
                          then starLoop g step k2 n y else None).
  assert (Ha : forall y, agree R (again1 y) (again2 y)).
  { intros y. unfold again1, again2.
    destruct (length (ahead y) <? length (ahead x)); [apply IH|exact I]. }
  pose proof (Hstep _ _ x Ha) as Hs. pose proof (Hk x) as Hx.
  destruct g.
  - destruct (step again1 x), (step again2 x); try contradiction; [exact Hs|exact Hx].
  - destruct (k1 x), (k2 x); try contradiction; [exact Hx|exact Hs].
Qed.

(** The matcher makes the same choices under two continuations that fail
    at the same positions. *)
Lemma m_same_choice (R : pos -> pos -> Prop) r :
  forall k1 k2 x, (forall y, agree R (k1 y) (k2 y)) -> agree R (m r k1 x) (m r k2 x).
Proof.
  induction r as [|p|r1 IH1 r2 IH2|r1 IH1 r2 IH2|g r1 IH1|r1 IH1|r1 IH1| | |];
    intros k1 k2 x Hk.
  - rewrite !m_Eps. apply Hk.
  - destruct x as [l s c]. destruct s as [|a t]; [now rewrite !m_Chr_nil|].
    rewrite !m_Chr_cons. destruct (p a); [apply Hk|exact I].
  - rewrite !m_Seq. apply IH1. intros y. now apply IH2.
  - rewrite !m_Alt. pose proof (IH1 k1 k2 x Hk) as H1.
    destruct (m r1 k1 x), (m r1 k2 x); try contradiction; [exact H1|now apply IH2].
  - rewrite !m_Star. now apply starLoop_same_choice.
  - rewrite !m_Grp. apply IH1. intros y. apply Hk.
  - rewrite !m_Ahead. destruct (m r1 Some x); [apply Hk|exact I].
  - change (m Bol k1 x) with (match passed x with [] => k1 x | _ :: _ => None end).
    change (m Bol k2 x) with (match passed x with [] => k2 x | _ :: _ => None end).
    destruct (passed x); [apply Hk|exact I].
  - change (m Eol k1 x) with (match ahead x with [] => k1 x | _ :: _ => None end).
    change (m Eol k2 x) with (match ahead x with [] => k2 x | _ :: _ => None end).
    destruct (ahead x); [apply Hk|exact I].
  - change (m Wordb k1 x)
      with (if xorb (match passed x with c :: _ => isWord c | [] => false end)
                    (match ahead x with c :: _ => isWord c | [] => false end)
            then k1 x else None).
    change (m Wordb k2 x)
      with (if xorb (match passed x with c :: _ => isWord c | [] => false end)
                    (match ahead x with c :: _ => isWord c | [] => false end)
            then k2 x else None).
    destruct (xorb _ _); [apply Hk|exact I].
Qed.

(** \.?\s* always matches, and passes over one full stop, if there is one,
    and the white space that follows. *)
Lemma m_tail l s c :
  exists l', m (Seq (Opt (Chr (isChar "."))) spaces) Some (Pos l s c)
             = Some (Pos l' (afterToken s) c).
Proof.
  unfold Opt, spaces, afterToken. rewrite m_Seq, m_Alt.
  destruct s as [|a t].
  - rewrite m_Chr_nil, m_Eps, m_star_greedy, greedyChr_Some. eexists. reflexivity.
  - rewrite m_Chr_cons. destruct (isChar "." a).
    + rewrite m_star_greedy, greedyChr_Some. eexists. reflexivity.
    + rewrite m_Eps, m_star_greedy, greedyChr_Some. eexists. reflexivity.
Qed.

Lemma search_agree (R : pos -> pos -> Prop) r1 r2 :
  (forall l s, agree R (m r1 Some (Pos l s None)) (m r2 Some (Pos l s None))) ->
  forall s l,
    match search r1 l s, search r2 l s with
    | Some f1, Some f2 => from f1 = from f2 /\ R (upto f1) (upto f2)
    | None, None => True
    | _, _ => False
    end.
Proof.
  intros H. induction s as [|a t IH]; intros l; cbn [search]; specialize (H l).
  - specialize (H []). destruct (m r1 Some (Pos l [] None)), (m r2 Some (Pos l [] None));
      try contradiction; [now split|exact I].
  - specialize (H (a :: t)).
    destruct (m r1 Some (Pos l (a :: t) None)), (m r2 Some (Pos l (a :: t) None));
      try contradiction; [now split|apply IH].
Qed.

Lemma idPatterns_agree l s :
  agree (fun y z => cap z = cap y /\ ahead z = afterToken (ahead y))
        (m questionIdPattern Some (Pos l s None))
        (m questionIdPrefixPattern Some (Pos l s None)).
Proof.
  change (m questionIdPrefixPattern Some (Pos l s None))
    with (m questionIdPattern
            (m (Seq (Opt (Chr (isChar "."))) spaces) Some) (Pos l s None)).
  apply m_same_choice. intros [l' s' c'].
  destruct (m_tail l' s' c') as (l'' & ->). cbn [agree cap ahead]. now split.
Qed.

Lemma exec_rest r s f :
  exec r s = Some f -> skipn (index f + length (matched f)) s = ahead (upto f).
Proof.
  intros H. destruct (exec_sound _ _ _ H) as (E & _).
  destruct (search_found _ _ _ _ H) as (u & v & Hs & Hf & _).
  assert (Hi : index f = length u).
  { unfold index. rewrite Hf. cbn [passed]. now rewrite app_nil_r, length_rev. }
  rewrite Hi in *. rewrite Hs in E at 2. rewrite firstn_prefix in E.
  rewrite E at 1. rewrite app_assoc, <- length_app. apply skipn_prefix.
Qed.

Lemma questionIdPattern_split text0 f :
  exec questionIdPattern text0 = Some f ->
  exists w q ds rest,
    text0 = w ++ (q :: ds) ++ rest
    /\ group1 f = Some (q :: ds)
    /\ ahead (upto f) = rest.
Proof.
  intros H. unfold exec in H.
  destruct (search_found _ _ _ _ H) as (u & v & Ht & Hf & Hm).
  rewrite Hf in Hm. unfold questionIdPattern in Hm. cbn [seqs] in Hm.
  rewrite m_Seq, m_Alt in Hm.
  assert (Hk : exists l1 w s1,
             text0 = w ++ s1
             /\ m (Seq (Grp (Seq (Chr (ci (oneOf "QE"))) digits2to4)) Wordb) Some
                  (Pos l1 s1 None) = Some (upto f)).
  { destruct (m Bol _ _) as [z|] eqn:Eb.
    - injection Hm as <-. destruct (rev u ++ []) eqn:El; [|discriminate Eb].
      exists [], u, v. split; [exact Ht|]. exact Eb.
    - destruct v as [|c0 v']; [discriminate Hm|].
      rewrite m_Chr_cons in Hm. destruct (isSpace c0); [|discriminate Hm].
      exists (c0 :: rev u ++ []), (u ++ [c0]), v'. split; [|exact Hm].
      rewrite Ht, <- app_assoc. reflexivity. }
  destruct Hk as (l1 & w & s1 & Hw & Hg).
  rewrite m_Seq, m_Grp in Hg.
  apply idToken_positions in Hg as (q & ds & rest & l' & Hs & Hq & Hd & Hlen & Hk).
  cbn [passed ahead] in Hk. apply m_Wordb_Some in Hk.
  exists w, q, ds, rest. unfold group1. rewrite Hk. cbn [cap ahead].
  rewrite Hs, consumed_prefix. rewrite Hw, Hs. auto.
Qed.

(** The id and the prefix removed before the question is looked for are
    found by two patterns; they always agree.  Without an id token nothing
    is removed; with one, the text is cut after the token that became the
    id, one full stop and the white space that follow it included, and what
    precedes the token is dropped as well. *)
Theorem id_token_is_what_is_cut_off (cleanText file : str) :
  (exec questionIdPattern cleanText = None
   /\ textAfterQuestionId cleanText = cleanText)
  \/ (exists before rest,
         cleanText = before ++ extractQuestionId cleanText file ++ rest
         /\ textAfterQuestionId cleanText = afterToken rest).
Proof.
  pose proof (search_agree _ _ _ idPatterns_agree cleanText []) as H.
  unfold textAfterQuestionId, extractQuestionId.
  fold (exec questionIdPattern cleanText) in H.
  fold (exec questionIdPrefixPattern cleanText) in H.
  destruct (exec questionIdPattern cleanText) as [f1|] eqn:E1;
    destruct (exec questionIdPrefixPattern cleanText) as [f2|] eqn:E2;
    try contradiction.
  - right. destruct H as (_ & _ & Ha).
    destruct (questionIdPattern_split _ _ E1) as (w & q & ds & rest & Hc & Hg & Hr).
    exists w, rest. unfold group1_or. rewrite Hg. split; [exact Hc|].
    unfold substringFrom. now rewrite (exec_rest _ _ _ E2), Ha, Hr.
  - left. now split.
Qed.

(** ** The question body of the second extractor *)

Lemma tidyQuestion_infix (c t : str) b :
  singleSpaced b c = true -> infix t c -> infix (tidyQuestion t) c.
Proof.
  intros Hc Hi. rewrite tidyQuestion_direct.
  pose proof (infix_trans _ _ _ (infix_dropWhile (notIn isLetter) t) Hi) as Hd.
  rewrite (collapse_spaced_id _ false (singleSpaced_infix _ _ _ Hd Hc)).
  exact (infix_trans _ _ _ (infix_trim _) Hd).
Qed.

Lemma firstSubstantial_infix cleanText ps :
  infix (Variant.firstSubstantial cleanText ps) cleanText.
Proof.
  induction ps as [|p ps IH]; cbn [Variant.firstSubstantial]; [apply infix_nil|].
  destruct (_ && _); [|exact IH].
  exact (infix_trans _ _ _ (infix_trim _) (group1_or_infix _ _)).
Qed.

Lemma headTrimmedOr_infix (c d : str) parts :
  infix d c -> Forall (fun x => infix x c) parts ->
  infix (Variant.headTrimmedOr d parts) c.
Proof.
  intros Hd Hp. unfold Variant.headTrimmedOr. destruct Hp as [|p parts Hi _]; [exact Hd|].
  pose proof (infix_trans _ _ _ (infix_trim p) Hi) as Ht.
  destruct (trim p); [exact Hd|exact Ht].
Qed.

Lemma beforeFirstOption_infix cleanText questionText :
  infix questionText cleanText ->
  infix (Variant.beforeFirstOption cleanText questionText) cleanText.
Proof.
  intros H. unfold Variant.beforeFirstOption.
  destruct (isEmpty questionText); [|exact H].
  destruct (1 <? _).
  - apply headTrimmedOr_infix; [apply infix_nil|apply split_infix].
  - apply headTrimmedOr_infix; [apply infix_substring|apply split_infix].
Qed.

(** The question body of the second extractor has the same shape, and on
    a cleaned text it too is copied from the text. *)
Theorem variant_question_body_is_tidy_and_copied (text0 : str) :
  (Variant.questionBody (cleanUp text0) = []
   \/ exists a t, Variant.questionBody (cleanUp text0) = a :: t /\ isLetter a = true)
  /\ singleSpaced true (Variant.questionBody (cleanUp text0)) = true
  /\ endsClean (Variant.questionBody (cleanUp text0)) = true
  /\ infix (Variant.questionBody (cleanUp text0)) (cleanUp text0).
Proof.
  pose proof (cleanUp_singleSpaced text0) as Hc.
  set (c := cleanUp text0) in *. clearbody c. unfold Variant.questionBody.
  pose proof (beforeFirstOption_infix c _ (firstSubstantial_infix c Variant.questionPatterns))
    as Hi.
  set (t := Variant.beforeFirstOption c _) in *. clearbody t.
  destruct (tidyQuestion_shape t) as (H1 & H2 & H3 & _).
  split; [exact H1|]. split; [exact H2|]. split; [exact H3|].
  exact (tidyQuestion_infix c t true Hc Hi).
Qed.

(** ** The two command lines *)




(** Where the two parsers read different questions the two runs write
    different reports: in [sampleEnv] the bodies differ. *)
Lemma mains_differ_with_their_parsers :
  map snd (written (VariantProgram.main sampleEnv Variant.parseMCQFromText
                      (lit "t1") (lit "t2") [lit "docs"]))
  <> firstn 2 (map snd (written (main sampleEnv (parseMCQFromText (lowerCase sampleEnv))
                                   (lit "t1") (lit "t2") (lit "t3") [lit "docs"]))).
Proof. vm_compute. discriminate. Qed.
